(** * Isomesh: the uniform grid of the dual-contouring extractor

    A shallow embedding of [src/src/data/grid.cpp] (class [UniformGrid]):
    construction, lattice addressing, topology queries and [fill], together
    with the properties the specification states about them.

    Conventions.
    - [uint32_t] values are [Z] in [0, 2^32); every unsigned operation of the
      source is written with its reduction modulo [2^32] ([u32]).
    - [int32_t] lattice coordinates are [Z].  The negation inside
      [glm::abs] overflows at [INT32_MIN]; it is modelled with its two's
      complement result, so the membership predicates are the compiled ones
      on every [int32_t] value.  The signed sums of the source are written
      without reduction, and the theorems keep to coordinates on which they
      stay in the [int32_t] range.
    - [double] is a parameter ([DoubleOps]): [fill] only adds, subtracts,
      divides and compares with zero, so its control flow is proved for
      every arithmetic, IEEE 754 with NaN included.  Two instances are
      given: exact rationals and binary64 primitive floats.

    [include/isomesh/qef/qef_solver_3d.hpp] only declares the QEF solver
    classes; their member functions are defined elsewhere, so nothing of
    the solvers is embedded here. *)

From Stdlib Require Import ZArith List Lia Bool String QArith Qfield Lqa.
From Stdlib Require Import PrimFloat Uint63 Sorted.
Import ListNotations.
Local Open Scope Z_scope.

(* ================================================================== *)
(** ** Machine integers *)

Definition U32_MOD : Z := 2 ^ 32.

(** Reduction of a mathematical integer to [uint32_t]. *)
Definition u32 (x : Z) : Z := x mod U32_MOD.

Definition u32_add (a b : Z) : Z := u32 (a + b).
Definition u32_sub (a b : Z) : Z := u32 (a - b).
Definition u32_mul (a b : Z) : Z := u32 (a * b).

(** [int32_t (u)] for an unsigned [u]: two's complement reinterpretation. *)
Definition i32_of_u32 (u : Z) : Z :=
  if u <? 2 ^ 31 then u else u - U32_MOD.

(* ================================================================== *)
(** ** common.hpp *)

(** [enum class Material : uint8_t]. *)
Inductive Material : Type :=
| Empty
| Stone
| Soil
| Count.

(* ================================================================== *)
(** ** The arithmetic of [double] *)

(** The operations [fill] performs on [double] values.  [dcmp0 v] is the
    IEEE comparison of [v] with [0.0]; [FNotComparable] is the answer for a
    NaN. *)
Record DoubleOps : Type := {
  dbl :> Type;
  dadd : dbl -> dbl -> dbl;
  dsub : dbl -> dbl -> dbl;
  dmul : dbl -> dbl -> dbl;
  ddiv : dbl -> dbl -> dbl;
  d_of_int : Z -> dbl;
  dcmp0 : dbl -> float_comparison
}.
Arguments dadd {_} _ _.
Arguments dsub {_} _ _.
Arguments dmul {_} _ _.
Arguments ddiv {_} _ _.
Arguments dcmp0 {_} _.

(** [v > 0]. *)
Definition d_gt0 {D : DoubleOps} (v : D) : bool :=
  match dcmp0 v with FGt => true | _ => false end.

(** [v <= 0.0]. *)
Definition d_le0 {D : DoubleOps} (v : D) : bool :=
  match dcmp0 v with FLt | FEq => true | _ => false end.

(** Exact rational arithmetic. *)
Definition QOps : DoubleOps := {|
  dbl := Q;
  dadd := Qplus;
  dsub := Qminus;
  dmul := Qmult;
  ddiv := Qdiv;
  d_of_int := inject_Z;
  dcmp0 := fun v => match Qcompare v 0 with
                    | Eq => FEq | Lt => FLt | Gt => FGt
                    end
|}.

(** IEEE 754 binary64, the [double] of the source. *)
Definition F64Ops : DoubleOps := {|
  dbl := float;
  dadd := PrimFloat.add;
  dsub := PrimFloat.sub;
  dmul := PrimFloat.mul;
  ddiv := PrimFloat.div;
  d_of_int := fun z => match z with
                       | Z0 => PrimFloat.zero
                       | Zpos _ => PrimFloat.of_uint63 (Uint63.of_Z z)
                       | Zneg _ => PrimFloat.opp (PrimFloat.of_uint63 (Uint63.of_Z (- z)))
                       end;
  dcmp0 := fun v => PrimFloat.compare v PrimFloat.zero
|}.

(** [glm::dvec3]. *)
Record dvec3 (D : DoubleOps) : Type := mk_dvec3 { vx : D; vy : D; vz : D }.
Arguments mk_dvec3 {D} _ _ _.
Arguments vx {D} _.
Arguments vy {D} _.
Arguments vz {D} _.

(** [glm::ivec3]. *)
Record ivec3 : Type := mk_ivec3 { ix : Z; iy : Z; iz : Z }.

(* ================================================================== *)
(** ** The grid *)

(** Modelled from the spec: the edge storage class behind [m_edgeX],
    [m_edgeY] and [m_edgeZ] is declared outside [grid.cpp].  An entry keeps
    the arguments of [addEdge (x, y, z, grad, offset, axis, sign1, mat)]:
    the lattice coordinates of the lower endpoint, the gradient, the
    fractional offset, the axis, which endpoint is solid and the material. *)
Record EdgeEntry (D : DoubleOps) : Type := mk_edge {
  e_x : Z;
  e_y : Z;
  e_z : Z;
  e_grad : dvec3 D;
  e_offset : D;
  e_axis : Z;
  e_solid : bool;
  e_mat : Material
}.
Arguments mk_edge {D} _ _ _ _ _ _ _ _.
Arguments e_x {D} _.
Arguments e_y {D} _.
Arguments e_z {D} _.
Arguments e_grad {D} _.
Arguments e_offset {D} _.
Arguments e_axis {D} _.
Arguments e_solid {D} _.
Arguments e_mat {D} _.

(** Modelled from the spec: [addEdge] appends one entry to the collection
    and [clear] empties it. *)
Definition addEdge {D : DoubleOps} (st : list (EdgeEntry D))
    (x y z : Z) (grad : dvec3 D) (offset : D) (axis : Z) (solid : bool)
    (mat : Material) : list (EdgeEntry D) :=
  st ++ [mk_edge x y z grad offset axis solid mat].

(** The data members of [UniformGrid]. *)
Record UniformGrid (D : DoubleOps) : Type := mk_grid {
  m_size : Z;
  m_halfSize : Z;
  m_globalPos : dvec3 D;
  m_gridStep : D;
  m_mat : list Material;
  m_edgeX : list (EdgeEntry D);
  m_edgeY : list (EdgeEntry D);
  m_edgeZ : list (EdgeEntry D)
}.
Arguments mk_grid {D} _ _ _ _ _ _ _ _.
Arguments m_size {D} _.
Arguments m_halfSize {D} _.
Arguments m_globalPos {D} _.
Arguments m_gridStep {D} _.
Arguments m_mat {D} _.
Arguments m_edgeX {D} _.
Arguments m_edgeY {D} _.
Arguments m_edgeZ {D} _.

(** What a constructor call throws. *)
Inductive Exception : Type :=
| invalid_argument (what : string)
| length_error (what : string).

(** The outcome of an accessor in a build that keeps [assert]. *)
Inductive Outcome (A : Type) : Type :=
| Ok (a : A)
| AssertionFailed
| OutOfBounds.
Arguments Ok {A} _.
Arguments AssertionFailed {A}.
Arguments OutOfBounds {A}.

(** A fixed-size [std::array]: a list written by position. *)
Fixpoint array_set {A : Type} (i : nat) (v : A) (l : list A) : list A :=
  match l, i with
  | [], _ => []
  | _ :: t, O => v :: t
  | h :: t, S i' => h :: array_set i' v t
  end.

(** [std::numeric_limits<int32_t>::min ()]. *)
Definition INT32_MIN : Z := - 2 ^ 31.

(** Unary minus on an [int32_t] as two's complement hardware computes it:
    every value but [INT32_MIN] has its negation in range, and [INT32_MIN]
    is its own negation. *)
Definition i32_neg (x : Z) : Z := if x =? INT32_MIN then INT32_MIN else - x.

(** [glm::abs] on an [int32_t]: a negative argument is negated.  C++ leaves
    the overflow at [INT32_MIN] undefined; the compiled code returns
    [INT32_MIN] itself, a negative number, and so does the model. *)
Definition glm_abs (x : Z) : Z := if x <? 0 then i32_neg x else x.

(** The coordinates whose negation is an [int32_t], that is, those on which
    [glm::abs] is the absolute value: all but [INT32_MIN]. *)
Definition negatable (x : Z) : bool := negb (x =? INT32_MIN).

Definition negatable3 (x y z : Z) : bool :=
  negatable x && negatable y && negatable z.

Definition negatable_v (p : ivec3) : bool := negatable3 (ix p) (iy p) (iz p).

Definition is_pow2 (n : Z) : Prop := exists k, 0 <= k /\ n = 2 ^ k.

(** Template parameter of the edge and face queries. *)
Inductive Axis : Type := AxisX | AxisY | AxisZ.

Section Grid.

Context {D : DoubleOps}.

(** [UniformGrid::UniformGrid (size, globalPos, gridStep)].  The member
    initialisers run first, then the three checks in source order; a throw
    leaves no object.  [new Material[n]] leaves its entries indeterminate:
    the model fills them with [Empty], and nothing reads them before
    [fill]. *)
Definition UniformGrid_new (size : Z) (globalPos : dvec3 D) (gridStep : D)
  : Exception + UniformGrid D :=
  let halfSize := Z.quot (i32_of_u32 size) 2 in
  if size <? 2 then
    inl (invalid_argument "Grid size should be at least two")
  else if negb (Z.land size (u32_sub size 1) =? 0) then
    inl (invalid_argument "Grid size is not a power of two")
  else if size >? 1024 then
    inl (length_error "Too large grid size (> 1024)")
  else
    let n := u32_mul (u32_mul (u32_add size 1) (u32_add size 1)) (u32_add size 1) in
    inr (mk_grid size halfSize globalPos gridStep
                 (repeat Empty (Z.to_nat n)) [] [] []).

(** Modelled from the spec: [dataSize ()] is declared in the class header;
    the grid owns a flat array of [(size+1)^3] materials. *)
Definition dataSize (g : UniformGrid D) : Z :=
  u32_mul (u32_mul (u32_add (m_size g) 1) (u32_add (m_size g) 1))
          (u32_add (m_size g) 1).

(** [UniformGrid::isVertexInGrid (x, y, z)]. *)
Definition isVertexInGrid (g : UniformGrid D) (x y z : Z) : bool :=
  if glm_abs x >? m_halfSize g then false
  else if glm_abs y >? m_halfSize g then false
  else if glm_abs z >? m_halfSize g then false
  else true.

(** [UniformGrid::isVertexOnBorder (x, y, z)]. *)
Definition isVertexOnBorder (g : UniformGrid D) (x y z : Z) : bool :=
  if glm_abs x =? m_halfSize g then true
  else if glm_abs y =? m_halfSize g then true
  else if glm_abs z =? m_halfSize g then true
  else false.

(** [UniformGrid::pointToIndex (x, y, z)], the arithmetic after the
    [assert]. *)
Definition pointToIndex (g : UniformGrid D) (x y z : Z) : Z :=
  let idx := u32_mul (u32 (y + m_halfSize g)) (u32_add (m_size g) 1) in
  let idx := u32_mul (u32_add idx (u32 (x + m_halfSize g)))
                     (u32_add (m_size g) 1) in
  let idx := u32_add idx (u32 (z + m_halfSize g)) in
  idx.

(** [pointToIndex] in a build that keeps its [assert]. *)
Definition pointToIndex_checked (g : UniformGrid D) (x y z : Z) : Outcome Z :=
  if isVertexInGrid g x y z then Ok (pointToIndex g x y z)
  else AssertionFailed.

(** The [glm::ivec3] overload. *)
Definition pointToIndex_v (g : UniformGrid D) (p : ivec3) : Z :=
  pointToIndex g (ix p) (iy p) (iz p).

(** [UniformGrid::indexToPoint (idx)], the arithmetic after the [assert].
    [%] and [/] are the unsigned ones. *)
Definition indexToPoint (g : UniformGrid D) (idx : Z) : ivec3 :=
  let n := u32_add (m_size g) 1 in
  let z := i32_of_u32 (idx mod n) - m_halfSize g in
  let idx := idx / n in
  let x := i32_of_u32 (idx mod n) - m_halfSize g in
  let idx := idx / n in
  let y := i32_of_u32 idx - m_halfSize g in
  mk_ivec3 x y z.

(** [UniformGrid::at (x, y, z)]: the assertion, then the array read. *)
Definition at_ (g : UniformGrid D) (x y z : Z) : Outcome Material :=
  if negb (isVertexInGrid g x y z) then AssertionFailed
  else
    match pointToIndex_checked g x y z with
    | Ok idx =>
        match nth_error (m_mat g) (Z.to_nat idx) with
        | Some m => Ok m
        | None => OutOfBounds
        end
    | AssertionFailed => AssertionFailed
    | OutOfBounds => OutOfBounds
    end.

(** [UniformGrid::isEdgeInGrid<0>], [<1>] and [<2>]. *)
Definition isEdgeInGrid_0 (g : UniformGrid D) (edgePos : ivec3) : bool :=
  if (ix edgePos <? - m_halfSize g) || (ix edgePos >=? m_halfSize g) then false
  else if glm_abs (iy edgePos) >? m_halfSize g then false
  else if glm_abs (iz edgePos) >? m_halfSize g then false
  else true.

Definition isEdgeInGrid_1 (g : UniformGrid D) (edgePos : ivec3) : bool :=
  if (iy edgePos <? - m_halfSize g) || (iy edgePos >=? m_halfSize g) then false
  else if glm_abs (ix edgePos) >? m_halfSize g then false
  else if glm_abs (iz edgePos) >? m_halfSize g then false
  else true.

Definition isEdgeInGrid_2 (g : UniformGrid D) (edgePos : ivec3) : bool :=
  if (iz edgePos <? - m_halfSize g) || (iz edgePos >=? m_halfSize g) then false
  else if glm_abs (ix edgePos) >? m_halfSize g then false
  else if glm_abs (iy edgePos) >? m_halfSize g then false
  else true.

Definition isEdgeInGrid (a : Axis) : UniformGrid D -> ivec3 -> bool :=
  match a with
  | AxisX => isEdgeInGrid_0
  | AxisY => isEdgeInGrid_1
  | AxisZ => isEdgeInGrid_2
  end.

(** [UniformGrid::isCellInGrid (cellPos)]. *)
Definition isCellInGrid (g : UniformGrid D) (cellPos : ivec3) : bool :=
  if (ix cellPos <? - m_halfSize g) || (iy cellPos <? - m_halfSize g)
     || (iz cellPos <? - m_halfSize g) then false
  else if (ix cellPos >=? m_halfSize g) || (iy cellPos >=? m_halfSize g)
          || (iz cellPos >=? m_halfSize g) then false
  else true.

(** [UniformGrid::isCellOnBorder (cellPos)]. *)
Definition isCellOnBorder (g : UniformGrid D) (cellPos : ivec3) : bool :=
  if (ix cellPos =? - m_halfSize g) || (iy cellPos =? - m_halfSize g)
     || (iz cellPos =? - m_halfSize g) then true
  else if (ix cellPos =? m_halfSize g - 1) || (iy cellPos =? m_halfSize g - 1)
          || (iz cellPos =? m_halfSize g - 1) then true
  else false.

(** The sentinel [kBadIndex] is a constant of the class header; it is a
    parameter here. *)
Variable kBadIndex : Z.

(** [UniformGrid::adjacentCellsForEdge<0>].  The four slots of the
    [std::array] start indeterminate ([0] here) and are all assigned. *)
Definition adjacentCellsForEdge_0 (g : UniformGrid D) (edgePos : ivec3) : list Z :=
  let dy := u32_mul (u32_add (m_size g) 1) (u32_add (m_size g) 1) in
  let dz := 1 in
  let cells := repeat 0 4 in
  let cells := array_set 2 (pointToIndex_v g edgePos) cells in
  let cells := array_set 0 (u32_sub (u32_sub (nth 2 cells 0) dy) dz) cells in
  let cells := array_set 1 (u32_sub (nth 2 cells 0) dz) cells in
  let cells := array_set 3 (u32_sub (nth 2 cells 0) dy) cells in
  let cells := if iy edgePos =? - m_halfSize g
               then array_set 0 kBadIndex (array_set 3 kBadIndex cells) else cells in
  let cells := if iy edgePos =? m_halfSize g
               then array_set 1 kBadIndex (array_set 2 kBadIndex cells) else cells in
  let cells := if iz edgePos =? - m_halfSize g
               then array_set 0 kBadIndex (array_set 1 kBadIndex cells) else cells in
  let cells := if iz edgePos =? m_halfSize g
               then array_set 2 kBadIndex (array_set 3 kBadIndex cells) else cells in
  cells.

(** [UniformGrid::adjacentCellsForEdge<1>]. *)
Definition adjacentCellsForEdge_1 (g : UniformGrid D) (edgePos : ivec3) : list Z :=
  let dx := u32_add (m_size g) 1 in
  let dz := 1 in
  let cells := repeat 0 4 in
  let cells := array_set 2 (pointToIndex_v g edgePos) cells in
  let cells := array_set 0 (u32_sub (u32_sub (nth 2 cells 0) dx) dz) cells in
  let cells := array_set 1 (u32_sub (nth 2 cells 0) dx) cells in
  let cells := array_set 3 (u32_sub (nth 2 cells 0) dz) cells in
  let cells := if ix edgePos =? - m_halfSize g
               then array_set 0 kBadIndex (array_set 1 kBadIndex cells) else cells in
  let cells := if ix edgePos =? m_halfSize g
               then array_set 2 kBadIndex (array_set 3 kBadIndex cells) else cells in
  let cells := if iz edgePos =? - m_halfSize g
               then array_set 0 kBadIndex (array_set 3 kBadIndex cells) else cells in
  let cells := if iz edgePos =? m_halfSize g
               then array_set 1 kBadIndex (array_set 2 kBadIndex cells) else cells in
  cells.

(** [UniformGrid::adjacentCellsForEdge<2>]. *)
Definition adjacentCellsForEdge_2 (g : UniformGrid D) (edgePos : ivec3) : list Z :=
  let dx := u32_add (m_size g) 1 in
  let dy := u32_mul (u32_add (m_size g) 1) (u32_add (m_size g) 1) in
  let cells := repeat 0 4 in
  let cells := array_set 2 (pointToIndex_v g edgePos) cells in
  let cells := array_set 0 (u32_sub (u32_sub (nth 2 cells 0) dx) dy) cells in
  let cells := array_set 1 (u32_sub (nth 2 cells 0) dy) cells in
  let cells := array_set 3 (u32_sub (nth 2 cells 0) dx) cells in
  let cells := if ix edgePos =? - m_halfSize g
               then array_set 0 kBadIndex (array_set 3 kBadIndex cells) else cells in
  let cells := if ix edgePos =? m_halfSize g
               then array_set 1 kBadIndex (array_set 2 kBadIndex cells) else cells in
  let cells := if iy edgePos =? - m_halfSize g
               then array_set 0 kBadIndex (array_set 1 kBadIndex cells) else cells in
  let cells := if iy edgePos =? m_halfSize g
               then array_set 2 kBadIndex (array_set 3 kBadIndex cells) else cells in
  cells.

Definition adjacentCellsForEdge (a : Axis) : UniformGrid D -> ivec3 -> list Z :=
  match a with
  | AxisX => adjacentCellsForEdge_0
  | AxisY => adjacentCellsForEdge_1
  | AxisZ => adjacentCellsForEdge_2
  end.

(** [UniformGrid::adjacentVerticesForCell (cellIdx)]. *)
Definition adjacentVerticesForCell (g : UniformGrid D) (cellIdx : Z) : list Z :=
  let dx := u32_add (m_size g) 1 in
  let dy := u32_mul (u32_add (m_size g) 1) (u32_add (m_size g) 1) in
  let dz := 1 in
  let vertices := repeat 0 8 in
  let vertices := array_set 0 cellIdx vertices in
  let vertices := array_set 1 (u32_add cellIdx dz) vertices in
  let vertices := array_set 2 (u32_add cellIdx dx) vertices in
  let vertices := array_set 3 (u32_add (u32_add cellIdx dx) dz) vertices in
  let vertices := array_set 4 (u32_add cellIdx dy) vertices in
  let vertices := array_set 5 (u32_add (u32_add cellIdx dy) dz) vertices in
  let vertices := array_set 6 (u32_add (u32_add cellIdx dx) dy) vertices in
  let vertices := array_set 7 (u32_add (u32_add (u32_add cellIdx dx) dy) dz) vertices in
  vertices.

(** One read [m_mat[i]] of [materialsOfCell], with the bound made explicit. *)
Definition read_mat (g : UniformGrid D) (i : Z) : Outcome Material :=
  match nth_error (m_mat g) (Z.to_nat i) with
  | Some m => Ok m
  | None => OutOfBounds
  end.

(** Sequencing of reads: the first failure is the outcome. *)
Fixpoint read_all (g : UniformGrid D) (idxs : list Z) : Outcome (list Material) :=
  match idxs with
  | [] => Ok []
  | i :: rest =>
      match read_mat g i with
      | Ok m =>
          match read_all g rest with
          | Ok ms => Ok (m :: ms)
          | AssertionFailed => AssertionFailed
          | OutOfBounds => OutOfBounds
          end
      | AssertionFailed => AssertionFailed
      | OutOfBounds => OutOfBounds
      end
  end.

(** [UniformGrid::materialsOfCell (cellIdx)]: eight reads at the offsets of
    [adjacentVerticesForCell], in the same order. *)
Definition materialsOfCell (g : UniformGrid D) (cellIdx : Z) : Outcome (list Material) :=
  let dx := u32_add (m_size g) 1 in
  let dy := u32_mul (u32_add (m_size g) 1) (u32_add (m_size g) 1) in
  let dz := 1 in
  read_all g
    [ cellIdx;
      u32_add cellIdx dz;
      u32_add cellIdx dx;
      u32_add (u32_add cellIdx dx) dz;
      u32_add cellIdx dy;
      u32_add (u32_add cellIdx dy) dz;
      u32_add (u32_add cellIdx dx) dy;
      u32_add (u32_add (u32_add cellIdx dx) dy) dz ].

(** The lattice of the grid: the coordinates whose components all lie in
    [-halfSize, halfSize], which are the vertices the loops of [fill]
    visit. *)
Definition inLattice (g : UniformGrid D) (x y z : Z) : Prop :=
  - m_halfSize g <= x <= m_halfSize g /\
  - m_halfSize g <= y <= m_halfSize g /\
  - m_halfSize g <= z <= m_halfSize g.

(** The edges of the lattice along the axis [a], each named by its lower
    endpoint: the positions the scan of [fill] along [a] visits. *)
Definition edgeInLattice (a : Axis) (g : UniformGrid D) (e : ivec3) : Prop :=
  match a with
  | AxisX => - m_halfSize g <= ix e < m_halfSize g /\
             - m_halfSize g <= iy e <= m_halfSize g /\
             - m_halfSize g <= iz e <= m_halfSize g
  | AxisY => - m_halfSize g <= ix e <= m_halfSize g /\
             - m_halfSize g <= iy e < m_halfSize g /\
             - m_halfSize g <= iz e <= m_halfSize g
  | AxisZ => - m_halfSize g <= ix e <= m_halfSize g /\
             - m_halfSize g <= iy e <= m_halfSize g /\
             - m_halfSize g <= iz e < m_halfSize g
  end.

(** The class invariant a successful construction establishes and [fill]
    keeps. *)
Record valid_grid (g : UniformGrid D) : Prop := {
  vg_size_lo : 2 <= m_size g;
  vg_size_hi : m_size g <= 1024;
  vg_pow2 : is_pow2 (m_size g);
  vg_half : m_halfSize g = m_size g / 2;
  vg_mat : Z.of_nat (List.length (m_mat g)) = (m_size g + 1) ^ 3
}.

End Grid.

(* ================================================================== *)
(** ** [fill] *)

(** The collaborators of [fill], as it calls them: [f (p)], [f.grad (p)]
    and [f.material (p, value)]. *)
Record ScalarField (D : DoubleOps) : Type := mk_field {
  sf_value : dvec3 D -> D;
  sf_grad : dvec3 D -> dvec3 D;
  sf_material : dvec3 D -> D -> Material
}.
Arguments mk_field {D} _ _ _.
Arguments sf_value {D} _ _.
Arguments sf_grad {D} _ _.
Arguments sf_material {D} _ _ _.

(** [solver.findAlongX (x0, y, z, x1, value0, value1, f)] and its
    siblings. *)
Record ZeroFinder (D : DoubleOps) : Type := mk_finder {
  findAlongX : D -> D -> D -> D -> D -> D -> ScalarField D -> D;
  findAlongY : D -> D -> D -> D -> D -> D -> ScalarField D -> D;
  findAlongZ : D -> D -> D -> D -> D -> D -> ScalarField D -> D
}.
Arguments mk_finder {D} _ _ _.
Arguments findAlongX {D} _ _ _ _ _ _ _ _.
Arguments findAlongY {D} _ _ _ _ _ _ _ _.
Arguments findAlongZ {D} _ _ _ _ _ _ _ _.

(** [for (i = lo; ...; i++) body]: [n] iterations from [lo], threading the
    state. *)
Fixpoint for_range {S : Type} (lo : Z) (n : nat) (body : Z -> S -> S) (s : S) : S :=
  match n with
  | O => s
  | Datatypes.S n' => for_range (lo + 1) n' body (body lo s)
  end.

(** [for (i = lo; i <= hi; i++)]. *)
Definition for_le {S : Type} (lo hi : Z) (body : Z -> S -> S) (s : S) : S :=
  for_range lo (Z.to_nat (hi - lo + 1)) body s.

(** [for (i = lo; i < hi; i++)]. *)
Definition for_lt {S : Type} (lo hi : Z) (body : Z -> S -> S) (s : S) : S :=
  for_range lo (Z.to_nat (hi - lo)) body s.

(** [v[i]] and [v[i] = x] on a [std::vector] or a raw array.  An index past
    the end is undefined in the source; here the read gives the default and
    the write is dropped. *)
Definition vec_get {A : Type} (l : list A) (i : Z) (d : A) : A :=
  nth (Z.to_nat i) l d.

Definition vec_set {A : Type} (l : list A) (i : Z) (v : A) : list A :=
  array_set (Z.to_nat i) v l.

Section Fill.

Context {D : DoubleOps}.

(** [localToGlobal] is an inline member of the class header; [fill] is
    proved for every such function. *)
Variable localToGlobal : UniformGrid D -> dvec3 D -> dvec3 D.

(** The locals of the sampling loop, the material array it writes and the
    trace of the calls [f.material (p, v)] it makes. *)
Record VState : Type := mk_vstate {
  vs_idx : Z;
  vs_call_pos : dvec3 D;
  vs_values : list D;
  vs_mat : list Material;
  vs_trace : list (dvec3 D * D)
}.

(** The innermost body of the sampling loop (lines 35 to 41). *)
Definition sample_vertex (g : UniformGrid D) (f : ScalarField D) (s : VState) : VState :=
  let idx := vs_idx s in
  let call_pos := vs_call_pos s in
  let values := vec_set (vs_values s) idx (sf_value f call_pos) in
  let v := vec_get values idx (d_of_int D 0) in
  let '(mat, trace) :=
    if d_gt0 v then (vec_set (vs_mat s) idx Empty, vs_trace s)
    else (vec_set (vs_mat s) idx (sf_material f call_pos v),
          vs_trace s ++ [(call_pos, v)]) in
  mk_vstate (u32_add idx 1)
            (mk_dvec3 (vx call_pos) (vy call_pos) (dadd (vz call_pos) (m_gridStep g)))
            values mat trace.

(** The sampling loops (lines 25 to 46). *)
Definition sample_grid (g : UniformGrid D) (f : ScalarField D) : VState :=
  let h := m_halfSize g in
  let lowest_point :=
    localToGlobal g (mk_dvec3 (d_of_int D (- h)) (d_of_int D (- h)) (d_of_int D (- h))) in
  let s0 := mk_vstate 0 lowest_point
                      (repeat (d_of_int D 0) (Z.to_nat (dataSize g)))
                      (m_mat g) [] in
  for_le (- h) h (fun _y s =>
    let s := mk_vstate (vs_idx s)
                       (mk_dvec3 (vx lowest_point) (vy (vs_call_pos s)) (vz (vs_call_pos s)))
                       (vs_values s) (vs_mat s) (vs_trace s) in
    let s := for_le (- h) h (fun _x s =>
      let s := mk_vstate (vs_idx s)
                         (mk_dvec3 (vx (vs_call_pos s)) (vy (vs_call_pos s)) (vz lowest_point))
                         (vs_values s) (vs_mat s) (vs_trace s) in
      let s := for_le (- h) h (fun _z s => sample_vertex g f s) s in
      mk_vstate (vs_idx s)
                (mk_dvec3 (dadd (vx (vs_call_pos s)) (m_gridStep g))
                          (vy (vs_call_pos s)) (vz (vs_call_pos s)))
                (vs_values s) (vs_mat s) (vs_trace s)) s in
    mk_vstate (vs_idx s)
              (mk_dvec3 (vx (vs_call_pos s))
                        (dadd (vy (vs_call_pos s)) (m_gridStep g))
                        (vz (vs_call_pos s)))
              (vs_values s) (vs_mat s) (vs_trace s)) s0.

(** The locals of an edge scan. *)
Record EState : Type := mk_estate {
  es_idx1 : Z;
  es_idx2 : Z;
  es_edges : list (EdgeEntry D)
}.

Definition es_skip (k : Z) (s : EState) : EState :=
  mk_estate (u32_add (es_idx1 s) k) (u32_add (es_idx2 s) k) (es_edges s).

(** The innermost body of the scan along X (lines 58 to 71). *)
Definition scan_edge_X (g : UniformGrid D) (f : ScalarField D) (solver : ZeroFinder D)
    (values : list D) (mat : list Material) (x y z : Z) (s : EState) : EState :=
  let v1 := vec_get values (es_idx1 s) (d_of_int D 0) in
  let v2 := vec_get values (es_idx2 s) (d_of_int D 0) in
  let sign1 := d_le0 v1 in
  let sign2 := d_le0 v2 in
  let edges :=
    if negb (Bool.eqb sign1 sign2) then
      let p := localToGlobal g (mk_dvec3 (d_of_int D x) (d_of_int D y) (d_of_int D z)) in
      let x0 := vx p in
      let x1 := dadd (vx p) (m_gridStep g) in
      let p := mk_dvec3 (findAlongX solver x0 (vy p) (vz p) x1 v1 v2 f) (vy p) (vz p) in
      let grad := sf_grad f p in
      let offset := ddiv (dsub (vx p) x0) (m_gridStep g) in
      let m := if sign1 then vec_get mat (es_idx1 s) Empty
               else vec_get mat (es_idx2 s) Empty in
      addEdge (es_edges s) x y z grad offset 0 sign1 m
    else es_edges s in
  mk_estate (u32_add (es_idx1 s) 1) (u32_add (es_idx2 s) 1) edges.

(** The innermost body of the scan along Y (lines 84 to 97). *)
Definition scan_edge_Y (g : UniformGrid D) (f : ScalarField D) (solver : ZeroFinder D)
    (values : list D) (mat : list Material) (x y z : Z) (s : EState) : EState :=
  let v1 := vec_get values (es_idx1 s) (d_of_int D 0) in
  let v2 := vec_get values (es_idx2 s) (d_of_int D 0) in
  let sign1 := d_le0 v1 in
  let sign2 := d_le0 v2 in
  let edges :=
    if negb (Bool.eqb sign1 sign2) then
      let p := localToGlobal g (mk_dvec3 (d_of_int D x) (d_of_int D y) (d_of_int D z)) in
      let y0 := vy p in
      let y1 := dadd (vy p) (m_gridStep g) in
      let p := mk_dvec3 (vx p) (findAlongY solver (vx p) y0 (vz p) y1 v1 v2 f) (vz p) in
      let grad := sf_grad f p in
      let offset := ddiv (dsub (vy p) y0) (m_gridStep g) in
      let m := if sign1 then vec_get mat (es_idx1 s) Empty
               else vec_get mat (es_idx2 s) Empty in
      addEdge (es_edges s) x y z grad offset 1 sign1 m
    else es_edges s in
  mk_estate (u32_add (es_idx1 s) 1) (u32_add (es_idx2 s) 1) edges.

(** The innermost body of the scan along Z (lines 108 to 121). *)
Definition scan_edge_Z (g : UniformGrid D) (f : ScalarField D) (solver : ZeroFinder D)
    (values : list D) (mat : list Material) (x y z : Z) (s : EState) : EState :=
  let v1 := vec_get values (es_idx1 s) (d_of_int D 0) in
  let v2 := vec_get values (es_idx2 s) (d_of_int D 0) in
  let sign1 := d_le0 v1 in
  let sign2 := d_le0 v2 in
  let edges :=
    if negb (Bool.eqb sign1 sign2) then
      let p := localToGlobal g (mk_dvec3 (d_of_int D x) (d_of_int D y) (d_of_int D z)) in
      let z0 := vz p in
      let z1 := dadd (vz p) (m_gridStep g) in
      let p := mk_dvec3 (vx p) (vy p) (findAlongZ solver (vx p) (vy p) z0 z1 v1 v2 f) in
      let grad := sf_grad f p in
      let offset := ddiv (dsub (vz p) z0) (m_gridStep g) in
      let m := if sign1 then vec_get mat (es_idx1 s) Empty
               else vec_get mat (es_idx2 s) Empty in
      addEdge (es_edges s) x y z grad offset 2 sign1 m
    else es_edges s in
  mk_estate (u32_add (es_idx1 s) 1) (u32_add (es_idx2 s) 1) edges.

(** The scan along X (lines 52 to 76): [x] stops one short of [halfSize],
    and both indices skip the last row of every [y] slab. *)
Definition scan_X (g : UniformGrid D) (f : ScalarField D) (solver : ZeroFinder D)
    (values : list D) (mat : list Material) : list (EdgeEntry D) :=
  let h := m_halfSize g in
  let s0 := mk_estate 0 (u32_add (m_size g) 1) [] in
  es_edges
    (for_le (- h) h (fun y s =>
       let s := for_lt (- h) h (fun x s =>
                  for_le (- h) h (fun z s =>
                    scan_edge_X g f solver values mat x y z s) s) s in
       es_skip (u32_add (m_size g) 1) s) s0).

(** The scan along Y (lines 78 to 100). *)
Definition scan_Y (g : UniformGrid D) (f : ScalarField D) (solver : ZeroFinder D)
    (values : list D) (mat : list Material) : list (EdgeEntry D) :=
  let h := m_halfSize g in
  let s0 := mk_estate 0 (u32_mul (u32_add (m_size g) 1) (u32_add (m_size g) 1)) [] in
  es_edges
    (for_lt (- h) h (fun y s =>
       for_le (- h) h (fun x s =>
         for_le (- h) h (fun z s =>
           scan_edge_Y g f solver values mat x y z s) s) s) s0).

(** The scan along Z (lines 102 to 126): both indices skip the last vertex
    of every row. *)
Definition scan_Z (g : UniformGrid D) (f : ScalarField D) (solver : ZeroFinder D)
    (values : list D) (mat : list Material) : list (EdgeEntry D) :=
  let h := m_halfSize g in
  let s0 := mk_estate 0 1 [] in
  es_edges
    (for_le (- h) h (fun y s =>
       for_le (- h) h (fun x s =>
         let s := for_lt (- h) h (fun z s =>
                    scan_edge_Z g f solver values mat x y z s) s in
         es_skip 1 s) s) s0).

(** [UniformGrid::fill (f, solver)]: the grid afterwards, with the trace of
    the [f.material] calls. *)
Definition fill (g : UniformGrid D) (f : ScalarField D) (solver : ZeroFinder D)
  : UniformGrid D * list (dvec3 D * D) :=
  let s := sample_grid g f in
  let values := vs_values s in
  let mat := vs_mat s in
  (mk_grid (m_size g) (m_halfSize g) (m_globalPos g) (m_gridStep g) mat
           (scan_X g f solver values mat)
           (scan_Y g f solver values mat)
           (scan_Z g f solver values mat),
   vs_trace s).

(** [base + step + ... + step], [k] additions, as [call_pos] accumulates
    them. *)
Definition iter_dadd (base step : D) (k : Z) : D :=
  Nat.iter (Z.to_nat k) (fun c => dadd c step) base.

(** The point at which [fill] samples the field for the lattice vertex
    [(x, y, z)]. *)
Definition samplePos (g : UniformGrid D) (x y z : Z) : dvec3 D :=
  let h := m_halfSize g in
  let lowest_point :=
    localToGlobal g (mk_dvec3 (d_of_int D (- h)) (d_of_int D (- h)) (d_of_int D (- h))) in
  mk_dvec3 (iter_dadd (vx lowest_point) (m_gridStep g) (x + h))
           (iter_dadd (vy lowest_point) (m_gridStep g) (y + h))
           (iter_dadd (vz lowest_point) (m_gridStep g) (z + h)).

(** What an edge scan adds for the edge with lower endpoint [(x, y, z)]:
    the innermost body run on an empty list, with the indices of the two
    endpoints. *)
Definition crossing (a : Axis) (g : UniformGrid D) (f : ScalarField D)
    (solver : ZeroFinder D) (values : list D) (mat : list Material)
    (x y z : Z) : list (EdgeEntry D) :=
  match a with
  | AxisX => es_edges (scan_edge_X g f solver values mat x y z
               (mk_estate (pointToIndex g x y z) (pointToIndex g (x + 1) y z) []))
  | AxisY => es_edges (scan_edge_Y g f solver values mat x y z
               (mk_estate (pointToIndex g x y z) (pointToIndex g x (y + 1) z) []))
  | AxisZ => es_edges (scan_edge_Z g f solver values mat x y z
               (mk_estate (pointToIndex g x y z) (pointToIndex g x y (z + 1)) []))
  end.

(** The value [fill] samples at the lattice vertex [(x, y, z)]. *)
Definition sampleValue (g : UniformGrid D) (f : ScalarField D) (x y z : Z) : D :=
  sf_value f (samplePos g x y z).

(** The inside predicate of the edge scans: [value <= 0.0]. *)
Definition inside (g : UniformGrid D) (f : ScalarField D) (x y z : Z) : bool :=
  d_le0 (sampleValue g f x y z).

End Fill.

(* ================================================================== *)
(** ** Lattice geometry used by the statements *)

(** The eight corners of the cell whose minimal corner is [c], in the order
    [adjacentVerticesForCell] lists them. *)
Definition cellCorners (c : ivec3) : list ivec3 :=
  [ mk_ivec3 (ix c) (iy c) (iz c);
    mk_ivec3 (ix c) (iy c) (iz c + 1);
    mk_ivec3 (ix c + 1) (iy c) (iz c);
    mk_ivec3 (ix c + 1) (iy c) (iz c + 1);
    mk_ivec3 (ix c) (iy c + 1) (iz c);
    mk_ivec3 (ix c) (iy c + 1) (iz c + 1);
    mk_ivec3 (ix c + 1) (iy c + 1) (iz c);
    mk_ivec3 (ix c + 1) (iy c + 1) (iz c + 1) ].

(** The edge with lower endpoint [e] along axis [a] lies on the boundary of
    the unit cell with minimal corner [c]. *)
Definition cellHasEdge (a : Axis) (c e : ivec3) : Prop :=
  match a with
  | AxisX => ix e = ix c /\ (iy e = iy c \/ iy e = iy c + 1)
                         /\ (iz e = iz c \/ iz e = iz c + 1)
  | AxisY => iy e = iy c /\ (ix e = ix c \/ ix e = ix c + 1)
                         /\ (iz e = iz c \/ iz e = iz c + 1)
  | AxisZ => iz e = iz c /\ (ix e = ix c \/ ix e = ix c + 1)
                         /\ (iy e = iy c \/ iy e = iy c + 1)
  end.

(** The minimal corners of the four unit cells around the edge [e], in the
    slot order of [adjacentCellsForEdge]. *)
Definition edgeNeighbours (a : Axis) (e : ivec3) : list ivec3 :=
  match a with
  | AxisX => [ mk_ivec3 (ix e) (iy e - 1) (iz e - 1);
               mk_ivec3 (ix e) (iy e) (iz e - 1);
               mk_ivec3 (ix e) (iy e) (iz e);
               mk_ivec3 (ix e) (iy e - 1) (iz e) ]
  | AxisY => [ mk_ivec3 (ix e - 1) (iy e) (iz e - 1);
               mk_ivec3 (ix e - 1) (iy e) (iz e);
               mk_ivec3 (ix e) (iy e) (iz e);
               mk_ivec3 (ix e) (iy e) (iz e - 1) ]
  | AxisZ => [ mk_ivec3 (ix e - 1) (iy e - 1) (iz e);
               mk_ivec3 (ix e) (iy e - 1) (iz e);
               mk_ivec3 (ix e) (iy e) (iz e);
               mk_ivec3 (ix e - 1) (iy e) (iz e) ]
  end.

(** What a slot of [adjacentCellsForEdge] should hold for the cell [c]. *)
Definition neighbourIndex {D : DoubleOps} (kBadIndex : Z) (g : UniformGrid D)
    (c : ivec3) : Z :=
  if isCellInGrid g c then pointToIndex_v g c else kBadIndex.

(** The coordinates [lo, lo+1, ...] a loop of [n] iterations visits. *)
Fixpoint zrange (lo : Z) (n : nat) : list Z :=
  match n with
  | O => []
  | Datatypes.S n' => lo :: zrange (lo + 1) n'
  end.

(** The edge list [fill] builds for an axis. *)
Definition edgesOf {D : DoubleOps} (a : Axis) (g : UniformGrid D) : list (EdgeEntry D) :=
  match a with
  | AxisX => m_edgeX g
  | AxisY => m_edgeY g
  | AxisZ => m_edgeZ g
  end.

(** The number [fill] passes to [addEdge] for an axis. *)
Definition axisCode (a : Axis) : Z :=
  match a with AxisX => 0 | AxisY => 1 | AxisZ => 2 end.

(** The upper endpoint of the edge along [a] whose lower endpoint is [p]. *)
Definition upperEnd (a : Axis) (p : ivec3) : ivec3 :=
  match a with
  | AxisX => mk_ivec3 (ix p + 1) (iy p) (iz p)
  | AxisY => mk_ivec3 (ix p) (iy p + 1) (iz p)
  | AxisZ => mk_ivec3 (ix p) (iy p) (iz p + 1)
  end.

(** The lattice coordinates an edge entry is keyed by. *)
Definition edgeKey {D : DoubleOps} (e : EdgeEntry D) : ivec3 :=
  mk_ivec3 (e_x e) (e_y e) (e_z e).

(** The coordinate of a point along the axis [a]. *)
Definition vcoord {D : DoubleOps} (a : Axis) (p : dvec3 D) : D :=
  match a with
  | AxisX => vx p
  | AxisY => vy p
  | AxisZ => vz p
  end.

(** The point [fill] computes for the lower endpoint of the edge at [p],
    [localToGlobal (glm::dvec3 (x, y, z))] (lines 62, 88 and 112). *)
Definition edgeBase {D : DoubleOps}
    (localToGlobal : UniformGrid D -> dvec3 D -> dvec3 D)
    (g : UniformGrid D) (p : ivec3) : dvec3 D :=
  localToGlobal g (mk_dvec3 (d_of_int D (ix p)) (d_of_int D (iy p))
                            (d_of_int D (iz p))).

(** The two bounds [fill] gives the zero finder for the edge along [a] at
    [p]: the coordinate of the lower endpoint along the axis ([x0], [y0] or
    [z0] in the source), and that coordinate plus the grid step. *)
Definition lowerBound {D : DoubleOps}
    (localToGlobal : UniformGrid D -> dvec3 D -> dvec3 D)
    (a : Axis) (g : UniformGrid D) (p : ivec3) : D :=
  vcoord a (edgeBase localToGlobal g p).

Definition upperBound {D : DoubleOps}
    (localToGlobal : UniformGrid D -> dvec3 D -> dvec3 D)
    (a : Axis) (g : UniformGrid D) (p : ivec3) : D :=
  dadd (lowerBound localToGlobal a g p) (m_gridStep g).

(** The call of the zero finder that a scan makes for a crossing edge along
    [a] at [p] whose endpoint values are [v1] and [v2] (lines 65, 91 and
    115). *)
Definition finderCall {D : DoubleOps}
    (localToGlobal : UniformGrid D -> dvec3 D -> dvec3 D)
    (a : Axis) (g : UniformGrid D) (f : ScalarField D) (solver : ZeroFinder D)
    (p : ivec3) (v1 v2 : D) : D :=
  let q := edgeBase localToGlobal g p in
  match a with
  | AxisX => findAlongX solver (vx q) (vy q) (vz q)
               (dadd (vx q) (m_gridStep g)) v1 v2 f
  | AxisY => findAlongY solver (vx q) (vy q) (vz q)
               (dadd (vy q) (m_gridStep g)) v1 v2 f
  | AxisZ => findAlongZ solver (vx q) (vy q) (vz q)
               (dadd (vz q) (m_gridStep g)) v1 v2 f
  end.

(** The root [fill] obtains for the edge along [a] at [p]: that call, with
    the values sampled at the two endpoints. *)
Definition edgeRoot {D : DoubleOps}
    (localToGlobal : UniformGrid D -> dvec3 D -> dvec3 D)
    (a : Axis) (g : UniformGrid D) (f : ScalarField D) (solver : ZeroFinder D)
    (p : ivec3) : D :=
  let u := upperEnd a p in
  finderCall localToGlobal a g f solver p
    (sampleValue localToGlobal g f (ix p) (iy p) (iz p))
    (sampleValue localToGlobal g f (ix u) (iy u) (iz u)).

(** [r] is what the zero finder answers along axis [a] when the bounds it
    is given are [lo] and [hi], whatever the other arguments. *)
Definition finderAnswer {D : DoubleOps} (solver : ZeroFinder D) (a : Axis)
    (lo hi r : D) : Prop :=
  exists (c1 c2 v1 v2 : D) (f : ScalarField D),
    r = match a with
        | AxisX => findAlongX solver lo c1 c2 hi v1 v2 f
        | AxisY => findAlongY solver c1 lo c2 hi v1 v2 f
        | AxisZ => findAlongZ solver c1 c2 lo hi v1 v2 f
        end.

(** In exact arithmetic: [r] lies between the two bounds, ends included. *)
Definition betweenQ (lo hi r : Q) : Prop :=
  ((lo <= r)%Q /\ (r <= hi)%Q) \/ ((hi <= r)%Q /\ (r <= lo)%Q).

(** The contract of the zero finder: every answer lies between the two
    bounds of the call. *)
Definition finderBetween (solver : ZeroFinder QOps) : Prop :=
  forall a lo hi r, finderAnswer solver a lo hi r -> betweenQ lo hi r.

(** The same contract on the calls [fill] makes only: for every lattice
    edge whose endpoint values disagree under [value <= 0], the root lies
    between the two bounds of its call. *)
Definition rootsBetween
    (localToGlobal : UniformGrid QOps -> dvec3 QOps -> dvec3 QOps)
    (g : UniformGrid QOps) (f : ScalarField QOps) (solver : ZeroFinder QOps)
  : Prop :=
  forall (a : Axis) (p : ivec3),
    negatable_v p = true ->
    isEdgeInGrid a g p = true ->
    inside localToGlobal g f (ix p) (iy p) (iz p)
    <> inside localToGlobal g f (ix (upperEnd a p)) (iy (upperEnd a p))
         (iz (upperEnd a p)) ->
    betweenQ (lowerBound localToGlobal a g p) (upperBound localToGlobal a g p)
             (edgeRoot localToGlobal a g f solver p).

(* ================================================================== *)
(** ** A concrete grid, field and zero finder *)

(** Modelled from the spec: [localToGlobal] is declared in the class
    header; the grid has a world-space origin and a uniform step.  Only the
    concrete examples use this definition. *)
Definition localToGlobal_std {D : DoubleOps} (g : UniformGrid D) (p : dvec3 D)
  : dvec3 D :=
  mk_dvec3 (dadd (vx (m_globalPos g)) (dmul (vx p) (m_gridStep g)))
           (dadd (vy (m_globalPos g)) (dmul (vy p) (m_gridStep g)))
           (dadd (vz (m_globalPos g)) (dmul (vz p) (m_gridStep g))).

(** The grid of size 2 at the origin with step 1, as constructed. *)
Definition demoGrid (D : DoubleOps) : UniformGrid D :=
  mk_grid 2 1
          (mk_dvec3 (d_of_int D 0) (d_of_int D 0) (d_of_int D 0))
          (d_of_int D 1)
          (repeat Empty 27) [] [] [].

(** The half space [x >= 0] of stone: [f (p) = - p.x], whose zero set is
    the lattice plane [x = 0]. *)
Definition slabField (D : DoubleOps) : ScalarField D :=
  mk_field (fun p => dsub (d_of_int D 0) (vx p))
           (fun _ => mk_dvec3 (d_of_int D (-1)) (d_of_int D 0) (d_of_int D 0))
           (fun _ _ => Stone).

(** A zero finder that returns an endpoint whose value is exactly zero and
    the midpoint of the bounds otherwise. *)
Definition snap (lo hi v0 v1 : Q) : Q :=
  if Qeq_bool v1 0 then hi
  else if Qeq_bool v0 0 then lo
  else ((lo + hi) * (1 # 2))%Q.

Definition snapFinder : ZeroFinder QOps :=
  mk_finder (D := QOps)
            (fun x0 _ _ x1 v0 v1 _ => snap x0 x1 v0 v1)
            (fun _ y0 _ y1 v0 v1 _ => snap y0 y1 v0 v1)
            (fun _ _ z0 z1 v0 v1 _ => snap z0 z1 v0 v1).

(** The same finder on binary64. *)
Definition snapFinder64 : ZeroFinder F64Ops :=
  let snap64 (lo hi v0 v1 : float) : float :=
    if PrimFloat.eqb v1 PrimFloat.zero then hi
    else if PrimFloat.eqb v0 PrimFloat.zero then lo
    else PrimFloat.mul (PrimFloat.add lo hi) 0.5%float in
  mk_finder (D := F64Ops)
            (fun x0 _ _ x1 v0 v1 _ => snap64 x0 x1 v0 v1)
            (fun _ y0 _ y1 v0 v1 _ => snap64 y0 y1 v0 v1)
            (fun _ _ z0 z1 v0 v1 _ => snap64 z0 z1 v0 v1).

(** The grid of size 2 at [(0.3, 0, 0)] with step [0.1], on binary64. *)
Definition stepGrid64 : UniformGrid F64Ops :=
  mk_grid (D := F64Ops) 2 1
          (mk_dvec3 (D := F64Ops) (PrimFloat.div 3 10) PrimFloat.zero PrimFloat.zero)
          (PrimFloat.div 1 10)
          (repeat Empty 27) [] [] [].

(** A field that is [1] where [x < 0.35] and [0] elsewhere, on binary64. *)
Definition stepField64 : ScalarField F64Ops :=
  mk_field (D := F64Ops)
           (fun p => if PrimFloat.ltb (vx p) (PrimFloat.div 35 100)
                     then PrimFloat.one else PrimFloat.zero)
           (fun _ => mk_dvec3 (D := F64Ops) PrimFloat.one PrimFloat.zero PrimFloat.zero)
           (fun _ _ => Stone).

(** For an entry of the scan along X on that grid: the root lies between
    its two bounds, in the order of binary64, and the stored offset is
    above 1. *)
Definition offsetAboveOne64 (e : EdgeEntry F64Ops) : bool :=
  let p := edgeKey e in
  let lo := lowerBound localToGlobal_std AxisX stepGrid64 p in
  let hi := upperBound localToGlobal_std AxisX stepGrid64 p in
  let r := edgeRoot localToGlobal_std AxisX stepGrid64 stepField64 snapFinder64 p in
  PrimFloat.leb lo r && PrimFloat.leb r hi
  && PrimFloat.eqb (e_offset e) (PrimFloat.div (PrimFloat.sub r lo) (m_gridStep stepGrid64))
  && PrimFloat.ltb PrimFloat.one (e_offset e).

(* ================================================================== *)
(** ** The remaining topology queries of [grid.cpp] *)

Section GridQueries.

Context {D : DoubleOps}.

(** [UniformGrid::operator[] (v)]. *)
Definition at_v (g : UniformGrid D) (v : ivec3) : Outcome Material :=
  at_ g (ix v) (iy v) (iz v).

(** [UniformGrid::isEdgeOnBorder<0>], [<1>] and [<2>]. *)
Definition isEdgeOnBorder_0 (g : UniformGrid D) (edgePos : ivec3) : bool :=
  if glm_abs (iy edgePos) =? m_halfSize g then true
  else if glm_abs (iz edgePos) =? m_halfSize g then true
  else false.

Definition isEdgeOnBorder_1 (g : UniformGrid D) (edgePos : ivec3) : bool :=
  if glm_abs (ix edgePos) =? m_halfSize g then true
  else if glm_abs (iz edgePos) =? m_halfSize g then true
  else false.

Definition isEdgeOnBorder_2 (g : UniformGrid D) (edgePos : ivec3) : bool :=
  if glm_abs (ix edgePos) =? m_halfSize g then true
  else if glm_abs (iy edgePos) =? m_halfSize g then true
  else false.

Definition isEdgeOnBorder (a : Axis) : UniformGrid D -> ivec3 -> bool :=
  match a with
  | AxisX => isEdgeOnBorder_0
  | AxisY => isEdgeOnBorder_1
  | AxisZ => isEdgeOnBorder_2
  end.

(** [UniformGrid::isFaceInGrid<0>], [<1>] and [<2>]. *)
Definition isFaceInGrid_0 (g : UniformGrid D) (facePos : ivec3) : bool :=
  if glm_abs (ix facePos) >? m_halfSize g then false
  else if (iy facePos <? - m_halfSize g) || (iy facePos >=? m_halfSize g) then false
  else if (iz facePos <? - m_halfSize g) || (iz facePos >=? m_halfSize g) then false
  else true.

Definition isFaceInGrid_1 (g : UniformGrid D) (facePos : ivec3) : bool :=
  if glm_abs (iy facePos) >? m_halfSize g then false
  else if (ix facePos <? - m_halfSize g) || (ix facePos >=? m_halfSize g) then false
  else if (iz facePos <? - m_halfSize g) || (iz facePos >=? m_halfSize g) then false
  else true.

Definition isFaceInGrid_2 (g : UniformGrid D) (facePos : ivec3) : bool :=
  if glm_abs (iz facePos) >? m_halfSize g then false
  else if (ix facePos <? - m_halfSize g) || (ix facePos >=? m_halfSize g) then false
  else if (iy facePos <? - m_halfSize g) || (iy facePos >=? m_halfSize g) then false
  else true.

Definition isFaceInGrid (a : Axis) : UniformGrid D -> ivec3 -> bool :=
  match a with
  | AxisX => isFaceInGrid_0
  | AxisY => isFaceInGrid_1
  | AxisZ => isFaceInGrid_2
  end.

(** [UniformGrid::isFaceOnBorder<0>], [<1>] and [<2>]. *)
Definition isFaceOnBorder_0 (g : UniformGrid D) (facePos : ivec3) : bool :=
  if glm_abs (ix facePos) =? m_halfSize g then true else false.

Definition isFaceOnBorder_1 (g : UniformGrid D) (facePos : ivec3) : bool :=
  if glm_abs (iy facePos) =? m_halfSize g then true else false.

Definition isFaceOnBorder_2 (g : UniformGrid D) (facePos : ivec3) : bool :=
  if glm_abs (iz facePos) =? m_halfSize g then true else false.

Definition isFaceOnBorder (a : Axis) : UniformGrid D -> ivec3 -> bool :=
  match a with
  | AxisX => isFaceOnBorder_0
  | AxisY => isFaceOnBorder_1
  | AxisZ => isFaceOnBorder_2
  end.

End GridQueries.

(** The coordinate of [p] along the axis [a]. *)
Definition coordOf (a : Axis) (p : ivec3) : Z :=
  match a with
  | AxisX => ix p
  | AxisY => iy p
  | AxisZ => iz p
  end.

(** [p] moved by [k] lattice steps along the axis [a]. *)
Definition shiftAxis (a : Axis) (k : Z) (p : ivec3) : ivec3 :=
  match a with
  | AxisX => mk_ivec3 (ix p + k) (iy p) (iz p)
  | AxisY => mk_ivec3 (ix p) (iy p + k) (iz p)
  | AxisZ => mk_ivec3 (ix p) (iy p) (iz p + k)
  end.

(** The six lattice positions one step away from [p] along an axis: the
    neighbours of a vertex, or the cells that share a face with a cell. *)
Definition axisNeighbours (p : ivec3) : list ivec3 :=
  [ shiftAxis AxisX (-1) p; shiftAxis AxisX 1 p;
    shiftAxis AxisY (-1) p; shiftAxis AxisY 1 p;
    shiftAxis AxisZ (-1) p; shiftAxis AxisZ 1 p ].

(** The twelve edges of the unit cell with minimal corner [c], each as its
    axis and lower endpoint. *)
Definition cellEdges (c : ivec3) : list (Axis * ivec3) :=
  [ (AxisX, c); (AxisX, shiftAxis AxisY 1 c);
    (AxisX, shiftAxis AxisZ 1 c); (AxisX, shiftAxis AxisY 1 (shiftAxis AxisZ 1 c));
    (AxisY, c); (AxisY, shiftAxis AxisX 1 c);
    (AxisY, shiftAxis AxisZ 1 c); (AxisY, shiftAxis AxisX 1 (shiftAxis AxisZ 1 c));
    (AxisZ, c); (AxisZ, shiftAxis AxisX 1 c);
    (AxisZ, shiftAxis AxisY 1 c); (AxisZ, shiftAxis AxisX 1 (shiftAxis AxisY 1 c)) ].

(** The six faces of the unit cell with minimal corner [c], each as the
    axis of its normal and its minimal corner. *)
Definition cellFaces (c : ivec3) : list (Axis * ivec3) :=
  [ (AxisX, c); (AxisX, shiftAxis AxisX 1 c);
    (AxisY, c); (AxisY, shiftAxis AxisY 1 c);
    (AxisZ, c); (AxisZ, shiftAxis AxisZ 1 c) ].

(** The four edges around the face with normal [a] and minimal corner
    [p]. *)
Definition faceEdges (a : Axis) (p : ivec3) : list (Axis * ivec3) :=
  match a with
  | AxisX => [ (AxisY, p); (AxisY, shiftAxis AxisZ 1 p);
               (AxisZ, p); (AxisZ, shiftAxis AxisY 1 p) ]
  | AxisY => [ (AxisX, p); (AxisX, shiftAxis AxisZ 1 p);
               (AxisZ, p); (AxisZ, shiftAxis AxisX 1 p) ]
  | AxisZ => [ (AxisX, p); (AxisX, shiftAxis AxisY 1 p);
               (AxisY, p); (AxisY, shiftAxis AxisX 1 p) ]
  end.

(* ================================================================== *)
(** ** What [fill] computes, vertex by vertex *)

(** The lattice vertices in the order of the material array. *)
Definition gridVertices {D : DoubleOps} (g : UniformGrid D) : list ivec3 :=
  map (indexToPoint g) (zrange 0 (Z.to_nat (dataSize g))).

(** The material [fill] stores for the vertex [p]. *)
Definition materialAt {D : DoubleOps}
    (localToGlobal : UniformGrid D -> dvec3 D -> dvec3 D)
    (g : UniformGrid D) (f : ScalarField D) (p : ivec3) : Material :=
  let v := sampleValue localToGlobal g f (ix p) (iy p) (iz p) in
  if d_gt0 v then Empty
  else sf_material f (samplePos localToGlobal g (ix p) (iy p) (iz p)) v.

(** The calls of [f.material] that [fill] makes for the vertex [p]. *)
Definition materialCalls {D : DoubleOps}
    (localToGlobal : UniformGrid D -> dvec3 D -> dvec3 D)
    (g : UniformGrid D) (f : ScalarField D) (p : ivec3) : list (dvec3 D * D) :=
  let v := sampleValue localToGlobal g f (ix p) (iy p) (iz p) in
  if d_gt0 v then []
  else [(samplePos localToGlobal g (ix p) (iy p) (iz p), v)].

(* ================================================================== *)
(** ** mesh_field.cpp *)

(** [MeshField::grad (x, y, z)].  [value] is [MeshField::value] and [h] is
    [m_root->halfSize () / 500]; both depend on the octree, which is
    defined outside this file. *)
Definition meshGrad {D : DoubleOps} (value : D -> D -> D -> D) (h : D)
    (x y z : D) : dvec3 D :=
  let x1 := value (dsub x h) y z in
  let x2 := value (dadd x h) y z in
  let y1 := value x (dsub y h) z in
  let y2 := value x (dadd y h) z in
  let z1 := value x y (dsub z h) in
  let z2 := value x y (dadd z h) in
  mk_dvec3 (ddiv (ddiv (dsub x1 x2) (d_of_int D 2)) h)
           (ddiv (ddiv (dsub y1 y2) (d_of_int D 2)) h)
           (ddiv (ddiv (dsub z1 z2) (d_of_int D 2)) h).

(** [std::numeric_limits<float>::max ()] and [::min ()]: the largest finite
    binary32 value and the smallest positive normal one. *)
Definition FLT_MAX : Q := inject_Z ((2 ^ 24 - 1) * 2 ^ 104).
Definition FLT_MIN : Q := 1 / inject_Z (2 ^ 126).

(** [a < b] on finite [float] values.  A finite binary32 value is a
    rational and the bounding-box loop only compares, so [Q] is exact for
    every mesh without NaN and infinities. *)
Definition Qltb (a b : Q) : bool := negb (Qle_bool b a).

(** The six locals of the bounding-box loop of [MeshField::fillOctree]. *)
Record Bounds : Type := mk_bounds {
  b_minX : Q; b_maxX : Q;
  b_minY : Q; b_maxY : Q;
  b_minZ : Q; b_maxZ : Q
}.

(** One iteration of the loop (lines 62 to 77), for the vertex [p]. *)
Definition bounds_step (b : Bounds) (p : dvec3 QOps) : Bounds :=
  let minX := if Qltb (vx p) (b_minX b) then vx p else b_minX b in
  let maxX := if Qltb (b_maxX b) (vx p) then vx p else b_maxX b in
  let minY := if Qltb (vy p) (b_minY b) then vy p else b_minY b in
  let maxY := if Qltb (b_maxY b) (vy p) then vy p else b_maxY b in
  let minZ := if Qltb (vz p) (b_minZ b) then vz p else b_minZ b in
  let maxZ := if Qltb (b_maxZ b) (vz p) then vz p else b_maxZ b in
  mk_bounds minX maxX minY maxY minZ maxZ.

(** The loop over [m_data.vertex (0)], ..., [m_data.vertex (vcount - 1)]
    (lines 55 to 78), with the vertices of the mesh as a list. *)
Definition meshBounds (vertices : list (dvec3 QOps)) : Bounds :=
  fold_left bounds_step vertices
            (mk_bounds FLT_MAX FLT_MIN FLT_MAX FLT_MIN FLT_MAX FLT_MIN).

(** A running minimum and a running maximum, as one coordinate of the loop
    keeps them. *)
Definition runMin (m0 : Q) (xs : list Q) : Q :=
  fold_left (fun m x => if Qltb x m then x else m) xs m0.

Definition runMax (m0 : Q) (xs : list Q) : Q :=
  fold_left (fun m x => if Qltb m x then x else m) xs m0.

(** A field whose value is NaN everywhere, on binary64. *)
Definition nanField : ScalarField F64Ops :=
  mk_field (D := F64Ops)
           (fun _ => PrimFloat.div PrimFloat.zero PrimFloat.zero)
           (fun _ => mk_dvec3 (D := F64Ops) PrimFloat.zero PrimFloat.zero PrimFloat.zero)
           (fun _ _ => Stone).

(** A mesh of two vertices in the half space [x <= 0]. *)
Definition demoMesh : list (dvec3 QOps) :=
  [ mk_dvec3 (D := QOps) (inject_Z (-2)) (inject_Z 1) (inject_Z 0);
    mk_dvec3 (D := QOps) (inject_Z (-1)) (inject_Z 3) (inject_Z 5) ].

(* ================================================================== *)
(** ** Construction *)

Lemma u32_small (x : Z) : 0 <= x < U32_MOD -> u32 x = x.
Proof. intros H. unfold u32. now apply Z.mod_small. Qed.

Lemma u32_add_mod (a b : Z) :
  u32_add (a mod U32_MOD) (b mod U32_MOD) = (a + b) mod U32_MOD.
Proof.
  unfold u32_add, u32. symmetry. apply Z.add_mod. unfold U32_MOD. lia.
Qed.

Lemma u32_mul_mod_l (a n : Z) :
  u32_mul (a mod U32_MOD) n = (a * n) mod U32_MOD.
Proof.
  unfold u32_mul, u32. apply Z.mul_mod_idemp_l. unfold U32_MOD. lia.
Qed.

Lemma pow2_land_zero (k : Z) : 0 <= k -> Z.land (2 ^ k) (2 ^ k - 1) = 0.
Proof.
  intros Hk. apply Z.bits_inj'. intros i Hi.
  rewrite Z.land_spec, Z.bits_0, Z.pow2_bits_eqb by lia.
  destruct (Z.eqb_spec k i) as [->|Hne]; [|reflexivity].
  replace (2 ^ i - 1) with (Z.ones i) by (rewrite Z.ones_equiv; lia).
  rewrite Z.ones_spec_high by lia. reflexivity.
Qed.

Lemma land_pred_zero_pow2 (n : Z) :
  0 < n -> Z.land n (n - 1) = 0 -> is_pow2 n.
Proof.
  intros Hn Hland.
  pose proof (Z.log2_spec n Hn) as [Hlo Hhi].
  pose proof (Z.log2_nonneg n) as Hk.
  exists (Z.log2 n). split; [exact Hk|].
  destruct (Z.eq_dec n (2 ^ Z.log2 n)) as [E|NE]; [exact E|exfalso].
  assert (Hlog : Z.log2 (n - 1) = Z.log2 n).
  { apply Z.log2_unique; [exact Hk|].
    rewrite <- Z.add_1_r in Hhi |- *. lia. }
  assert (Hb1 : Z.testbit n (Z.log2 n) = true) by (apply Z.bit_log2; lia).
  assert (Hb2 : Z.testbit (n - 1) (Z.log2 n) = true).
  { rewrite <- Hlog. apply Z.bit_log2. lia. }
  assert (Hb : Z.testbit (Z.land n (n - 1)) (Z.log2 n) = true)
    by (rewrite Z.land_spec, Hb1, Hb2; reflexivity).
  rewrite Hland, Z.bits_0 in Hb. discriminate.
Qed.

Lemma pow2_test_iff (n : Z) :
  2 <= n < U32_MOD -> (Z.land n (u32_sub n 1) =? 0) = true <-> is_pow2 n.
Proof.
  intros Hn. unfold u32_sub. rewrite u32_small by (unfold U32_MOD in *; lia).
  rewrite Z.eqb_eq. split.
  - apply land_pred_zero_pow2. lia.
  - intros [k [Hk ->]]. now apply pow2_land_zero.
Qed.

Lemma pow2_even (n : Z) : is_pow2 n -> 2 <= n -> n = 2 * (n / 2).
Proof.
  intros [k [Hk ->]] H2.
  assert (k <> 0) by (intros ->; simpl in H2; lia).
  replace k with (Z.succ (k - 1)) by lia.
  rewrite Z.pow_succ_r by lia.
  rewrite (Z.mul_comm 2 (2 ^ (k - 1))), Z.div_mul by lia. lia.
Qed.

Lemma cube_u32 (size : Z) :
  0 <= size <= 1024 ->
  u32_mul (u32_mul (u32_add size 1) (u32_add size 1)) (u32_add size 1)
  = (size + 1) ^ 3.
Proof.
  intros H. unfold u32_mul, u32_add.
  assert (HM : U32_MOD = 4294967296) by reflexivity.
  rewrite (u32_small (size + 1)) by lia.
  assert (0 <= (size + 1) * (size + 1) <= 1025 * 1025) by nia.
  rewrite (u32_small ((size + 1) * (size + 1))) by lia.
  assert (0 <= (size + 1) * (size + 1) * (size + 1) <= 1025 * 1025 * 1025) by nia.
  rewrite u32_small by lia. ring.
Qed.

Section GridFacts.

Context {D : DoubleOps}.

(** A successful construction establishes the class invariant. *)
Lemma UniformGrid_new_valid (size : Z) (pos : dvec3 D) (step : D) (g : UniformGrid D) :
  0 <= size < U32_MOD ->
  UniformGrid_new size pos step = inr g -> valid_grid g.
Proof.
  intros Hs. unfold UniformGrid_new.
  destruct (size <? 2) eqn:E1; [discriminate|].
  destruct (Z.land size (u32_sub size 1) =? 0) eqn:E2; simpl; [|discriminate].
  destruct (size >? 1024) eqn:E3; [discriminate|].
  intros [= <-]. apply Z.ltb_ge in E1. rewrite Z.gtb_ltb in E3. apply Z.ltb_ge in E3.
  apply pow2_test_iff in E2; [|lia].
  constructor; simpl; try assumption.
  - unfold i32_of_u32. replace (size <? 2 ^ 31) with true
      by (symmetry; apply Z.ltb_lt; lia).
    apply Z.quot_div_nonneg; lia.
  - rewrite repeat_length, cube_u32 by lia.
    rewrite Z2Nat.id; [reflexivity|]. apply Z.pow_nonneg. lia.
Qed.

(** C7.  The constructor throws for a size below 2, for a size that is not
    a power of two and for a size above 1024, with three different
    exceptions, and then no grid exists; for every power of two between 2
    and 1024 it yields a grid with [halfSize = size / 2] and a material
    array of [(size+1)^3] entries. *)
Theorem UniformGrid_new_spec (size : Z) (pos : dvec3 D) (step : D) :
  0 <= size < U32_MOD ->
  let e_min := invalid_argument "Grid size should be at least two" in
  let e_pow := invalid_argument "Grid size is not a power of two" in
  let e_max := length_error "Too large grid size (> 1024)" in
  (e_min <> e_pow /\ e_min <> e_max /\ e_pow <> e_max) /\
  (size < 2 -> UniformGrid_new size pos step = inl e_min) /\
  (2 <= size -> ~ is_pow2 size -> UniformGrid_new size pos step = inl e_pow) /\
  (is_pow2 size -> 1024 < size -> UniformGrid_new size pos step = inl e_max) /\
  (size < 2 \/ ~ is_pow2 size \/ 1024 < size ->
   exists e, UniformGrid_new size pos step = inl e) /\
  (is_pow2 size -> 2 <= size <= 1024 ->
   exists g, UniformGrid_new size pos step = inr g /\
             m_size g = size /\
             m_halfSize g = size / 2 /\
             Z.of_nat (List.length (m_mat g)) = (size + 1) ^ 3).
Proof.
  intros Hs e_min e_pow e_max.
  assert (Hmin : size < 2 -> UniformGrid_new size pos step = inl e_min).
  { intros H. unfold UniformGrid_new.
    replace (size <? 2) with true by (symmetry; apply Z.ltb_lt; lia). reflexivity. }
  assert (Hpow : 2 <= size -> ~ is_pow2 size ->
                 UniformGrid_new size pos step = inl e_pow).
  { intros H Hn. unfold UniformGrid_new.
    replace (size <? 2) with false by (symmetry; apply Z.ltb_ge; lia).
    destruct (Z.land size (u32_sub size 1) =? 0) eqn:E; [|reflexivity].
    exfalso. apply Hn. apply pow2_test_iff; [lia|exact E]. }
  assert (Hmax : is_pow2 size -> 1024 < size ->
                 UniformGrid_new size pos step = inl e_max).
  { intros Hp H. unfold UniformGrid_new.
    replace (size <? 2) with false by (symmetry; apply Z.ltb_ge; lia).
    replace (Z.land size (u32_sub size 1) =? 0) with true
      by (symmetry; apply pow2_test_iff; [lia|exact Hp]).
    simpl. replace (size >? 1024) with true
      by (symmetry; rewrite Z.gtb_ltb; apply Z.ltb_lt; lia).
    reflexivity. }
  split; [repeat split; discriminate|].
  split; [exact Hmin|]. split; [exact Hpow|]. split; [exact Hmax|]. split.
  - intros H.
    destruct (Z_lt_dec size 2) as [L|L]; [eexists; apply Hmin; exact L|].
    destruct (Z.land size (u32_sub size 1) =? 0) eqn:E.
    + apply pow2_test_iff in E; [|lia].
      eexists. apply Hmax; [exact E|]. destruct H as [H|[H|H]]; [lia|tauto|exact H].
    + eexists. apply Hpow; [lia|]. intros Hp.
      apply pow2_test_iff in Hp; [|lia]. congruence.
  - intros Hp Hr.
    destruct (UniformGrid_new size pos step) as [e|g] eqn:E.
    + exfalso. revert E. unfold UniformGrid_new.
      replace (size <? 2) with false by (symmetry; apply Z.ltb_ge; lia).
      replace (Z.land size (u32_sub size 1) =? 0) with true
        by (symmetry; apply pow2_test_iff; [lia|exact Hp]).
      simpl. replace (size >? 1024) with false
        by (symmetry; rewrite Z.gtb_ltb; apply Z.ltb_ge; lia).
      discriminate.
    + exists g. split; [reflexivity|].
      pose proof (UniformGrid_new_valid _ _ _ _ Hs E) as V.
      assert (Hsz : m_size g = size).
      { revert E. unfold UniformGrid_new.
        repeat match goal with |- context [if ?c then _ else _] => destruct c end;
          try discriminate. now intros [= <-]. }
      destruct V as [_ _ _ Vh Vm]. rewrite Hsz in *. auto.
Qed.

End GridFacts.

(* ================================================================== *)
(** ** Lattice addressing *)

Lemma index_bound (N a b c : Z) :
  0 <= a < N -> 0 <= b < N -> 0 <= c < N ->
  0 <= (a * N + b) * N + c < N * N * N.
Proof.
  intros Ha Hb Hc.
  assert (0 <= a * N <= (N - 1) * N) by nia.
  assert (0 <= (a * N + b) * N <= (N * N - 1) * N) by nia.
  nia.
Qed.

Lemma div_mod_digit (N q c : Z) :
  0 <= c < N -> (q * N + c) / N = q /\ (q * N + c) mod N = c.
Proof.
  intros Hc. split.
  - symmetry. apply Z.div_unique with (r := c); [left; exact Hc|ring].
  - symmetry. apply Z.mod_unique with (q := q); [left; exact Hc|ring].
Qed.

Lemma cube_le (N : Z) : 0 <= N <= 1025 -> N * N * N <= 1025 * 1025 * 1025.
Proof.
  intros H. assert (0 <= N * N <= 1025 * 1025) by nia. nia.
Qed.

Lemma i32_of_u32_small (u : Z) : 0 <= u < 2 ^ 31 -> i32_of_u32 u = u.
Proof.
  intros H. unfold i32_of_u32.
  destruct (Z.ltb_spec u (2 ^ 31)); [reflexivity|lia].
Qed.

(* ================================================================== *)
(** ** [glm::abs] on an [int32_t] *)

(** On [int32_t] values [i32_neg] is negation modulo [2^32]. *)
Lemma i32_neg_wraps (x : Z) :
  INT32_MIN <= x < 2 ^ 31 -> i32_neg x = i32_of_u32 (u32 (- x)).
Proof.
  intros Hx. unfold i32_neg, i32_of_u32, u32, U32_MOD, INT32_MIN in *.
  destruct (Z.eqb_spec x (- 2 ^ 31)) as [->|Hne]; [reflexivity|].
  destruct (Z_le_gt_dec x 0) as [Hn|Hp].
  - rewrite Z.mod_small by lia.
    destruct (Z.ltb_spec (- x) (2 ^ 31)); lia.
  - replace (- x) with (2 ^ 32 - x + (-1) * 2 ^ 32) by ring.
    rewrite Z_mod_plus_full, Z.mod_small by lia.
    destruct (Z.ltb_spec (2 ^ 32 - x) (2 ^ 31)); lia.
Qed.

Lemma negatable_iff (x : Z) : negatable x = true <-> x <> INT32_MIN.
Proof.
  unfold negatable. destruct (Z.eqb_spec x INT32_MIN); simpl; split;
    congruence.
Qed.

Lemma negatable3_iff (x y z : Z) :
  negatable3 x y z = true <->
  x <> INT32_MIN /\ y <> INT32_MIN /\ z <> INT32_MIN.
Proof.
  unfold negatable3. rewrite !andb_true_iff, !negatable_iff. tauto.
Qed.

Lemma glm_abs_exact (x : Z) : negatable x = true -> glm_abs x = Z.abs x.
Proof.
  intros Hx. apply negatable_iff in Hx. unfold glm_abs, i32_neg.
  destruct (Z.ltb_spec x 0); [|lia].
  destruct (Z.eqb_spec x INT32_MIN); [contradiction|lia].
Qed.

Lemma glm_abs_min : glm_abs INT32_MIN = INT32_MIN.
Proof. reflexivity. Qed.

(** A coordinate within [-h, h] passes the test [glm::abs (x) > h]. *)
Lemma glm_abs_le_range (h x : Z) : - h <= x <= h -> glm_abs x <= h.
Proof.
  intros Hx. unfold glm_abs, i32_neg.
  destruct (Z.ltb_spec x 0); [|lia].
  destruct (Z.eqb_spec x INT32_MIN); lia.
Qed.

(** Away from [INT32_MIN] the test is the range check it stands for. *)
Lemma glm_abs_le_exact (h x : Z) :
  negatable x = true -> glm_abs x <= h -> - h <= x <= h.
Proof. intros Hx. rewrite (glm_abs_exact x Hx). lia. Qed.

Lemma range_negatable (h x : Z) : h < 2 ^ 31 -> - h <= x -> negatable x = true.
Proof. intros Hh Hx. apply negatable_iff. unfold INT32_MIN. lia. Qed.

Section Addressing.

Context {D : DoubleOps}.
Variable g : UniformGrid D.
Hypothesis Hvalid : valid_grid g.

Let h := m_halfSize g.
Let N := m_size g + 1.

Lemma valid_dims : m_size g = 2 * h /\ 1 <= h <= 512 /\ N = 2 * h + 1.
Proof.
  destruct Hvalid as [Hlo Hhi Hp Hh _]. subst h N.
  pose proof (pow2_even _ Hp Hlo) as E. rewrite <- Hh in E. lia.
Qed.

Lemma u32_N : u32_add (m_size g) 1 = N.
Proof.
  destruct valid_dims as (E & Hh & _). unfold u32_add. subst N.
  apply u32_small. unfold U32_MOD. lia.
Qed.

Lemma u32_NN : u32_mul (u32_add (m_size g) 1) (u32_add (m_size g) 1) = N * N.
Proof.
  rewrite u32_N. destruct valid_dims as (_ & Hh & HN). unfold u32_mul.
  apply u32_small. unfold U32_MOD. nia.
Qed.

Lemma dataSize_eq : dataSize g = N * N * N.
Proof.
  unfold dataSize. destruct Hvalid as [Hlo Hhi _ _ _].
  rewrite cube_u32 by lia. subst N. ring.
Qed.

Lemma N_cube_u32 : N * N * N + N * N + N + 1 < U32_MOD.
Proof.
  destruct valid_dims as (_ & Hh & HN).
  assert (N * N * N <= 1025 * 1025 * 1025) by (apply cube_le; lia).
  assert (N * N <= 1025 * 1025) by nia.
  unfold U32_MOD. lia.
Qed.

(** [isVertexInGrid] is the three [glm::abs] tests. *)
Lemma isVertexInGrid_abs (x y z : Z) :
  isVertexInGrid g x y z = true <->
  glm_abs x <= h /\ glm_abs y <= h /\ glm_abs z <= h.
Proof.
  unfold isVertexInGrid. fold h.
  destruct (Z.gtb_spec (glm_abs x) h); [split; [discriminate|lia]|].
  destruct (Z.gtb_spec (glm_abs y) h); [split; [discriminate|lia]|].
  destruct (Z.gtb_spec (glm_abs z) h); [split; [discriminate|lia]|].
  split; [lia|reflexivity].
Qed.

Lemma isVertexInGrid_of_range (x y z : Z) :
  - h <= x <= h /\ - h <= y <= h /\ - h <= z <= h ->
  isVertexInGrid g x y z = true.
Proof.
  intros (Hx & Hy & Hz). apply isVertexInGrid_abs.
  split; [|split]; now apply glm_abs_le_range.
Qed.

(** Away from [INT32_MIN], [isVertexInGrid] is membership in the lattice. *)
Lemma isVertexInGrid_iff (x y z : Z) :
  negatable3 x y z = true ->
  (isVertexInGrid g x y z = true <->
   - h <= x <= h /\ - h <= y <= h /\ - h <= z <= h).
Proof.
  intros Hn. unfold negatable3 in Hn. rewrite !andb_true_iff in Hn.
  destruct Hn as ((Hx & Hy) & Hz). split; [|apply isVertexInGrid_of_range].
  intros Hin. apply isVertexInGrid_abs in Hin. destruct Hin as (Ax & Ay & Az).
  split; [|split]; now apply glm_abs_le_exact.
Qed.

(** Lattice coordinates are far from [INT32_MIN]. *)
Lemma lattice_negatable (x y z : Z) :
  - h - 1 <= x -> - h - 1 <= y -> - h - 1 <= z -> negatable3 x y z = true.
Proof.
  intros Hx Hy Hz. destruct valid_dims as (_ & Hh & _).
  unfold negatable3.
  rewrite (range_negatable (h + 1) x), (range_negatable (h + 1) y),
    (range_negatable (h + 1) z) by lia.
  reflexivity.
Qed.

Lemma isCellInGrid_iff (c : ivec3) :
  isCellInGrid g c = true <->
  - h <= ix c < h /\ - h <= iy c < h /\ - h <= iz c < h.
Proof.
  unfold isCellInGrid. fold h.
  destruct (Z.ltb_spec (ix c) (- h)), (Z.ltb_spec (iy c) (- h)),
    (Z.ltb_spec (iz c) (- h)); simpl; try (split; [discriminate|lia]).
  destruct (Z.geb_spec (ix c) h), (Z.geb_spec (iy c) h),
    (Z.geb_spec (iz c) h); simpl; try (split; [discriminate|lia]).
  split; [lia|reflexivity].
Qed.

(** Whatever the coordinates, the index is the closed formula reduced
    modulo [2^32]. *)
Lemma pointToIndex_mod (x y z : Z) :
  pointToIndex g x y z = (((y + h) * N + (x + h)) * N + (z + h)) mod U32_MOD.
Proof.
  unfold pointToIndex. rewrite u32_N. fold h. unfold u32.
  now rewrite u32_mul_mod_l, u32_add_mod, u32_mul_mod_l, u32_add_mod.
Qed.

(** The index of an in-range vertex, with no reduction left. *)
Lemma pointToIndex_closed (x y z : Z) :
  - h <= x <= h -> - h <= y <= h -> - h <= z <= h ->
  pointToIndex g x y z = ((y + h) * N + (x + h)) * N + (z + h).
Proof.
  intros Hx Hy Hz. unfold pointToIndex. fold h. rewrite u32_N.
  destruct valid_dims as (_ & Hh & HN).
  pose proof N_cube_u32 as HU.
  pose proof (index_bound N (y + h) (x + h) (z + h)) as HB.
  assert (0 <= (y + h) * N <= (N - 1) * N) by nia.
  assert (0 <= ((y + h) * N + (x + h)) * N <= (N * N - 1) * N) by nia.
  assert (N * N * 1 <= N * N * N)
    by (apply Z.mul_le_mono_nonneg_l; [apply Z.square_nonneg|lia]).
  unfold u32_mul, u32_add.
  rewrite (u32_small (y + h)), (u32_small (x + h)), (u32_small (z + h))
    by (unfold U32_MOD in *; lia).
  rewrite (u32_small ((y + h) * N)) by nia.
  rewrite (u32_small ((y + h) * N + (x + h))) by nia.
  rewrite (u32_small (((y + h) * N + (x + h)) * N)) by nia.
  apply u32_small. nia.
Qed.

Lemma pointToIndex_range (x y z : Z) :
  - h <= x <= h -> - h <= y <= h -> - h <= z <= h ->
  0 <= pointToIndex g x y z < N * N * N.
Proof.
  intros Hx Hy Hz. rewrite pointToIndex_closed by assumption.
  destruct valid_dims as (_ & Hh & HN). apply index_bound; lia.
Qed.

Lemma indexToPoint_closed (a b c : Z) :
  0 <= a < N -> 0 <= b < N -> 0 <= c < N ->
  indexToPoint g ((a * N + b) * N + c) = mk_ivec3 (b - h) (a - h) (c - h).
Proof.
  intros Ha Hb Hc. unfold indexToPoint. fold h. rewrite u32_N.
  destruct valid_dims as (_ & Hh & HN).
  destruct (div_mod_digit N (a * N + b) c Hc) as [Ed Em].
  destruct (div_mod_digit N a b Hb) as [Ed' Em'].
  rewrite Ed, Em, Ed', Em'.
  rewrite !i32_of_u32_small by lia. reflexivity.
Qed.

Lemma indexToPoint_pointToIndex (x y z : Z) :
  - h <= x <= h -> - h <= y <= h -> - h <= z <= h ->
  indexToPoint g (pointToIndex g x y z) = mk_ivec3 x y z.
Proof.
  intros Hx Hy Hz. rewrite pointToIndex_closed by assumption.
  destruct valid_dims as (_ & Hh & HN).
  rewrite indexToPoint_closed by lia. f_equal; lia.
Qed.

Lemma pointToIndex_inj (x y z x' y' z' : Z) :
  - h <= x <= h -> - h <= y <= h -> - h <= z <= h ->
  - h <= x' <= h -> - h <= y' <= h -> - h <= z' <= h ->
  pointToIndex g x y z = pointToIndex g x' y' z' ->
  (x, y, z) = (x', y', z').
Proof.
  intros Hx Hy Hz Hx' Hy' Hz' E.
  pose proof (indexToPoint_pointToIndex x y z Hx Hy Hz) as R.
  rewrite E, indexToPoint_pointToIndex in R by assumption.
  now injection R as -> -> ->.
Qed.

Lemma pointToIndex_indexToPoint (idx : Z) :
  0 <= idx < N * N * N ->
  let p := indexToPoint g idx in
  (- h <= ix p <= h /\ - h <= iy p <= h /\ - h <= iz p <= h) /\
  pointToIndex g (ix p) (iy p) (iz p) = idx.
Proof.
  intros Hidx. destruct valid_dims as (_ & Hh & HN).
  assert (HNpos : 0 < N) by lia.
  pose proof (Z.div_mod idx N ltac:(lia)) as E1.
  pose proof (Z.mod_pos_bound idx N HNpos) as B1.
  pose proof (Z.div_mod (idx / N) N ltac:(lia)) as E2.
  pose proof (Z.mod_pos_bound (idx / N) N HNpos) as B2.
  set (c := idx mod N) in *. set (q := idx / N) in *.
  set (b := q mod N) in *. set (a := q / N) in *.
  assert (Ha : 0 <= a < N).
  { assert (0 <= q < N * N) by nia. nia. }
  assert (Eidx : idx = (a * N + b) * N + c) by lia.
  rewrite Eidx, indexToPoint_closed by assumption. simpl.
  split; [lia|].
  rewrite pointToIndex_closed by lia. ring.
Qed.

End Addressing.

(** C2.  On the lattice coordinates whose components all lie in
    [-halfSize, halfSize], [pointToIndex] is the closed formula, it is a
    bijection onto the indices below [(size+1)^3], and [indexToPoint] is
    its inverse. *)
Theorem pointToIndex_bijection {D : DoubleOps} (g : UniformGrid D) :
  valid_grid g ->
  let h := m_halfSize g in
  let valid_coord x y z :=
    - h <= x <= h /\ - h <= y <= h /\ - h <= z <= h in
  (forall x y z, valid_coord x y z ->
     pointToIndex g x y z
       = ((y + h) * (m_size g + 1) + (x + h)) * (m_size g + 1) + (z + h) /\
     0 <= pointToIndex g x y z < (m_size g + 1) ^ 3 /\
     indexToPoint g (pointToIndex g x y z) = mk_ivec3 x y z) /\
  (forall x y z x' y' z', valid_coord x y z -> valid_coord x' y' z' ->
     pointToIndex g x y z = pointToIndex g x' y' z' ->
     (x, y, z) = (x', y', z')) /\
  (forall idx, 0 <= idx < (m_size g + 1) ^ 3 ->
     let p := indexToPoint g idx in
     valid_coord (ix p) (iy p) (iz p) /\
     pointToIndex g (ix p) (iy p) (iz p) = idx).
Proof.
  intros V h valid_coord.
  assert (EC : (m_size g + 1) ^ 3 = (m_size g + 1) * (m_size g + 1) * (m_size g + 1))
    by ring.
  rewrite EC. subst valid_coord h. cbv beta. split; [|split].
  - intros x y z (Hx & Hy & Hz). split; [|split].
    + now apply pointToIndex_closed.
    + now apply pointToIndex_range.
    + now apply indexToPoint_pointToIndex.
  - intros x y z x' y' z' (? & ? & ?) (? & ? & ?).
    now apply pointToIndex_inj.
  - intros idx Hidx. exact (pointToIndex_indexToPoint g V idx Hidx).
Qed.

Section Neighbours.

Context {D : DoubleOps}.
Variable g : UniformGrid D.
Hypothesis Hvalid : valid_grid g.

Let h := m_halfSize g.
Let N := m_size g + 1.

Lemma u32_sub_small (a b : Z) : 0 <= a - b < U32_MOD -> u32_sub a b = a - b.
Proof. apply u32_small. Qed.

Lemma u32_add_small (a b : Z) : 0 <= a + b < U32_MOD -> u32_add a b = a + b.
Proof. apply u32_small. Qed.

Lemma cube_lt_u32 : N * N * N < U32_MOD.
Proof.
  pose proof (N_cube_u32 g Hvalid) as H. destruct (valid_dims g Hvalid) as (_ & Hh & HN).
  unfold N. nia.
Qed.

(** Moving one vertex down or up along an axis is one stride of the index. *)
Lemma index_pred_z (x y z : Z) :
  - h <= x <= h -> - h <= y <= h -> - h < z <= h ->
  u32_sub (pointToIndex g x y z) 1 = pointToIndex g x y (z - 1).
Proof.
  intros Hx Hy Hz. pose proof cube_lt_u32 as HU.
  pose proof (pointToIndex_range g Hvalid x y (z - 1)) as R.
  unfold h, N in *.
  rewrite u32_sub_small; rewrite !(pointToIndex_closed g Hvalid) by lia;
    rewrite (pointToIndex_closed g Hvalid) in R by lia; lia.
Qed.

Lemma index_pred_x (x y z : Z) :
  - h < x <= h -> - h <= y <= h -> - h <= z <= h ->
  u32_sub (pointToIndex g x y z) (u32_add (m_size g) 1) = pointToIndex g (x - 1) y z.
Proof.
  intros Hx Hy Hz. pose proof cube_lt_u32 as HU. rewrite (u32_N g Hvalid).
  pose proof (pointToIndex_range g Hvalid (x - 1) y z) as R.
  unfold h, N in *.
  rewrite u32_sub_small; rewrite !(pointToIndex_closed g Hvalid) by lia;
    rewrite (pointToIndex_closed g Hvalid) in R by lia; lia.
Qed.

Lemma index_pred_y (x y z : Z) :
  - h <= x <= h -> - h < y <= h -> - h <= z <= h ->
  u32_sub (pointToIndex g x y z)
          (u32_mul (u32_add (m_size g) 1) (u32_add (m_size g) 1))
  = pointToIndex g x (y - 1) z.
Proof.
  intros Hx Hy Hz. pose proof cube_lt_u32 as HU. rewrite (u32_NN g Hvalid).
  pose proof (pointToIndex_range g Hvalid x (y - 1) z) as R.
  unfold h, N in *.
  rewrite u32_sub_small; rewrite !(pointToIndex_closed g Hvalid) by lia;
    rewrite (pointToIndex_closed g Hvalid) in R by lia; lia.
Qed.

Lemma index_succ_z (x y z : Z) :
  - h <= x <= h -> - h <= y <= h -> - h <= z < h ->
  u32_add (pointToIndex g x y z) 1 = pointToIndex g x y (z + 1).
Proof.
  intros Hx Hy Hz. pose proof cube_lt_u32 as HU.
  pose proof (pointToIndex_range g Hvalid x y (z + 1)) as R.
  unfold h, N in *.
  rewrite u32_add_small; rewrite !(pointToIndex_closed g Hvalid) by lia;
    rewrite (pointToIndex_closed g Hvalid) in R by lia; lia.
Qed.

Lemma index_succ_x (x y z : Z) :
  - h <= x < h -> - h <= y <= h -> - h <= z <= h ->
  u32_add (pointToIndex g x y z) (u32_add (m_size g) 1) = pointToIndex g (x + 1) y z.
Proof.
  intros Hx Hy Hz. pose proof cube_lt_u32 as HU. rewrite (u32_N g Hvalid).
  pose proof (pointToIndex_range g Hvalid (x + 1) y z) as R.
  unfold h, N in *.
  rewrite u32_add_small; rewrite !(pointToIndex_closed g Hvalid) by lia;
    rewrite (pointToIndex_closed g Hvalid) in R by lia; lia.
Qed.

Lemma index_succ_y (x y z : Z) :
  - h <= x <= h -> - h <= y < h -> - h <= z <= h ->
  u32_add (pointToIndex g x y z)
          (u32_mul (u32_add (m_size g) 1) (u32_add (m_size g) 1))
  = pointToIndex g x (y + 1) z.
Proof.
  intros Hx Hy Hz. pose proof cube_lt_u32 as HU. rewrite (u32_NN g Hvalid).
  pose proof (pointToIndex_range g Hvalid x (y + 1) z) as R.
  unfold h, N in *.
  rewrite u32_add_small; rewrite !(pointToIndex_closed g Hvalid) by lia;
    rewrite (pointToIndex_closed g Hvalid) in R by lia; lia.
Qed.

End Neighbours.

(* ================================================================== *)
(** ** Accessors and adjacency *)

Section Accessors.

Context {D : DoubleOps}.
Variable g : UniformGrid D.
Hypothesis Hvalid : valid_grid g.

Lemma index_in_mat (x y z : Z) :
  inLattice g x y z ->
  (Z.to_nat (pointToIndex g x y z) < List.length (m_mat g))%nat.
Proof.
  intros (Hx & Hy & Hz).
  pose proof (pointToIndex_range g Hvalid x y z Hx Hy Hz) as R.
  destruct Hvalid as [_ _ _ _ Hm].
  apply Nat2Z.inj_lt. rewrite Z2Nat.id by lia. rewrite Hm. lia.
Qed.

Lemma read_mat_vertex (x y z : Z) :
  inLattice g x y z ->
  exists m, read_mat g (pointToIndex g x y z) = Ok m /\
            nth_error (m_mat g) (Z.to_nat (pointToIndex g x y z)) = Some m.
Proof.
  intros Hin. pose proof (index_in_mat x y z Hin) as L.
  apply nth_error_Some in L. unfold read_mat.
  destruct (nth_error (m_mat g) (Z.to_nat (pointToIndex g x y z))) as [m|];
    [exists m; split; reflexivity|congruence].
Qed.

End Accessors.

(** The index [pointToIndex] computes for [(INT32_MIN, 0, 0)]: the
    reduction modulo [2^32] leaves it above [2^31]. *)
Lemma pointToIndex_int_min {D : DoubleOps} (g : UniformGrid D) :
  valid_grid g ->
  let h := m_halfSize g in
  let N := m_size g + 1 in
  pointToIndex g INT32_MIN 0 0 = h * N * N + h * N + h + 2 ^ 31 /\
  N * N * N < 2 ^ 31.
Proof.
  intros V h N. destruct (valid_dims g V) as (_ & Hh & HN). fold h N in Hh, HN.
  assert (B1 : 0 <= N * N <= 1025 * 1025) by nia.
  assert (B2 : 0 <= h * (N * N) <= 512 * (1025 * 1025)) by nia.
  assert (B3 : 0 <= N * (N * N) <= 1025 * (1025 * 1025)) by nia.
  assert (B4 : 0 <= h * N <= 512 * 1025) by nia.
  split; [|lia].
  rewrite (pointToIndex_mod g V). fold h N. unfold INT32_MIN, U32_MOD.
  replace (((0 + h) * N + (- 2 ^ 31 + h)) * N + (0 + h))
    with (h * N * N + h * N + h + 2 ^ 31 + (- (h + 1)) * 2 ^ 32)
    by (rewrite HN; ring).
  rewrite Z_mod_plus_full. apply Z.mod_small.
  rewrite <- Z.mul_assoc. lia.
Qed.

(** C9.  Away from [INT32_MIN] the claim holds: for a vertex that
    [isVertexInGrid] accepts, [pointToIndex] is below [(size+1)^3] and inside
    the material array, so [at] passes its assertion and returns the stored
    material; a vertex that [isVertexInGrid] rejects is a precondition
    violation that only the assertion reports.  At [INT32_MIN] the guard
    fails: [glm::abs (INT32_MIN)] is negative, so [isVertexInGrid] accepts
    [(INT32_MIN, 0, 0)] although its index is not below [(size+1)^3], and
    [at] passes its assertion and reads outside the material array. *)
Theorem at_within_bounds {D : DoubleOps} (g : UniformGrid D) :
  valid_grid g ->
  (forall x y z,
     negatable3 x y z = true -> isVertexInGrid g x y z = true ->
     0 <= pointToIndex g x y z < (m_size g + 1) ^ 3 /\
     (Z.to_nat (pointToIndex g x y z) < List.length (m_mat g))%nat /\
     exists m, at_ g x y z = Ok m /\
               nth_error (m_mat g) (Z.to_nat (pointToIndex g x y z)) = Some m) /\
  (forall x y z,
     isVertexInGrid g x y z = false -> at_ g x y z = AssertionFailed) /\
  (isVertexInGrid g INT32_MIN 0 0 = true /\
   (m_size g + 1) ^ 3 <= pointToIndex g INT32_MIN 0 0 /\
   at_ g INT32_MIN 0 0 = OutOfBounds).
Proof.
  intros V.
  assert (EC : (m_size g + 1) ^ 3
               = (m_size g + 1) * (m_size g + 1) * (m_size g + 1)) by ring.
  split; [|split].
  - intros x y z Hn Hin. pose proof Hin as Hr.
    apply (isVertexInGrid_iff g _ _ _ Hn) in Hr.
    split; [|split].
    + destruct Hr as (Hx & Hy & Hz). rewrite EC.
      exact (pointToIndex_range g V x y z Hx Hy Hz).
    + now apply index_in_mat.
    + destruct (read_mat_vertex g V x y z Hr) as (m & _ & Hm).
      exists m. split; [|exact Hm].
      unfold at_, pointToIndex_checked. rewrite Hin. simpl. now rewrite Hm.
  - intros x y z Hout. unfold at_. now rewrite Hout.
  - destruct (pointToIndex_int_min g V) as (E & HN).
    destruct (valid_dims g V) as (Hs & Hh & _).
    assert (Hin : isVertexInGrid g INT32_MIN 0 0 = true).
    { apply (isVertexInGrid_abs g). rewrite glm_abs_min.
      unfold glm_abs, INT32_MIN. simpl. lia. }
    assert (Hge : (m_size g + 1) ^ 3 <= pointToIndex g INT32_MIN 0 0).
    { rewrite EC, E. cbv zeta in HN.
      assert (0 <= m_halfSize g * (m_size g + 1)) by nia.
      assert (0 <= m_halfSize g * (m_size g + 1) * (m_size g + 1)) by nia.
      lia. }
    split; [exact Hin|]. split; [exact Hge|].
    unfold at_, pointToIndex_checked. rewrite Hin. cbn [negb].
    replace (nth_error (m_mat g) (Z.to_nat (pointToIndex g INT32_MIN 0 0)))
      with (@None Material); [reflexivity|].
    symmetry. apply nth_error_None. destruct V as [_ _ _ _ Hm].
    apply Nat2Z.inj_le. rewrite Hm, Z2Nat.id by lia. exact Hge.
Qed.

Section CellVertices.

Context {D : DoubleOps}.
Variable g : UniformGrid D.
Hypothesis Hvalid : valid_grid g.

Lemma cellCorners_in_range (c : ivec3) :
  isCellInGrid g c = true ->
  Forall (fun p => inLattice g (ix p) (iy p) (iz p)) (cellCorners c).
Proof.
  intros Hc. apply (isCellInGrid_iff g) in Hc.
  unfold cellCorners, inLattice.
  repeat (apply Forall_cons; [simpl; lia|]).
  apply Forall_nil.
Qed.

Lemma cellCorners_in_grid (c : ivec3) :
  isCellInGrid g c = true ->
  Forall (fun p => isVertexInGrid g (ix p) (iy p) (iz p) = true) (cellCorners c).
Proof.
  intros Hc. apply cellCorners_in_range in Hc.
  eapply Forall_impl; [|exact Hc].
  intros p Hp. now apply isVertexInGrid_of_range.
Qed.

Lemma adjacentVerticesForCell_corners (c : ivec3) :
  isCellInGrid g c = true ->
  adjacentVerticesForCell g (pointToIndex_v g c)
  = map (pointToIndex_v g) (cellCorners c).
Proof.
  intros Hc. apply (isCellInGrid_iff g) in Hc. destruct Hc as (Hx & Hy & Hz).
  destruct c as [x y z]. simpl in Hx, Hy, Hz.
  unfold adjacentVerticesForCell, cellCorners, pointToIndex_v.
  cbn [repeat array_set map ix iy iz].
  rewrite !(index_succ_x g Hvalid) by lia.
  rewrite !(index_succ_y g Hvalid) by lia.
  rewrite !(index_succ_z g Hvalid) by lia.
  reflexivity.
Qed.

Lemma cellCorners_NoDup (c : ivec3) : NoDup (cellCorners c).
Proof.
  unfold cellCorners.
  repeat (apply NoDup_cons;
          [simpl; intros Hin;
           repeat (destruct Hin as [Hin|Hin]; [injection Hin; lia|]);
           exact Hin|]).
  apply NoDup_nil.
Qed.

Lemma map_index_NoDup (l : list ivec3) :
  Forall (fun p => inLattice g (ix p) (iy p) (iz p)) l ->
  NoDup l -> NoDup (map (pointToIndex_v g) l).
Proof.
  induction l as [|p l IH]; intros Hall Hnd; simpl; [constructor|].
  inversion Hall as [|? ? Hp Hl]; subst. inversion Hnd as [|? ? Hnin Hnd']; subst.
  constructor; [|now apply IH].
  intros Hin. apply in_map_iff in Hin. destruct Hin as (q & Eq & Hq).
  rewrite Forall_forall in Hl. pose proof (Hl q Hq) as Hqin.
  unfold inLattice in Hp, Hqin. unfold pointToIndex_v in Eq.
  apply (pointToIndex_inj g Hvalid) in Eq; try tauto.
  destruct p, q. simpl in Eq. injection Eq as -> -> ->. contradiction.
Qed.

Lemma read_all_vertices (l : list ivec3) :
  Forall (fun p => inLattice g (ix p) (iy p) (iz p)) l ->
  exists ms, read_all g (map (pointToIndex_v g) l) = Ok ms /\
             map Some ms = map (fun p => nth_error (m_mat g)
                                  (Z.to_nat (pointToIndex_v g p))) l.
Proof.
  induction l as [|p l IH]; intros Hall; simpl.
  - exists []. split; reflexivity.
  - inversion Hall as [|? ? Hp Hl]; subst.
    destruct (IH Hl) as (ms & E & Ems).
    destruct (read_mat_vertex g Hvalid _ _ _ Hp) as (m & Er & En).
    exists (m :: ms). change (pointToIndex_v g p)
      with (pointToIndex g (ix p) (iy p) (iz p)).
    rewrite Er, E. split; [reflexivity|].
    simpl. now rewrite En, Ems.
Qed.

End CellVertices.

(** C10.  For a cell that [isCellInGrid] accepts, [adjacentVerticesForCell]
    on the index of its minimal corner returns the indices of its eight
    corners [C + (dx, dy, dz)], pairwise distinct and all below
    [(size+1)^3]; [materialsOfCell] on that index reads eight entries that
    all exist in the material array. *)
Theorem adjacentVerticesForCell_spec {D : DoubleOps} (g : UniformGrid D) (c : ivec3) :
  valid_grid g ->
  isCellInGrid g c = true ->
  let vertices := adjacentVerticesForCell g (pointToIndex_v g c) in
  List.length vertices = 8%nat /\
  vertices = map (pointToIndex_v g) (cellCorners c) /\
  NoDup vertices /\
  Forall (fun i => 0 <= i < (m_size g + 1) ^ 3) vertices /\
  exists mats, materialsOfCell g (pointToIndex_v g c) = Ok mats /\
               map Some mats
               = map (fun i => nth_error (m_mat g) (Z.to_nat i)) vertices.
Proof.
  intros V Hc vertices.
  pose proof (adjacentVerticesForCell_corners g V c Hc) as E.
  pose proof (cellCorners_in_range g c Hc) as Hall.
  subst vertices. rewrite E.
  split; [reflexivity|]. split; [reflexivity|]. split; [|split].
  - apply (map_index_NoDup g V); [exact Hall|apply cellCorners_NoDup].
  - apply Forall_forall. intros i Hi. apply in_map_iff in Hi.
    destruct Hi as (p & <- & Hp). rewrite Forall_forall in Hall.
    pose proof (Hall p Hp) as Hin.
    destruct Hin as (Hx & Hy & Hz).
    replace ((m_size g + 1) ^ 3)
      with ((m_size g + 1) * (m_size g + 1) * (m_size g + 1)) by ring.
    apply (pointToIndex_range g V); assumption.
  - destruct (read_all_vertices g V (cellCorners c) Hall) as (ms & Er & Ems).
    exists ms. split.
    + unfold materialsOfCell. rewrite <- Er, <- E.
      unfold adjacentVerticesForCell. reflexivity.
    + rewrite Ems, map_map. reflexivity.
Qed.

Lemma edgeNeighbours_complete (a : Axis) (e c : ivec3) :
  cellHasEdge a c e <-> In c (edgeNeighbours a e).
Proof.
  destruct e as [x y z], c as [cx cy cz].
  destruct a; unfold cellHasEdge, edgeNeighbours; simpl; split.
  all: try (intros (H1 & [H2|H2] & [H3|H3]);
            [ do 2 right; left | do 3 right; left | right; left | left ];
            f_equal; lia).
  all: try (intros (H1 & [H2|H2] & [H3|H3]);
            [ do 2 right; left | right; left | do 3 right; left | left ];
            f_equal; lia).
  all: intros [H|[H|[H|[H|[]]]]]; injection H; lia.
Qed.

Section EdgeCells.

Context {D : DoubleOps}.
Variable kBadIndex : Z.
Variable g : UniformGrid D.
Hypothesis Hvalid : valid_grid g.

Let h := m_halfSize g.

(** [isEdgeInGrid<axis>]: a range test along the axis and two [glm::abs]
    tests across it. *)
Lemma isEdgeInGrid_abs (a : Axis) (e : ivec3) :
  isEdgeInGrid a g e = true <->
  match a with
  | AxisX => - h <= ix e < h /\ glm_abs (iy e) <= h /\ glm_abs (iz e) <= h
  | AxisY => - h <= iy e < h /\ glm_abs (ix e) <= h /\ glm_abs (iz e) <= h
  | AxisZ => - h <= iz e < h /\ glm_abs (ix e) <= h /\ glm_abs (iy e) <= h
  end.
Proof.
  destruct a; cbn [isEdgeInGrid];
    [unfold isEdgeInGrid_0|unfold isEdgeInGrid_1|unfold isEdgeInGrid_2]; fold h.
  - destruct (Z.ltb_spec (ix e) (- h)), (Z.geb_spec (ix e) h); simpl;
      try (split; [discriminate|lia]).
    destruct (Z.gtb_spec (glm_abs (iy e)) h); [split; [discriminate|lia]|].
    destruct (Z.gtb_spec (glm_abs (iz e)) h); [split; [discriminate|lia]|].
    split; [lia|reflexivity].
  - destruct (Z.ltb_spec (iy e) (- h)), (Z.geb_spec (iy e) h); simpl;
      try (split; [discriminate|lia]).
    destruct (Z.gtb_spec (glm_abs (ix e)) h); [split; [discriminate|lia]|].
    destruct (Z.gtb_spec (glm_abs (iz e)) h); [split; [discriminate|lia]|].
    split; [lia|reflexivity].
  - destruct (Z.ltb_spec (iz e) (- h)), (Z.geb_spec (iz e) h); simpl;
      try (split; [discriminate|lia]).
    destruct (Z.gtb_spec (glm_abs (ix e)) h); [split; [discriminate|lia]|].
    destruct (Z.gtb_spec (glm_abs (iy e)) h); [split; [discriminate|lia]|].
    split; [lia|reflexivity].
Qed.

Lemma isEdgeInGrid_of_range (a : Axis) (e : ivec3) :
  edgeInLattice a g e -> isEdgeInGrid a g e = true.
Proof.
  intros H. apply isEdgeInGrid_abs.
  destruct a; unfold edgeInLattice in H; fold h in H;
    destruct H as (Hx & Hy & Hz);
    (split; [lia|split; apply glm_abs_le_range; lia]).
Qed.

(** Away from [INT32_MIN], [isEdgeInGrid<axis>] is membership in the
    lattice of edges. *)
Lemma isEdgeInGrid_iff (a : Axis) (e : ivec3) :
  negatable_v e = true ->
  (isEdgeInGrid a g e = true <-> edgeInLattice a g e).
Proof.
  intros Hn. apply negatable3_iff in Hn. destruct Hn as (Nx & Ny & Nz).
  apply negatable_iff in Nx, Ny, Nz.
  split; [|apply isEdgeInGrid_of_range].
  intros H. apply isEdgeInGrid_abs in H.
  destruct a; unfold edgeInLattice; fold h; destruct H as (H1 & H2 & H3);
    match goal with
    | A : glm_abs ?u <= h, B : glm_abs ?v <= h |- _ =>
        apply glm_abs_le_exact in A; [|assumption];
        apply glm_abs_le_exact in B; [|assumption]
    end; lia.
Qed.

(** The edges of the lattice are far from [INT32_MIN]. *)
Lemma edge_negatable (a : Axis) (e : ivec3) :
  edgeInLattice a g e -> negatable_v e = true.
Proof.
  intros H. apply (lattice_negatable g Hvalid).
  all: destruct a; unfold edgeInLattice in H; lia.
Qed.

Lemma neighbourIndex_in (x y z : Z) :
  - h <= x < h -> - h <= y < h -> - h <= z < h ->
  neighbourIndex kBadIndex g (mk_ivec3 x y z) = pointToIndex g x y z.
Proof.
  intros Hx Hy Hz. unfold neighbourIndex.
  replace (isCellInGrid g (mk_ivec3 x y z)) with true; [reflexivity|].
  symmetry. apply (isCellInGrid_iff g). simpl. fold h. lia.
Qed.

Lemma neighbourIndex_out (x y z : Z) :
  ~ (- h <= x < h /\ - h <= y < h /\ - h <= z < h) ->
  neighbourIndex kBadIndex g (mk_ivec3 x y z) = kBadIndex.
Proof.
  intros Hn. unfold neighbourIndex.
  destruct (isCellInGrid g (mk_ivec3 x y z)) eqn:E; [|reflexivity].
  apply (isCellInGrid_iff g) in E. simpl in E. fold h in E. contradiction.
Qed.

Ltac solve_slot :=
  first
    [ rewrite neighbourIndex_out by lia; reflexivity
    | rewrite neighbourIndex_in by lia;
      repeat first [ rewrite (index_pred_x g Hvalid) by (fold h; lia)
                   | rewrite (index_pred_y g Hvalid) by (fold h; lia)
                   | rewrite (index_pred_z g Hvalid) by (fold h; lia) ];
      reflexivity ].

Ltac solve_slots :=
  cbn [array_set repeat nth map];
  repeat (f_equal; [solve_slot|]); try (f_equal; solve_slot).

Lemma adjacentCellsForEdge_0_eq (e : ivec3) :
  edgeInLattice AxisX g e ->
  adjacentCellsForEdge_0 kBadIndex g e
  = map (neighbourIndex kBadIndex g) (edgeNeighbours AxisX e).
Proof.
  intros Hin. unfold edgeInLattice in Hin. fold h in Hin.
  destruct Hin as (Hx & Hy & Hz).
  destruct (valid_dims g Hvalid) as (_ & Hh & _). fold h in Hh.
  destruct e as [x y z]. simpl in Hx, Hy, Hz.
  unfold adjacentCellsForEdge_0, edgeNeighbours, pointToIndex_v.
  cbn [ix iy iz repeat array_set nth]. fold h.
  destruct (Z.eqb_spec y (- h)), (Z.eqb_spec y h), (Z.eqb_spec z (- h)),
    (Z.eqb_spec z h); try lia; solve_slots.
Qed.

Lemma adjacentCellsForEdge_1_eq (e : ivec3) :
  edgeInLattice AxisY g e ->
  adjacentCellsForEdge_1 kBadIndex g e
  = map (neighbourIndex kBadIndex g) (edgeNeighbours AxisY e).
Proof.
  intros Hin. unfold edgeInLattice in Hin. fold h in Hin.
  destruct Hin as (Hx & Hy & Hz).
  destruct (valid_dims g Hvalid) as (_ & Hh & _). fold h in Hh.
  destruct e as [x y z]. simpl in Hx, Hy, Hz.
  unfold adjacentCellsForEdge_1, edgeNeighbours, pointToIndex_v.
  cbn [ix iy iz repeat array_set nth]. fold h.
  destruct (Z.eqb_spec x (- h)), (Z.eqb_spec x h), (Z.eqb_spec z (- h)),
    (Z.eqb_spec z h); try lia; solve_slots.
Qed.

Lemma adjacentCellsForEdge_2_eq (e : ivec3) :
  edgeInLattice AxisZ g e ->
  adjacentCellsForEdge_2 kBadIndex g e
  = map (neighbourIndex kBadIndex g) (edgeNeighbours AxisZ e).
Proof.
  intros Hin. unfold edgeInLattice in Hin. fold h in Hin.
  destruct Hin as (Hx & Hy & Hz).
  destruct (valid_dims g Hvalid) as (_ & Hh & _). fold h in Hh.
  destruct e as [x y z]. simpl in Hx, Hy, Hz.
  unfold adjacentCellsForEdge_2, edgeNeighbours, pointToIndex_v.
  cbn [ix iy iz repeat array_set nth]. fold h.
  destruct (Z.eqb_spec x (- h)), (Z.eqb_spec x h), (Z.eqb_spec y (- h)),
    (Z.eqb_spec y h); try lia; solve_slots.
Qed.

Lemma neighbourIndex_sentinel (c : ivec3) :
  (m_size g + 1) ^ 3 <= kBadIndex ->
  (neighbourIndex kBadIndex g c = kBadIndex <-> isCellInGrid g c = false) /\
  (neighbourIndex kBadIndex g c <> kBadIndex ->
   isCellInGrid g c = true /\ neighbourIndex kBadIndex g c = pointToIndex_v g c).
Proof.
  intros Hk. unfold neighbourIndex.
  destruct (isCellInGrid g c) eqn:E.
  - apply (isCellInGrid_iff g) in E. destruct E as (Hx & Hy & Hz).
    pose proof (pointToIndex_range g Hvalid (ix c) (iy c) (iz c)
                  ltac:(lia) ltac:(lia) ltac:(lia)) as R.
    replace ((m_size g + 1) ^ 3)
      with ((m_size g + 1) * (m_size g + 1) * (m_size g + 1)) in Hk by ring.
    unfold pointToIndex_v. split; [split; [lia|discriminate]|].
    intros _. split; reflexivity.
  - split; [split; reflexivity|]. intros Hn. contradiction.
Qed.

End EdgeCells.

(** The index [pointToIndex] computes for [(0, INT32_MIN, 0)]. *)
Lemma pointToIndex_int_min_y {D : DoubleOps} (g : UniformGrid D) :
  valid_grid g ->
  let h := m_halfSize g in
  let N := m_size g + 1 in
  pointToIndex g 0 INT32_MIN 0 = h * N * N + h * N + h + 2 ^ 31.
Proof.
  intros V h N. destruct (valid_dims g V) as (_ & Hh & HN). fold h N in Hh, HN.
  assert (B1 : 0 <= N * N <= 1025 * 1025) by nia.
  assert (B2 : 0 <= h * (N * N) <= 512 * (1025 * 1025)) by nia.
  assert (B4 : 0 <= h * N <= 512 * 1025) by nia.
  rewrite (pointToIndex_mod g V). fold h N. unfold INT32_MIN, U32_MOD.
  replace (((- 2 ^ 31 + h) * N + (0 + h)) * N + (0 + h))
    with (h * N * N + h * N + h + 2 ^ 31 + (- (2 * h * h + 2 * h + 1)) * 2 ^ 32)
    by (rewrite HN; ring).
  rewrite Z_mod_plus_full. apply Z.mod_small.
  rewrite <- Z.mul_assoc. lia.
Qed.

(** C8.  Away from [INT32_MIN] the claim holds: for an edge that
    [isEdgeInGrid<axis>] accepts, with a sentinel that is not an index of
    the material array, [adjacentCellsForEdge<axis>] returns four entries,
    one per unit cell around the edge; an entry is the sentinel exactly when
    its cell is outside the grid, and otherwise it is [pointToIndex] of the
    minimal corner of that in-grid cell, which has the edge on its
    boundary.  At [INT32_MIN] it fails: [isEdgeInGrid<0>] accepts the edge
    at [(0, INT32_MIN, 0)], none of the four cells around it is in the grid,
    and [adjacentCellsForEdge<0>] returns four different numbers, so some
    entry is not the sentinel. *)
Theorem adjacentCellsForEdge_spec {D : DoubleOps} (kBadIndex : Z)
    (g : UniformGrid D) :
  valid_grid g ->
  (m_size g + 1) ^ 3 <= kBadIndex ->
  (forall (a : Axis) (e : ivec3),
     negatable_v e = true ->
     isEdgeInGrid a g e = true ->
     let cells := adjacentCellsForEdge kBadIndex a g e in
     List.length cells = 4%nat /\
     (forall c, cellHasEdge a c e <-> In c (edgeNeighbours a e)) /\
     Forall2 (fun idx c =>
                cellHasEdge a c e /\
                (idx = kBadIndex <-> isCellInGrid g c = false) /\
                (idx <> kBadIndex ->
                 isCellInGrid g c = true /\ idx = pointToIndex_v g c))
             cells (edgeNeighbours a e)) /\
  (let e0 := mk_ivec3 0 INT32_MIN 0 in
   let i0 := pointToIndex_v g e0 in
   let n := m_size g + 1 in
   isEdgeInGrid AxisX g e0 = true /\
   Forall (fun c => isCellInGrid g c = false) (edgeNeighbours AxisX e0) /\
   adjacentCellsForEdge kBadIndex AxisX g e0
   = [i0 - n * n - 1; i0 - 1; i0; i0 - n * n] /\
   exists idx, In idx (adjacentCellsForEdge kBadIndex AxisX g e0) /\
               idx <> kBadIndex).
Proof.
  intros V Hk. split.
  - intros a e Hn Hin cells.
    apply (isEdgeInGrid_iff g a e Hn) in Hin.
    assert (E : cells = map (neighbourIndex kBadIndex g) (edgeNeighbours a e)).
    { subst cells. destruct a; simpl.
      - now apply adjacentCellsForEdge_0_eq.
      - now apply adjacentCellsForEdge_1_eq.
      - now apply adjacentCellsForEdge_2_eq. }
    rewrite E. split; [destruct a; reflexivity|].
    split; [intros c; apply edgeNeighbours_complete|].
    assert (Hall : Forall (fun c => cellHasEdge a c e) (edgeNeighbours a e)).
    { apply Forall_forall. intros c Hc. now apply edgeNeighbours_complete. }
    clear E. revert Hall. generalize (edgeNeighbours a e) as l.
    induction l as [|c l IH]; intros Hall; simpl; constructor;
      inversion Hall as [|? ? Hc Hl]; subst; [|now apply IH].
    split; [exact Hc|]. now apply neighbourIndex_sentinel.
  - intros e0 i0 n.
    destruct (valid_dims g V) as (Hs & Hh & HN). fold n in HN.
    pose proof (pointToIndex_int_min_y g V) as Ei. cbv zeta in Ei.
    fold n in Ei. change (pointToIndex g 0 INT32_MIN 0) with i0 in Ei.
    assert (B1 : 0 <= n * n <= 1025 * 1025) by nia.
    assert (B2 : 0 <= m_halfSize g * (n * n) <= 512 * (1025 * 1025)) by nia.
    assert (B4 : 0 <= m_halfSize g * n <= 512 * 1025) by nia.
    rewrite <- Z.mul_assoc in Ei.
    assert (Ecells : adjacentCellsForEdge kBadIndex AxisX g e0
                     = [i0 - n * n - 1; i0 - 1; i0; i0 - n * n]).
    { cbn [adjacentCellsForEdge]. unfold adjacentCellsForEdge_0.
      rewrite (u32_NN g V). fold n. fold i0.
      cbn [repeat array_set nth e0 ix iy iz].
      unfold INT32_MIN.
      destruct (Z.eqb_spec (- 2 ^ 31) (- m_halfSize g)); [lia|].
      destruct (Z.eqb_spec (- 2 ^ 31) (m_halfSize g)); [lia|].
      destruct (Z.eqb_spec 0 (- m_halfSize g)); [lia|].
      destruct (Z.eqb_spec 0 (m_halfSize g)); [lia|].
      unfold u32_sub.
      rewrite (u32_small (i0 - n * n)) by (unfold U32_MOD; lia).
      rewrite (u32_small (i0 - n * n - 1)) by (unfold U32_MOD; lia).
      rewrite (u32_small (i0 - 1)) by (unfold U32_MOD; lia).
      reflexivity. }
    split; [|split; [|split; [exact Ecells|]]].
    + apply (isEdgeInGrid_abs g AxisX e0). cbn [e0 ix iy iz].
      rewrite glm_abs_min. unfold glm_abs, INT32_MIN. simpl. lia.
    + unfold edgeNeighbours. cbn [e0 ix iy iz].
      repeat (apply Forall_cons;
              [apply not_true_is_false; intros Hc;
               apply (isCellInGrid_iff g) in Hc; cbn [ix iy iz] in Hc;
               unfold INT32_MIN in Hc; lia|]).
      apply Forall_nil.
    + rewrite Ecells.
      destruct (Z.eq_dec i0 kBadIndex) as [E|E].
      * exists (i0 - 1). split; [cbn [In]; tauto|lia].
      * exists i0. split; [cbn [In]; tauto|exact E].
Qed.

(* ================================================================== *)
(** ** Loops and arrays *)

Lemma for_range_inv {St : Type} (P : Z -> St -> Prop) (body : Z -> St -> St) :
  forall (n : nat) (lo : Z) (s : St),
    P lo s ->
    (forall i t, lo <= i < lo + Z.of_nat n -> P i t -> P (i + 1) (body i t)) ->
    P (lo + Z.of_nat n) (for_range lo n body s).
Proof.
  induction n as [|n IH]; intros lo s H0 Hstep.
  - simpl. now rewrite Z.add_0_r.
  - cbn [for_range]. replace (lo + Z.of_nat (S n)) with ((lo + 1) + Z.of_nat n) by lia.
    apply IH.
    + apply Hstep; [lia|exact H0].
    + intros i t Hi. apply Hstep. lia.
Qed.

Lemma for_le_inv {St : Type} (P : Z -> St -> Prop) (body : Z -> St -> St)
    (lo hi : Z) (s : St) :
  lo <= hi + 1 ->
  P lo s ->
  (forall i t, lo <= i <= hi -> P i t -> P (i + 1) (body i t)) ->
  P (hi + 1) (for_le lo hi body s).
Proof.
  intros Hle H0 Hstep. unfold for_le.
  replace (hi + 1) with (lo + Z.of_nat (Z.to_nat (hi - lo + 1))) at 1 by lia.
  apply for_range_inv; [exact H0|]. intros i t Hi. apply Hstep. lia.
Qed.

Lemma in_zrange (n : nat) : forall lo x, In x (zrange lo n) <-> lo <= x < lo + Z.of_nat n.
Proof.
  induction n as [|n IH]; intros lo x; cbn [zrange In].
  - lia.
  - rewrite IH. lia.
Qed.

Lemma zrange_snoc (n : nat) : forall lo, zrange lo (S n) = zrange lo n ++ [lo + Z.of_nat n].
Proof.
  induction n as [|n IH]; intros lo.
  - simpl. now rewrite Z.add_0_r.
  - change (zrange lo (S (S n))) with (lo :: zrange (lo + 1) (S n)).
    rewrite IH. cbn [zrange app]. do 3 f_equal. lia.
Qed.

Lemma array_set_length {A : Type} (l : list A) : forall i v,
  List.length (array_set i v l) = List.length l.
Proof.
  induction l as [|a l IH]; intros [|i] v; simpl; auto.
Qed.

Lemma nth_array_set_eq {A : Type} (l : list A) : forall i v d,
  (i < List.length l)%nat -> nth i (array_set i v l) d = v.
Proof.
  induction l as [|a l IH]; intros [|i] v d Hi; simpl in *; try lia; auto.
  apply IH. lia.
Qed.

Lemma nth_array_set_neq {A : Type} (l : list A) : forall i j v d,
  i <> j -> nth j (array_set i v l) d = nth j l d.
Proof.
  induction l as [|a l IH]; intros [|i] [|j] v d Hij; simpl; auto; try congruence.
Qed.

Lemma vec_set_length {A : Type} (l : list A) (i : Z) (v : A) :
  List.length (vec_set l i v) = List.length l.
Proof. apply array_set_length. Qed.

Lemma vec_get_set_eq {A : Type} (l : list A) (i : Z) (v d : A) :
  0 <= i < Z.of_nat (List.length l) -> vec_get (vec_set l i v) i d = v.
Proof.
  intros Hi. unfold vec_get, vec_set. apply nth_array_set_eq. lia.
Qed.

Lemma vec_get_set_neq {A : Type} (l : list A) (i j : Z) (v d : A) :
  0 <= i -> 0 <= j -> i <> j -> vec_get (vec_set l i v) j d = vec_get l j d.
Proof.
  intros Hi Hj Hij. unfold vec_get, vec_set. apply nth_array_set_neq. lia.
Qed.

(* ================================================================== *)
(** ** The sampling pass of [fill] *)

Section Sampling.

Context {D : DoubleOps}.
Variable localToGlobal : UniformGrid D -> dvec3 D -> dvec3 D.
Variable g : UniformGrid D.
Variable f : ScalarField D.
Hypothesis Hvalid : valid_grid g.

Let h := m_halfSize g.
Let N := m_size g + 1.
Let step := m_gridStep g.
Let lowest := localToGlobal g (mk_dvec3 (d_of_int D (- h)) (d_of_int D (- h))
                                        (d_of_int D (- h))).

(** The linear position of a vertex in the scan order. *)
Let lin (x y z : Z) : Z := ((y + h) * N + (x + h)) * N + (z + h).

(** What the pass must have stored at the linear position [j]. *)
Let Pspec (j : Z) : dvec3 D :=
  let p := indexToPoint g j in samplePos localToGlobal g (ix p) (iy p) (iz p).
Let Fspec (j : Z) : D := sf_value f (Pspec j).
Let Mspec (j : Z) : Material :=
  if d_gt0 (Fspec j) then Empty else sf_material f (Pspec j) (Fspec j).

(** The loop invariant: the first [k] vertices are done. *)
Let VInv (k : Z) (s : VState) : Prop :=
  vs_idx s = k /\
  Z.of_nat (List.length (vs_values s)) = N * N * N /\
  Z.of_nat (List.length (vs_mat s)) = N * N * N /\
  (forall j, 0 <= j < k ->
     vec_get (vs_values s) j (d_of_int D 0) = Fspec j /\
     vec_get (vs_mat s) j Empty = Mspec j) /\
  Forall (fun pv => d_gt0 (snd pv) = false /\ snd pv = sf_value f (fst pv))
         (vs_trace s) /\
  (forall j, 0 <= j < k -> d_gt0 (Fspec j) = false ->
     In (Pspec j, Fspec j) (vs_trace s)) /\
  vs_trace s
  = flat_map (fun j => if d_gt0 (Fspec j) then [] else [(Pspec j, Fspec j)])
             (zrange 0 (Z.to_nat k)).

Lemma iter_dadd_succ (base st : D) (k : Z) :
  0 <= k -> iter_dadd base st (k + 1) = dadd (iter_dadd base st k) st.
Proof.
  intros Hk. unfold iter_dadd.
  replace (Z.to_nat (k + 1)) with (S (Z.to_nat k)) by lia. reflexivity.
Qed.

Lemma Pspec_lin (x y z : Z) :
  - h <= x <= h -> - h <= y <= h -> - h <= z <= h ->
  Pspec (lin x y z) = samplePos localToGlobal g x y z.
Proof.
  intros Hx Hy Hz. unfold Pspec, lin.
  destruct (valid_dims g Hvalid) as (_ & Hh & HN). fold h N in Hh, HN.
  unfold h, N. rewrite (indexToPoint_closed g Hvalid) by (unfold h, N in *; lia).
  cbn [ix iy iz]. f_equal; f_equal; lia.
Qed.

Lemma lin_range (x y z : Z) :
  - h <= x <= h -> - h <= y <= h -> - h <= z <= h ->
  0 <= lin x y z < N * N * N.
Proof.
  intros Hx Hy Hz. destruct (valid_dims g Hvalid) as (_ & Hh & HN).
  fold h N in Hh, HN. unfold lin. apply index_bound; lia.
Qed.

Lemma sample_vertex_step (k : Z) (s : VState) :
  0 <= k < N * N * N ->
  VInv k s ->
  vs_call_pos s = Pspec k ->
  VInv (k + 1) (sample_vertex g f s) /\
  vs_call_pos (sample_vertex g f s)
  = mk_dvec3 (vx (vs_call_pos s)) (vy (vs_call_pos s))
             (dadd (vz (vs_call_pos s)) step).
Proof.
  intros Hk (Hidx & Hlv & Hlm & Hdone & Htr & Hcall & Hex) Hpos.
  pose proof (cube_lt_u32 g Hvalid) as HU. fold N in HU.
  unfold sample_vertex. rewrite Hidx.
  rewrite vec_get_set_eq by lia.
  assert (Ev : sf_value f (vs_call_pos s) = Fspec k)
    by (unfold Fspec; now rewrite Hpos).
  rewrite Ev.
  assert (Eidx : u32_add k 1 = k + 1) by (apply u32_add_small; lia).
  destruct (d_gt0 (Fspec k)) eqn:Egt; (split; [|reflexivity]);
    unfold VInv; cbn [vs_idx vs_values vs_mat vs_trace vs_call_pos];
    (split; [exact Eidx|]);
    (split; [rewrite vec_set_length; exact Hlv|]);
    (split; [rewrite vec_set_length; exact Hlm|]);
    (split; [|split; [|split]]);
    try (replace (Z.to_nat (k + 1)) with (S (Z.to_nat k)) by lia;
         rewrite zrange_snoc, flat_map_app; cbn [flat_map];
         replace (0 + Z.of_nat (Z.to_nat k)) with k by lia;
         rewrite Egt; cbn [app]; rewrite ?app_nil_r, <- Hex).
  - intros j Hj. destruct (Z.eq_dec j k) as [->|Hne].
    + rewrite !vec_get_set_eq by lia. unfold Mspec. now rewrite Egt.
    + rewrite !vec_get_set_neq by lia. apply Hdone. lia.
  - exact Htr.
  - intros j Hj Hn. destruct (Z.eq_dec j k) as [->|Hne]; [congruence|].
    apply Hcall; [lia|exact Hn].
  - reflexivity.
  - intros j Hj. destruct (Z.eq_dec j k) as [->|Hne].
    + rewrite !vec_get_set_eq by lia. unfold Mspec. rewrite Egt, Hpos. now split.
    + rewrite !vec_get_set_neq by lia. apply Hdone. lia.
  - apply Forall_app. split; [exact Htr|].
    constructor; [|constructor]. simpl. split; [exact Egt|].
    unfold Fspec. now rewrite Hpos.
  - intros j Hj Hn. apply in_or_app. destruct (Z.eq_dec j k) as [->|Hne].
    + right. left. now rewrite Hpos.
    + left. apply Hcall; [lia|exact Hn].
  - now rewrite Hpos.
Qed.

Let X (k : Z) : D := iter_dadd (vx lowest) step k.
Let Y (k : Z) : D := iter_dadd (vy lowest) step k.
Let Zc (k : Z) : D := iter_dadd (vz lowest) step k.

Lemma samplePos_XYZ (x y z : Z) :
  samplePos localToGlobal g x y z = mk_dvec3 (X (x + h)) (Y (y + h)) (Zc (z + h)).
Proof. reflexivity. Qed.

(** The innermost loop, for a row [(x, y)]. *)
Lemma sample_row (x y : Z) (s : VState) :
  - h <= x <= h -> - h <= y <= h ->
  VInv (lin x y (- h)) s ->
  vs_call_pos s = mk_dvec3 (X (x + h)) (Y (y + h)) (Zc 0) ->
  let s' := for_le (- h) h (fun _ t => sample_vertex g f t) s in
  VInv (lin (x + 1) y (- h)) s' /\
  vx (vs_call_pos s') = X (x + h) /\ vy (vs_call_pos s') = Y (y + h).
Proof.
  intros Hx Hy Hinv Hpos s'.
  destruct (valid_dims g Hvalid) as (_ & Hh & HN). fold h N in Hh, HN.
  pose proof (for_le_inv
    (fun z t => VInv (lin x y z) t /\
                vs_call_pos t = mk_dvec3 (X (x + h)) (Y (y + h)) (Zc (z + h)))
    (fun _ t => sample_vertex g f t) (- h) h s) as L.
  cbv beta in L.
  destruct L as (Hfin & Hcp).
  - lia.
  - split; [exact Hinv|]. rewrite Hpos. do 2 f_equal. lia.
  - intros z t Hz (Hi & Hc).
    destruct (sample_vertex_step (lin x y z) t) as (Hi' & Hc').
    + apply lin_range; lia.
    + exact Hi.
    + rewrite Hc, Pspec_lin by lia. apply samplePos_XYZ.
    + split.
      * replace (lin x y (z + 1)) with (lin x y z + 1) by (unfold lin; ring). exact Hi'.
      * rewrite Hc'. rewrite Hc. cbn [vx vy vz]. f_equal.
        replace (z + 1 + h) with (z + h + 1) by ring.
        unfold Zc. rewrite iter_dadd_succ by lia. reflexivity.
  - fold s' in Hfin, Hcp. split.
    + replace (lin (x + 1) y (- h)) with (lin x y (h + 1)) by (unfold lin; lia).
      exact Hfin.
    + rewrite Hcp. split; reflexivity.
Qed.

Lemma VInv_call_pos (k : Z) (s : VState) (p : dvec3 D) :
  VInv k s ->
  VInv k (mk_vstate (vs_idx s) p (vs_values s) (vs_mat s) (vs_trace s)).
Proof. intros H. exact H. Qed.

(** The middle loop, for a slab [y]. *)
Lemma sample_slab (y : Z) (s : VState) :
  - h <= y <= h ->
  VInv (lin (- h) y (- h)) s ->
  vx (vs_call_pos s) = X 0 -> vy (vs_call_pos s) = Y (y + h) ->
  let s' := for_le (- h) h (fun _ t =>
      let t := mk_vstate (vs_idx t)
                 (mk_dvec3 (vx (vs_call_pos t)) (vy (vs_call_pos t)) (vz lowest))
                 (vs_values t) (vs_mat t) (vs_trace t) in
      let t := for_le (- h) h (fun _ u => sample_vertex g f u) t in
      mk_vstate (vs_idx t)
                (mk_dvec3 (dadd (vx (vs_call_pos t)) (m_gridStep g))
                          (vy (vs_call_pos t)) (vz (vs_call_pos t)))
                (vs_values t) (vs_mat t) (vs_trace t)) s in
  VInv (lin (- h) (y + 1) (- h)) s' /\ vy (vs_call_pos s') = Y (y + h).
Proof.
  intros Hy Hinv Hvx Hvy s'.
  destruct (valid_dims g Hvalid) as (_ & Hh & HN). fold h N in Hh, HN.
  match goal with
  | _ := for_le _ _ ?body s |- _ =>
      pose proof (for_le_inv
        (fun x t => VInv (lin x y (- h)) t /\
                    vx (vs_call_pos t) = X (x + h) /\
                    vy (vs_call_pos t) = Y (y + h))
        body (- h) h s) as L
  end.
  cbv beta in L. destruct L as (Hfin & _ & Hcy).
  - lia.
  - split; [exact Hinv|]. split; [|exact Hvy].
    rewrite Hvx. f_equal. lia.
  - intros x t Hx (Hi & Hcx & Hcy).
    pose proof (sample_row x y
      (mk_vstate (vs_idx t)
         (mk_dvec3 (vx (vs_call_pos t)) (vy (vs_call_pos t)) (vz lowest))
         (vs_values t) (vs_mat t) (vs_trace t))) as R.
    cbv zeta in R. destruct R as (Ri & Rx & Ry).
    + lia.
    + lia.
    + apply VInv_call_pos. exact Hi.
    + cbn [vs_call_pos]. rewrite Hcx, Hcy. reflexivity.
    + cbn [vs_call_pos vx vy vz]. split; [|split].
      * apply VInv_call_pos. exact Ri.
      * rewrite Rx. replace (x + 1 + h) with (x + h + 1) by ring.
        unfold X. rewrite iter_dadd_succ by lia. reflexivity.
      * exact Ry.
  - fold s' in Hfin, Hcy. split; [|exact Hcy].
    replace (lin (- h) (y + 1) (- h)) with (lin (h + 1) y (- h)) by (unfold lin; lia).
    exact Hfin.
Qed.

(** The whole pass. *)
Lemma sample_grid_done : VInv (N * N * N) (sample_grid localToGlobal g f).
Proof.
  destruct (valid_dims g Hvalid) as (_ & Hh & HN). fold h N in Hh, HN.
  unfold sample_grid. fold h lowest.
  match goal with
  | |- VInv _ (for_le _ _ ?body ?s0) =>
      pose proof (for_le_inv
        (fun y t => VInv (lin (- h) y (- h)) t /\ vy (vs_call_pos t) = Y (y + h))
        body (- h) h s0) as L
  end.
  cbv beta in L. destruct L as (Hfin & _).
  - lia.
  - split.
    + unfold VInv. cbn [vs_idx vs_values vs_mat vs_trace].
      split; [unfold lin; lia|]. split; [|split; [|split; [|split; [|split]]]].
      * rewrite repeat_length, (dataSize_eq g Hvalid). fold N.
        rewrite Z2Nat.id; [reflexivity|]. nia.
      * destruct Hvalid as [_ _ _ _ Hm]. rewrite Hm. unfold N. ring.
      * intros j Hj. unfold lin in Hj. lia.
      * constructor.
      * intros j Hj. unfold lin in Hj. lia.
      * replace (lin (- h) (- h) (- h)) with 0 by (unfold lin; lia). reflexivity.
    + cbn [vs_call_pos vy]. unfold Y. replace (- h + h) with 0 by lia. reflexivity.
  - intros y t Hy (Hi & Hcy).
    pose proof (sample_slab y
      (mk_vstate (vs_idx t)
         (mk_dvec3 (vx lowest) (vy (vs_call_pos t)) (vz (vs_call_pos t)))
         (vs_values t) (vs_mat t) (vs_trace t))) as R.
    cbv zeta in R. destruct R as (Ri & Ry).
    + lia.
    + apply VInv_call_pos. exact Hi.
    + reflexivity.
    + exact Hcy.
    + cbn [vs_call_pos vx vy vz]. split.
      * apply VInv_call_pos. exact Ri.
      * rewrite Ry. replace (y + 1 + h) with (y + h + 1) by ring.
        unfold Y. rewrite iter_dadd_succ by lia. reflexivity.
  - replace (N * N * N) with (lin (- h) (h + 1) (- h)) by (unfold lin; lia).
    exact Hfin.
Qed.

Lemma sample_grid_spec :
  let s := sample_grid localToGlobal g f in
  Z.of_nat (List.length (vs_values s)) = N * N * N /\
  Z.of_nat (List.length (vs_mat s)) = N * N * N /\
  (forall x y z, inLattice g x y z ->
     let v := sampleValue localToGlobal g f x y z in
     vec_get (vs_values s) (pointToIndex g x y z) (d_of_int D 0) = v /\
     vec_get (vs_mat s) (pointToIndex g x y z) Empty
     = if d_gt0 v then Empty
       else sf_material f (samplePos localToGlobal g x y z) v) /\
  Forall (fun pv => d_gt0 (snd pv) = false /\ snd pv = sf_value f (fst pv))
         (vs_trace s) /\
  (forall x y z, inLattice g x y z ->
     d_gt0 (sampleValue localToGlobal g f x y z) = false ->
     In (samplePos localToGlobal g x y z, sampleValue localToGlobal g f x y z)
        (vs_trace s)).
Proof.
  intros s. destruct sample_grid_done as (_ & Hlv & Hlm & Hdone & Htr & Hcall & _).
  fold s in Hlv, Hlm, Hdone, Htr, Hcall.
  assert (Hj : forall x y z, inLattice g x y z ->
             0 <= pointToIndex g x y z < N * N * N /\
             Pspec (pointToIndex g x y z) = samplePos localToGlobal g x y z).
  { intros x y z Hin.
    destruct Hin as (Hx & Hy & Hz). fold h in Hx, Hy, Hz.
    rewrite (pointToIndex_closed g Hvalid) by assumption.
    split; [apply lin_range; assumption|apply Pspec_lin; assumption]. }
  split; [exact Hlv|]. split; [exact Hlm|]. split; [|split; [exact Htr|]].
  - intros x y z Hin v. destruct (Hj x y z Hin) as (Hr & Ep).
    destruct (Hdone _ Hr) as (Hv & Hm). unfold Mspec, Fspec in Hv, Hm.
    rewrite Ep in Hv, Hm. split; [exact Hv|exact Hm].
  - intros x y z Hin Hn. destruct (Hj x y z Hin) as (Hr & Ep).
    pose proof (Hcall _ Hr) as Hc. unfold Fspec in Hc. rewrite Ep in Hc.
    apply Hc. exact Hn.
Qed.

Lemma nth_zrange (n : nat) : forall lo i d,
  (i < n)%nat -> nth i (zrange lo n) d = lo + Z.of_nat i.
Proof.
  induction n as [|n IH]; intros lo [|i] d Hi; cbn [zrange nth]; try lia.
  rewrite IH by lia. lia.
Qed.

Lemma zrange_length (n : nat) : forall lo, List.length (zrange lo n) = n.
Proof. induction n as [|n IH]; intros lo; cbn [zrange List.length]; auto. Qed.

Lemma list_eq_map_zrange {A : Type} (l : list A) (F : Z -> A) (d : A) (n : nat) :
  List.length l = n ->
  (forall j, 0 <= j < Z.of_nat n -> vec_get l j d = F j) ->
  l = map F (zrange 0 n).
Proof.
  intros Hlen Hnth. apply (nth_ext _ _ d (F 0)).
  - now rewrite length_map, zrange_length.
  - intros i Hi. rewrite (map_nth F (zrange 0 n) 0 i), nth_zrange by lia.
    rewrite <- Hnth by lia. unfold vec_get. f_equal. lia.
Qed.

(** The result of the pass in closed form. *)
Lemma sample_grid_closed :
  let s := sample_grid localToGlobal g f in
  vs_values s
  = map (fun p => sampleValue localToGlobal g f (ix p) (iy p) (iz p))
        (gridVertices g) /\
  vs_mat s = map (materialAt localToGlobal g f) (gridVertices g) /\
  vs_trace s = flat_map (materialCalls localToGlobal g f) (gridVertices g).
Proof.
  intros s. destruct sample_grid_done as (_ & Hlv & Hlm & Hdone & _ & _ & Hex).
  fold s in Hlv, Hlm, Hdone, Hex.
  destruct (valid_dims g Hvalid) as (_ & Hh & HN). fold h N in Hh, HN.
  assert (HN3 : 0 <= N * N * N) by nia.
  unfold gridVertices. rewrite (dataSize_eq g Hvalid). fold N.
  rewrite !map_map, flat_map_concat_map, map_map, <- flat_map_concat_map.
  split; [|split].
  - apply (list_eq_map_zrange _ _ (d_of_int D 0)); [lia|].
    intros j Hj. apply Hdone. lia.
  - apply (list_eq_map_zrange _ _ Empty); [lia|].
    intros j Hj. apply Hdone. lia.
  - exact Hex.
Qed.

End Sampling.

(* ================================================================== *)
(** ** The edge scans of [fill] *)

Lemma in_flat_map3 {A : Type} (C : Z -> Z -> Z -> list A) (ys xs zs : list Z) (e : A) :
  In e (flat_map (fun y => flat_map (fun x => flat_map (fun z => C x y z) zs) xs) ys)
  <-> exists x y z, In y ys /\ In x xs /\ In z zs /\ In e (C x y z).
Proof.
  rewrite in_flat_map. split.
  - intros (y & Hy & H). apply in_flat_map in H. destruct H as (x & Hx & H).
    apply in_flat_map in H. destruct H as (z & Hz & H). now exists x, y, z.
  - intros (x & y & z & Hy & Hx & Hz & H). exists y. split; [exact Hy|].
    apply in_flat_map. exists x. split; [exact Hx|].
    apply in_flat_map. now exists z.
Qed.

Lemma NoDup_zrange (n : nat) : forall lo, NoDup (zrange lo n).
Proof.
  induction n as [|n IH]; intros lo; cbn [zrange]; constructor.
  - rewrite in_zrange. lia.
  - apply IH.
Qed.

(** Pieces whose keys project back to the element they come from keep the
    keys distinct when concatenated. *)
Lemma NoDup_flat_map_keys {A B K : Type} (key : B -> K) (proj : K -> A)
    (F : A -> list B) (l : list A) :
  NoDup l ->
  (forall a, In a l -> NoDup (map key (F a))) ->
  (forall a b, In b (F a) -> proj (key b) = a) ->
  NoDup (map key (flat_map F l)).
Proof.
  intros Hnd Hpiece Hproj. induction Hnd as [|a l Hnin Hnd IH]; cbn [flat_map].
  - constructor.
  - rewrite map_app. apply NoDup_app.
    + apply Hpiece. now left.
    + apply IH. intros a' Ha'. apply Hpiece. now right.
    + intros k H1 H2. apply in_map_iff in H1. destruct H1 as (b & <- & Hb).
      apply in_map_iff in H2. destruct H2 as (b' & E & Hb').
      apply in_flat_map in Hb'. destruct Hb' as (a' & Ha' & Hb').
      apply Hproj in Hb. apply Hproj in Hb'. rewrite E, Hb in Hb'.
      subst a'. contradiction.
Qed.

Section Scanning.

Context {D : DoubleOps}.
Variable localToGlobal : UniformGrid D -> dvec3 D -> dvec3 D.
Variable g : UniformGrid D.
Variable f : ScalarField D.
Variable solver : ZeroFinder D.
Variable values : list D.
Variable mat : list Material.
Hypothesis Hvalid : valid_grid g.

Let h := m_halfSize g.
Let N := m_size g + 1.
Let lin (x y z : Z) : Z := ((y + h) * N + (x + h)) * N + (z + h).

(** A loop whose body moves the two indices along known sequences [A] and
    [B] and appends [G i] collects [G] over the iterations. *)
Lemma for_range_collect (body : Z -> EState -> EState)
    (A B : Z -> Z) (G : Z -> list (EdgeEntry D)) :
  forall (n : nat) (lo : Z) (E0 : list (EdgeEntry D)),
    (forall i E, lo <= i < lo + Z.of_nat n ->
       body i (mk_estate (A i) (B i) E)
       = mk_estate (A (i + 1)) (B (i + 1)) (E ++ G i)) ->
    for_range lo n body (mk_estate (A lo) (B lo) E0)
    = mk_estate (A (lo + Z.of_nat n)) (B (lo + Z.of_nat n))
                (E0 ++ flat_map G (zrange lo n)).
Proof.
  induction n as [|n IH]; intros lo E0 Hbody.
  - simpl. now rewrite Z.add_0_r, app_nil_r.
  - cbn [for_range zrange flat_map]. rewrite Hbody by lia.
    rewrite IH by (intros i E Hi; apply Hbody; lia).
    rewrite <- app_assoc.
    replace (lo + Z.of_nat (S n)) with (lo + 1 + Z.of_nat n) by lia. reflexivity.
Qed.

Lemma lin_loose (x y z : Z) :
  - h <= x <= h + 1 -> - h <= y <= h + 1 -> - h <= z <= h + 1 ->
  0 <= lin x y z /\ lin x y z + N < U32_MOD.
Proof.
  intros Hx Hy Hz. destruct (valid_dims g Hvalid) as (_ & Hh & HN).
  fold h N in Hh, HN. unfold lin.
  assert (0 <= (y + h) * N <= N * N) by nia.
  assert (0 <= ((y + h) * N + (x + h)) * N <= (N * N + N) * N) by nia.
  assert (N * N <= 1025 * 1025) by nia.
  assert (N * N * N <= 1025 * 1025 * 1025) by (apply cube_le; lia).
  unfold U32_MOD. lia.
Qed.

Lemma lin_pointToIndex (x y z : Z) :
  - h <= x <= h -> - h <= y <= h -> - h <= z <= h ->
  lin x y z = pointToIndex g x y z.
Proof.
  intros Hx Hy Hz. now rewrite (pointToIndex_closed g Hvalid).
Qed.

Lemma scan_edge_X_emit (x y z i1 i2 : Z) (E : list (EdgeEntry D)) :
  scan_edge_X localToGlobal g f solver values mat x y z (mk_estate i1 i2 E)
  = mk_estate (u32_add i1 1) (u32_add i2 1)
      (E ++ es_edges (scan_edge_X localToGlobal g f solver values mat x y z
                        (mk_estate i1 i2 []))).
Proof.
  unfold scan_edge_X, addEdge. cbn [es_idx1 es_idx2 es_edges].
  destruct (negb _); [reflexivity|now rewrite app_nil_r].
Qed.

Lemma scan_edge_Y_emit (x y z i1 i2 : Z) (E : list (EdgeEntry D)) :
  scan_edge_Y localToGlobal g f solver values mat x y z (mk_estate i1 i2 E)
  = mk_estate (u32_add i1 1) (u32_add i2 1)
      (E ++ es_edges (scan_edge_Y localToGlobal g f solver values mat x y z
                        (mk_estate i1 i2 []))).
Proof.
  unfold scan_edge_Y, addEdge. cbn [es_idx1 es_idx2 es_edges].
  destruct (negb _); [reflexivity|now rewrite app_nil_r].
Qed.

Lemma scan_edge_Z_emit (x y z i1 i2 : Z) (E : list (EdgeEntry D)) :
  scan_edge_Z localToGlobal g f solver values mat x y z (mk_estate i1 i2 E)
  = mk_estate (u32_add i1 1) (u32_add i2 1)
      (E ++ es_edges (scan_edge_Z localToGlobal g f solver values mat x y z
                        (mk_estate i1 i2 []))).
Proof.
  unfold scan_edge_Z, addEdge. cbn [es_idx1 es_idx2 es_edges].
  destruct (negb _); [reflexivity|now rewrite app_nil_r].
Qed.

Let cr (a : Axis) (x y z : Z) : list (EdgeEntry D) :=
  crossing localToGlobal a g f solver values mat x y z.

Let full : list Z := zrange (- h) (Z.to_nat (h - - h + 1)).
Let short : list Z := zrange (- h) (Z.to_nat (h - - h)).

Ltac lin_arith := unfold lin; lia.

Ltac idx_step :=
  match goal with
  | |- u32_add (lin ?x ?y ?z) ?d = _ =>
      let B := fresh "B" in
      pose proof (lin_loose x y z ltac:(lia) ltac:(lia) ltac:(lia)) as B;
      rewrite u32_add_small by (rewrite ?(u32_N g Hvalid); fold N; lia);
      rewrite ?(u32_N g Hvalid); fold N; lin_arith
  end.

(** The scan along X visits every edge once, in scan order. *)
Lemma scan_X_eq :
  scan_X localToGlobal g f solver values mat
  = flat_map (fun y => flat_map (fun x => flat_map (fun z => cr AxisX x y z) full)
                                short) full.
Proof.
  destruct (valid_dims g Hvalid) as (_ & Hh & HN). fold h N in Hh, HN.
  unfold scan_X, for_le, for_lt. fold h.
  replace 0 with (lin (- h) (- h) (- h)) at 1 by lin_arith.
  replace (u32_add (m_size g) 1) with (lin (- h + 1) (- h) (- h)) at 1
    by (rewrite (u32_N g Hvalid); fold N; lin_arith).
  rewrite (for_range_collect _
             (fun y => lin (- h) y (- h)) (fun y => lin (- h + 1) y (- h))
             (fun y => flat_map (fun x => flat_map (fun z => cr AxisX x y z) full)
                                short)).
  { reflexivity. }
  intros y E Hy.
  rewrite (for_range_collect _
             (fun x => lin x y (- h)) (fun x => lin (x + 1) y (- h))
             (fun x => flat_map (fun z => cr AxisX x y z) full)).
  - unfold es_skip. cbn [es_idx1 es_idx2 es_edges]. f_equal; idx_step.
  - intros x E' Hx.
    replace (lin (x + 1 + 1) y (- h)) with (lin (x + 1) y (- h + Z.of_nat (Z.to_nat (h - - h + 1))))
      by lin_arith.
    replace (lin (x + 1) y (- h)) with (lin x y (- h + Z.of_nat (Z.to_nat (h - - h + 1)))) at 2
      by lin_arith.
    apply (for_range_collect _ (fun z => lin x y z) (fun z => lin (x + 1) y z)
             (fun z => cr AxisX x y z)).
    intros z E'' Hz. rewrite scan_edge_X_emit.
    unfold cr, crossing.
    rewrite <- !lin_pointToIndex by lia.
    f_equal; idx_step.
Qed.

(** The scan along Y. *)
Lemma scan_Y_eq :
  scan_Y localToGlobal g f solver values mat
  = flat_map (fun y => flat_map (fun x => flat_map (fun z => cr AxisY x y z) full)
                                full) short.
Proof.
  destruct (valid_dims g Hvalid) as (_ & Hh & HN). fold h N in Hh, HN.
  unfold scan_Y, for_le, for_lt. fold h.
  replace 0 with (lin (- h) (- h) (- h)) at 1 by lin_arith.
  replace (u32_mul (u32_add (m_size g) 1) (u32_add (m_size g) 1))
    with (lin (- h) (- h + 1) (- h)) at 1
    by (rewrite (u32_NN g Hvalid); fold N; lin_arith).
  rewrite (for_range_collect _
             (fun y => lin (- h) y (- h)) (fun y => lin (- h) (y + 1) (- h))
             (fun y => flat_map (fun x => flat_map (fun z => cr AxisY x y z) full)
                                full)).
  { reflexivity. }
  intros y E Hy.
  replace (lin (- h) (y + 1 + 1) (- h))
    with (lin (- h + Z.of_nat (Z.to_nat (h - - h + 1))) (y + 1) (- h)) by lin_arith.
  replace (lin (- h) (y + 1) (- h))
    with (lin (- h + Z.of_nat (Z.to_nat (h - - h + 1))) y (- h)) at 2 by lin_arith.
  apply (for_range_collect _
           (fun x => lin x y (- h)) (fun x => lin x (y + 1) (- h))
           (fun x => flat_map (fun z => cr AxisY x y z) full)).
  intros x E' Hx.
  replace (lin (x + 1) (y + 1) (- h))
    with (lin x (y + 1) (- h + Z.of_nat (Z.to_nat (h - - h + 1)))) by lin_arith.
  replace (lin (x + 1) y (- h))
    with (lin x y (- h + Z.of_nat (Z.to_nat (h - - h + 1)))) by lin_arith.
  apply (for_range_collect _ (fun z => lin x y z) (fun z => lin x (y + 1) z)
           (fun z => cr AxisY x y z)).
  intros z E'' Hz. rewrite scan_edge_Y_emit.
  unfold cr, crossing.
  rewrite <- !lin_pointToIndex by lia.
  f_equal; idx_step.
Qed.

(** The scan along Z. *)
Lemma scan_Z_eq :
  scan_Z localToGlobal g f solver values mat
  = flat_map (fun y => flat_map (fun x => flat_map (fun z => cr AxisZ x y z) short)
                                full) full.
Proof.
  destruct (valid_dims g Hvalid) as (_ & Hh & HN). fold h N in Hh, HN.
  unfold scan_Z, for_le, for_lt. fold h.
  replace (mk_estate 0 1 (@nil (EdgeEntry D)))
    with (mk_estate (lin (- h) (- h) (- h)) (lin (- h) (- h) (- h + 1))
                    (@nil (EdgeEntry D)))
    by (f_equal; lin_arith).
  rewrite (for_range_collect _
             (fun y => lin (- h) y (- h)) (fun y => lin (- h) y (- h + 1))
             (fun y => flat_map (fun x => flat_map (fun z => cr AxisZ x y z) short)
                                full)).
  { reflexivity. }
  intros y E Hy.
  replace (lin (- h) (y + 1) (- h))
    with (lin (- h + Z.of_nat (Z.to_nat (h - - h + 1))) y (- h)) by lin_arith.
  replace (lin (- h) (y + 1) (- h + 1))
    with (lin (- h + Z.of_nat (Z.to_nat (h - - h + 1))) y (- h + 1)) by lin_arith.
  apply (for_range_collect _
           (fun x => lin x y (- h)) (fun x => lin x y (- h + 1))
           (fun x => flat_map (fun z => cr AxisZ x y z) short)).
  intros x E' Hx.
  rewrite (for_range_collect _ (fun z => lin x y z) (fun z => lin x y (z + 1))
             (fun z => cr AxisZ x y z)).
  - unfold es_skip. cbn [es_idx1 es_idx2 es_edges]. f_equal; idx_step.
  - intros z E'' Hz. rewrite scan_edge_Z_emit.
    unfold cr, crossing.
    rewrite <- !lin_pointToIndex by lia.
    f_equal; idx_step.
Qed.

Lemma scan_In (a : Axis) (e : EdgeEntry D) :
  In e (match a with
        | AxisX => scan_X localToGlobal g f solver values mat
        | AxisY => scan_Y localToGlobal g f solver values mat
        | AxisZ => scan_Z localToGlobal g f solver values mat
        end)
  <-> exists x y z,
        edgeInLattice a g (mk_ivec3 x y z) /\
        In e (crossing localToGlobal a g f solver values mat x y z).
Proof.
  destruct (valid_dims g Hvalid) as (_ & Hh & HN). fold h N in Hh, HN.
  destruct a; [rewrite scan_X_eq|rewrite scan_Y_eq|rewrite scan_Z_eq];
    rewrite in_flat_map3; unfold full, short, cr, edgeInLattice;
    cbn [ix iy iz]; fold h;
    (split; intros (x & y & z & H); exists x, y, z).
  all: try (rewrite !in_zrange in H; split; [lia|tauto]).
  all: destruct H as (H & Hc); rewrite !in_zrange;
    repeat split; try lia; exact Hc.
Qed.

(** What a recorded entry holds, read off the innermost body. *)
Lemma crossing_In (a : Axis) (x y z : Z) (e : EdgeEntry D) :
  let p := mk_ivec3 x y z in
  let q := upperEnd a p in
  let i1 := pointToIndex_v g p in
  let i2 := pointToIndex_v g q in
  let v1 := vec_get values i1 (d_of_int D 0) in
  let v2 := vec_get values i2 (d_of_int D 0) in
  In e (crossing localToGlobal a g f solver values mat x y z) ->
  d_le0 v1 <> d_le0 v2 /\
  edgeKey e = p /\
  e_axis e = axisCode a /\
  e_solid e = d_le0 v1 /\
  e_mat e = (if d_le0 v1 then vec_get mat i1 Empty else vec_get mat i2 Empty) /\
  e_offset e
  = ddiv (dsub (finderCall localToGlobal a g f solver p v1 v2)
               (lowerBound localToGlobal a g p))
         (m_gridStep g).
Proof.
  intros p q i1 i2 v1 v2.
  destruct a; unfold crossing;
    [unfold scan_edge_X|unfold scan_edge_Y|unfold scan_edge_Z];
    unfold addEdge; cbn [es_idx1 es_idx2 es_edges app];
    subst v1 v2 i1 i2 q p; cbn [upperEnd pointToIndex_v ix iy iz];
    (destruct (Bool.eqb _ _) eqn:Eb; cbn [negb]; [intros []|]);
    (intros [<-|[]]); cbn [edgeKey e_x e_y e_z e_axis e_solid e_mat e_offset axisCode];
    apply eqb_false_iff in Eb;
    (split; [exact Eb|]); repeat (split; [reflexivity|]);
    reflexivity.
Qed.

Lemma crossing_exists (a : Axis) (x y z : Z) :
  let p := mk_ivec3 x y z in
  let q := upperEnd a p in
  let v1 := vec_get values (pointToIndex_v g p) (d_of_int D 0) in
  let v2 := vec_get values (pointToIndex_v g q) (d_of_int D 0) in
  d_le0 v1 <> d_le0 v2 ->
  exists e, In e (crossing localToGlobal a g f solver values mat x y z).
Proof.
  intros p q v1 v2 Hne. apply eqb_false_iff in Hne.
  destruct a; unfold crossing;
    [unfold scan_edge_X|unfold scan_edge_Y|unfold scan_edge_Z];
    unfold addEdge; cbn [es_idx1 es_idx2 es_edges app];
    subst v1 v2 q p; unfold pointToIndex_v in Hne;
    cbn [upperEnd ix iy iz] in Hne; rewrite Hne; cbn [negb]; eexists; left; reflexivity.
Qed.

Lemma crossing_key (a : Axis) (x y z : Z) (e : EdgeEntry D) :
  In e (crossing localToGlobal a g f solver values mat x y z) ->
  edgeKey e = mk_ivec3 x y z.
Proof.
  intros He. now destruct (crossing_In a x y z e He) as (_ & Hk & _).
Qed.

Lemma crossing_keys_NoDup (a : Axis) (x y z : Z) :
  NoDup (map edgeKey (crossing localToGlobal a g f solver values mat x y z)).
Proof.
  destruct a; unfold crossing;
    [unfold scan_edge_X|unfold scan_edge_Y|unfold scan_edge_Z];
    unfold addEdge; cbn [es_idx1 es_idx2 es_edges app];
    destruct (negb _); cbn [map]; repeat constructor; intros [].
Qed.

(** An edge scan records at most one entry per edge. *)
Lemma scan_keys_NoDup (a : Axis) :
  NoDup (map edgeKey
           (match a with
            | AxisX => scan_X localToGlobal g f solver values mat
            | AxisY => scan_Y localToGlobal g f solver values mat
            | AxisZ => scan_Z localToGlobal g f solver values mat
            end)).
Proof.
  assert (Hrow : forall zs, NoDup zs -> forall x y,
            NoDup (map edgeKey (flat_map (fun z => cr a x y z) zs))).
  { intros zs Hzs x y.
    apply (NoDup_flat_map_keys edgeKey iz); [exact Hzs| |].
    - intros z _. apply crossing_keys_NoDup.
    - intros z b Hb. apply crossing_key in Hb. now rewrite Hb. }
  assert (Hslab : forall xs zs, NoDup xs -> NoDup zs -> forall y,
            NoDup (map edgeKey
                     (flat_map (fun x => flat_map (fun z => cr a x y z) zs) xs))).
  { intros xs zs Hxs Hzs y.
    apply (NoDup_flat_map_keys edgeKey ix); [exact Hxs| |].
    - intros x _. now apply Hrow.
    - intros x b Hb. apply in_flat_map in Hb. destruct Hb as (z & _ & Hb).
      apply crossing_key in Hb. now rewrite Hb. }
  assert (Hall : forall ys xs zs, NoDup ys -> NoDup xs -> NoDup zs ->
            NoDup (map edgeKey
                     (flat_map (fun y => flat_map (fun x =>
                        flat_map (fun z => cr a x y z) zs) xs) ys))).
  { intros ys xs zs Hys Hxs Hzs.
    apply (NoDup_flat_map_keys edgeKey iy); [exact Hys| |].
    - intros y _. now apply Hslab.
    - intros y b Hb. apply in_flat_map in Hb. destruct Hb as (x & _ & Hb).
      apply in_flat_map in Hb. destruct Hb as (z & _ & Hb).
      apply crossing_key in Hb. now rewrite Hb. }
  destruct a; [rewrite scan_X_eq|rewrite scan_Y_eq|rewrite scan_Z_eq];
    apply Hall; apply NoDup_zrange.
Qed.

Lemma flat_map_length_le {A B : Type} (F : A -> list B) (l : list A) (k : nat) :
  (forall a, (List.length (F a) <= k)%nat) ->
  (List.length (flat_map F l) <= List.length l * k)%nat.
Proof.
  intros HF. induction l as [|a l IH]; cbn [flat_map List.length]; [lia|].
  rewrite length_app. specialize (HF a). lia.
Qed.

Lemma crossing_length (a : Axis) (x y z : Z) :
  (List.length (crossing localToGlobal a g f solver values mat x y z) <= 1)%nat.
Proof.
  destruct a; unfold crossing;
    [unfold scan_edge_X|unfold scan_edge_Y|unfold scan_edge_Z];
    unfold addEdge; cbn [es_idx1 es_idx2 es_edges app];
    destruct (negb _); cbn [List.length]; lia.
Qed.

(** An edge scan records at most as many entries as the grid has edges
    along the axis. *)
Lemma scan_length_le (a : Axis) :
  Z.of_nat (List.length
              (match a with
               | AxisX => scan_X localToGlobal g f solver values mat
               | AxisY => scan_Y localToGlobal g f solver values mat
               | AxisZ => scan_Z localToGlobal g f solver values mat
               end))
  <= m_size g * (m_size g + 1) * (m_size g + 1).
Proof.
  destruct (valid_dims g Hvalid) as (Hs & Hh & HN). fold h N in Hs, Hh, HN.
  assert (Hall : forall ys xs zs : list Z,
            (List.length
               (flat_map (fun y => flat_map (fun x =>
                  flat_map (fun z => cr a x y z) zs) xs) ys)
             <= List.length ys * (List.length xs * (List.length zs * 1)))%nat).
  { intros ys xs zs. apply flat_map_length_le. intros y.
    apply flat_map_length_le. intros x.
    apply flat_map_length_le. intros z. apply crossing_length. }
  assert (Hf : Z.of_nat (List.length full) = N)
    by (unfold full; rewrite zrange_length; lia).
  assert (Hsh : Z.of_nat (List.length short) = m_size g)
    by (unfold short; rewrite zrange_length; lia).
  destruct a;
    [rewrite scan_X_eq; pose proof (Hall full short full) as Hle
    |rewrite scan_Y_eq; pose proof (Hall short full full) as Hle
    |rewrite scan_Z_eq; pose proof (Hall full full short) as Hle];
    apply Nat2Z.inj_le in Hle; rewrite !Nat2Z.inj_mul, ?Hf, ?Hsh in Hle;
    fold N; nia.
Qed.

Lemma edge_ends_in_grid_local (a : Axis) (p : ivec3) :
  edgeInLattice a g p ->
  - h <= ix p <= h /\ - h <= iy p <= h /\ - h <= iz p <= h.
Proof.
  intros Hin. destruct a; unfold edgeInLattice in Hin; fold h in Hin; lia.
Qed.

Lemma StronglySorted_app (l1 l2 : list Z) :
  StronglySorted Z.lt l1 -> StronglySorted Z.lt l2 ->
  (forall u v, In u l1 -> In v l2 -> u < v) ->
  StronglySorted Z.lt (l1 ++ l2).
Proof.
  intros H1 H2 H12. induction H1 as [|u l1 Hs IH Hall]; cbn [app]; [exact H2|].
  constructor.
  - apply IH. intros u' v Hu Hv. apply H12; [now right|exact Hv].
  - apply Forall_app. split; [exact Hall|].
    apply Forall_forall. intros v Hv. apply H12; [now left|exact Hv].
Qed.

(** Blocks that are sorted and lie in consecutive intervals concatenate to
    a sorted list. *)
Lemma sorted_blocks {B : Type} (k : B -> Z) (F : Z -> list B) (lo : Z -> Z) :
  forall (n : nat) (a0 : Z),
    (forall a, a0 <= a < a0 + Z.of_nat n ->
       StronglySorted Z.lt (map k (F a)) /\
       Forall (fun b => lo a <= k b < lo (a + 1)) (F a)) ->
    (forall a, a0 <= a < a0 + Z.of_nat n -> lo a <= lo (a + 1)) ->
    StronglySorted Z.lt (map k (flat_map F (zrange a0 n))) /\
    Forall (fun b => lo a0 <= k b < lo (a0 + Z.of_nat n))
           (flat_map F (zrange a0 n)) /\
    lo a0 <= lo (a0 + Z.of_nat n).
Proof.
  induction n as [|n IH]; intros a0 Hblock Hmono.
  - cbn [zrange flat_map map]. rewrite Z.add_0_r.
    split; [constructor|]. split; [constructor|lia].
  - cbn [zrange flat_map]. rewrite map_app.
    destruct (Hblock a0 ltac:(lia)) as (Hs0 & Hb0).
    pose proof (Hmono a0 ltac:(lia)) as Hm0.
    destruct (IH (a0 + 1)) as (Hs & Hb & Hm).
    { intros a Ha. apply Hblock. lia. }
    { intros a Ha. apply Hmono. lia. }
    replace (a0 + Z.of_nat (S n)) with (a0 + 1 + Z.of_nat n) by lia.
    rewrite Forall_forall in Hb0, Hb.
    split; [|split; [|lia]].
    + apply StronglySorted_app; [exact Hs0|exact Hs|].
      intros u v Hu Hv. apply in_map_iff in Hu. destruct Hu as (b & <- & Hb1).
      apply in_map_iff in Hv. destruct Hv as (b' & <- & Hb2).
      specialize (Hb0 b Hb1). specialize (Hb b' Hb2). lia.
    + apply Forall_app. split; apply Forall_forall; intros b Hbin.
      * specialize (Hb0 b Hbin). lia.
      * specialize (Hb b Hbin). lia.
Qed.

Let klin (e : EdgeEntry D) : Z := lin (e_x e) (e_y e) (e_z e).

Lemma sorted_nested (a : Axis) (ny nx nz : nat) :
  (Z.of_nat nx <= N) -> (Z.of_nat nz <= N) ->
  StronglySorted Z.lt
    (map klin
       (flat_map (fun y => flat_map (fun x => flat_map (fun z => cr a x y z)
                                                       (zrange (- h) nz))
                                    (zrange (- h) nx))
                 (zrange (- h) ny))).
Proof.
  intros Hnx Hnz.
  destruct (valid_dims g Hvalid) as (_ & Hh & HN). fold h N in Hh, HN.
  assert (Hrow : forall x y,
            StronglySorted Z.lt
              (map klin (flat_map (fun z => cr a x y z) (zrange (- h) nz))) /\
            Forall (fun b => lin x y (- h) <= klin b < lin (x + 1) y (- h))
                   (flat_map (fun z => cr a x y z) (zrange (- h) nz))).
  { intros x y.
    destruct (sorted_blocks klin (fun z => cr a x y z) (fun z => lin x y z)
                nz (- h)) as (Hs & Hb & _).
    - intros z _. split.
      + pose proof (crossing_length a x y z) as Hl. fold (cr a x y z) in Hl.
        destruct (cr a x y z) as [|e [|e' l]]; cbn [List.length map] in *;
          try lia; repeat constructor.
      + apply Forall_forall. intros b Hb. apply crossing_key in Hb.
        unfold klin. injection Hb as -> -> ->. unfold lin. lia.
    - intros z _. unfold lin. lia.
    - split; [exact Hs|]. eapply Forall_impl; [|exact Hb].
      cbv beta. intros b Hbb. unfold lin in *. nia. }
  assert (Hslab : forall y,
            StronglySorted Z.lt
              (map klin (flat_map (fun x => flat_map (fun z => cr a x y z)
                                                     (zrange (- h) nz))
                                  (zrange (- h) nx))) /\
            Forall (fun b => lin (- h) y (- h) <= klin b < lin (- h) (y + 1) (- h))
                   (flat_map (fun x => flat_map (fun z => cr a x y z)
                                                (zrange (- h) nz))
                             (zrange (- h) nx))).
  { intros y.
    destruct (sorted_blocks klin
                (fun x => flat_map (fun z => cr a x y z) (zrange (- h) nz))
                (fun x => lin x y (- h)) nx (- h)) as (Hs & Hb & _).
    - intros x _. apply Hrow.
    - intros x _. unfold lin. nia.
    - split; [exact Hs|]. eapply Forall_impl; [|exact Hb].
      cbv beta. intros b Hbb. unfold lin in *. nia. }
  apply (sorted_blocks klin
           (fun y => flat_map (fun x => flat_map (fun z => cr a x y z)
                                                 (zrange (- h) nz))
                              (zrange (- h) nx))
           (fun y => lin (- h) y (- h)) ny (- h)).
  - intros y _. apply Hslab.
  - intros y _. unfold lin. nia.
Qed.

(** An edge scan records its entries in increasing order of the index of
    their lower endpoint. *)
Lemma scan_sorted (a : Axis) :
  StronglySorted Z.lt
    (map (fun e => pointToIndex_v g (edgeKey e))
         (match a with
          | AxisX => scan_X localToGlobal g f solver values mat
          | AxisY => scan_Y localToGlobal g f solver values mat
          | AxisZ => scan_Z localToGlobal g f solver values mat
          end)).
Proof.
  destruct (valid_dims g Hvalid) as (Hs & Hh & HN). fold h N in Hs, Hh, HN.
  assert (E : map (fun e => pointToIndex_v g (edgeKey e))
                (match a with
                 | AxisX => scan_X localToGlobal g f solver values mat
                 | AxisY => scan_Y localToGlobal g f solver values mat
                 | AxisZ => scan_Z localToGlobal g f solver values mat
                 end)
              = map klin
                (match a with
                 | AxisX => scan_X localToGlobal g f solver values mat
                 | AxisY => scan_Y localToGlobal g f solver values mat
                 | AxisZ => scan_Z localToGlobal g f solver values mat
                 end)).
  { apply map_ext_in. intros e He. apply scan_In in He.
    destruct He as (x & y & z & Hin & Hc). apply crossing_key in Hc.
    destruct (edge_ends_in_grid_local a _ Hin) as (Hx & Hy & Hz).
    rewrite Hc. unfold klin, pointToIndex_v, edgeKey in *.
    injection Hc as -> -> ->. cbn [ix iy iz].
    symmetry. apply lin_pointToIndex; assumption. }
  rewrite E.
  destruct a; [rewrite scan_X_eq|rewrite scan_Y_eq|rewrite scan_Z_eq];
    unfold full, short; apply sorted_nested; lia.
Qed.

End Scanning.

(* ================================================================== *)
(** ** [fill]: materials and crossings *)

Lemma d_le0_not_gt0 {D : DoubleOps} (v : D) : d_le0 v = true -> d_gt0 v = false.
Proof. unfold d_le0, d_gt0. destruct (dcmp0 v); congruence. Qed.

Section FillFacts.

Context {D : DoubleOps}.
Variable localToGlobal : UniformGrid D -> dvec3 D -> dvec3 D.
Variable g : UniformGrid D.
Variable f : ScalarField D.
Variable solver : ZeroFinder D.
Hypothesis Hvalid : valid_grid g.

Lemma fill_valid : valid_grid (fst (fill localToGlobal g f solver)).
Proof.
  destruct (sample_grid_spec localToGlobal g f Hvalid) as (_ & Hm & _).
  destruct Hvalid as [Hlo Hhi Hp Hh _].
  constructor; cbn [fill fst m_size m_halfSize m_mat]; try assumption.
  rewrite Hm. ring.
Qed.

Lemma at_vec_get (x y z : Z) :
  inLattice g x y z ->
  at_ g x y z = Ok (vec_get (m_mat g) (pointToIndex g x y z) Empty).
Proof.
  intros Hr. destruct (read_mat_vertex g Hvalid x y z Hr) as (m & _ & Hm).
  unfold at_, pointToIndex_checked.
  rewrite (isVertexInGrid_of_range g x y z Hr). cbn [negb]. rewrite Hm.
  unfold vec_get. now rewrite (nth_error_nth _ _ _ Hm).
Qed.

(** Both ends of an edge that [isEdgeInGrid<axis>] accepts pass
    [isVertexInGrid]: the tests across the axis are the same, and the test
    along the axis is a range. *)
Lemma edge_ends_in_grid (a : Axis) (p : ivec3) :
  isEdgeInGrid a g p = true ->
  isVertexInGrid g (ix p) (iy p) (iz p) = true /\
  isVertexInGrid g (ix (upperEnd a p)) (iy (upperEnd a p)) (iz (upperEnd a p)) = true.
Proof.
  intros Hin. apply (isEdgeInGrid_abs g) in Hin.
  rewrite !(isVertexInGrid_abs g).
  destruct a; cbn [upperEnd ix iy iz]; destruct Hin as (H1 & H2 & H3);
    repeat split; try assumption; apply glm_abs_le_range; lia.
Qed.

Lemma edge_ends_in_lattice (a : Axis) (p : ivec3) :
  edgeInLattice a g p ->
  inLattice g (ix p) (iy p) (iz p) /\
  inLattice g (ix (upperEnd a p)) (iy (upperEnd a p)) (iz (upperEnd a p)).
Proof.
  intros Hin. unfold inLattice.
  destruct a; unfold edgeInLattice in Hin; cbn [upperEnd ix iy iz]; lia.
Qed.

End FillFacts.

(** C5.  After [fill], every lattice vertex whose sampled value is [> 0]
    holds [Empty] and every vertex whose sampled value is [<= 0] holds what
    [f.material] returned for that point and value; [f.material] is called
    for no value that is [> 0], and it is called for every vertex whose
    value is [<= 0].  The lattice vertices are the coordinates that
    [isVertexInGrid] accepts and that have no component [INT32_MIN], which
    is no coordinate of the lattice. *)
Theorem fill_materials {D : DoubleOps}
    (localToGlobal : UniformGrid D -> dvec3 D -> dvec3 D)
    (g : UniformGrid D) (f : ScalarField D) (solver : ZeroFinder D) :
  valid_grid g ->
  let g' := fst (fill localToGlobal g f solver) in
  let trace := snd (fill localToGlobal g f solver) in
  (forall x y z,
     negatable3 x y z = true -> isVertexInGrid g x y z = true ->
     let p := samplePos localToGlobal g x y z in
     let v := sampleValue localToGlobal g f x y z in
     (d_gt0 v = true -> at_ g' x y z = Ok Empty) /\
     (d_le0 v = true -> at_ g' x y z = Ok (sf_material f p v) /\ In (p, v) trace) /\
     at_ g' x y z = Ok (if d_gt0 v then Empty else sf_material f p v)) /\
  Forall (fun pv => d_gt0 (snd pv) = false /\ snd pv = sf_value f (fst pv)) trace.
Proof.
  intros V g' trace.
  destruct (sample_grid_spec localToGlobal g f V) as (_ & _ & Hdone & Htr & Hcall).
  pose proof (fill_valid localToGlobal g f solver V) as V'. fold g' in V'.
  split; [|exact Htr].
  intros x y z Hneg Hin p v.
  apply (isVertexInGrid_iff g _ _ _ Hneg) in Hin.
  assert (Hat : at_ g' x y z = Ok (if d_gt0 v then Empty else sf_material f p v)).
  { rewrite (at_vec_get g' V') by exact Hin.
    destruct (Hdone x y z Hin) as (_ & Hm). f_equal. exact Hm. }
  split; [|split; [|exact Hat]].
  - intros Hgt. now rewrite Hat, Hgt.
  - intros Hle. pose proof (d_le0_not_gt0 v Hle) as Hn. split.
    + now rewrite Hat, Hn.
    + apply Hcall; assumption.
Qed.

(** C1.  For each axis, [fill] records an entry for a lattice edge exactly
    when the edge is in the grid and its two endpoint values disagree under
    [value <= 0], and then only one; the flag of a recorded entry says whether the lower
    endpoint is inside, and its material is the one stored at the inside
    endpoint: the lower one when its value is [<= 0], the upper one
    otherwise.  The lattice edges are the positions that
    [isEdgeInGrid<axis>] accepts and that have no component [INT32_MIN],
    which is no coordinate of the lattice. *)
Theorem fill_crossings {D : DoubleOps}
    (localToGlobal : UniformGrid D -> dvec3 D -> dvec3 D)
    (g : UniformGrid D) (f : ScalarField D) (solver : ZeroFinder D) :
  valid_grid g ->
  let g' := fst (fill localToGlobal g f solver) in
  let ins (p : ivec3) := inside localToGlobal g f (ix p) (iy p) (iz p) in
  forall a : Axis,
    (forall p : ivec3,
       (exists e, In e (edgesOf a g') /\ edgeKey e = p) <->
       (negatable_v p = true /\ isEdgeInGrid a g p = true /\
        ins p <> ins (upperEnd a p))) /\
    NoDup (map edgeKey (edgesOf a g')) /\
    (forall e, In e (edgesOf a g') ->
       let p := edgeKey e in
       let w := if ins p then p else upperEnd a p in
       e_axis e = axisCode a /\
       ins w = true /\
       e_solid e = ins p /\
       at_ g' (ix w) (iy w) (iz w) = Ok (e_mat e)).
Proof.
  intros V g' ins a.
  destruct (sample_grid_spec localToGlobal g f V) as (_ & _ & Hdone & _ & _).
  pose proof (fill_valid localToGlobal g f solver V) as V'. fold g' in V'.
  set (values := vs_values (sample_grid localToGlobal g f)) in *.
  set (mat := vs_mat (sample_grid localToGlobal g f)) in *.
  assert (Hedges : forall e, In e (edgesOf a g') <->
            exists x y z, edgeInLattice a g (mk_ivec3 x y z) /\
              In e (crossing localToGlobal a g f solver values mat x y z)).
  { intros e. rewrite <- (scan_In localToGlobal g f solver values mat V a e).
    destruct a; reflexivity. }
  assert (Hval : forall p, inLattice g (ix p) (iy p) (iz p) ->
            d_le0 (vec_get values (pointToIndex_v g p) (d_of_int D 0)) = ins p).
  { intros p Hp. destruct (Hdone _ _ _ Hp) as (Hv & _).
    unfold pointToIndex_v. fold values in Hv. rewrite Hv. reflexivity. }
  split; [|split].
  - intros p. split.
    + intros (e & He & Hk). apply Hedges in He.
      destruct He as (x & y & z & Hin & Hc).
      destruct (crossing_In localToGlobal g f solver values mat a x y z e Hc)
        as (Hne & Hkey & _).
      rewrite Hkey in Hk. subst p.
      split; [exact (edge_negatable g V a _ Hin)|].
      split; [exact (isEdgeInGrid_of_range g a _ Hin)|].
      destruct (edge_ends_in_lattice g a _ Hin) as (Hp & Hq).
      rewrite <- !Hval by assumption. exact Hne.
    + intros (Hn & Hin & Hne). destruct p as [x y z].
      apply (isEdgeInGrid_iff g a _ Hn) in Hin.
      destruct (edge_ends_in_lattice g a _ Hin) as (Hp & Hq).
      rewrite <- !Hval in Hne by assumption.
      destruct (crossing_exists localToGlobal g f solver values mat a x y z Hne)
        as (e & He).
      exists e. split.
      * apply Hedges. exists x, y, z. split; assumption.
      * now destruct (crossing_In localToGlobal g f solver values mat a x y z e He)
          as (_ & Hkey & _).
  - pose proof (scan_keys_NoDup localToGlobal g f solver values mat V a) as Hnd.
    destruct a; exact Hnd.
  - intros e He p w. apply Hedges in He.
    destruct He as (x & y & z & Hin & Hc).
    destruct (crossing_In localToGlobal g f solver values mat a x y z e Hc)
      as (Hne & Hkey & Hax & Hsolid & Hmat & _).
    destruct (edge_ends_in_lattice g a _ Hin) as (Hp & Hq).
    pose proof (Hval _ Hp) as E1. pose proof (Hval _ Hq) as E2.
    rewrite E1 in Hsolid, Hmat. rewrite E1, E2 in Hne.
    subst w p. rewrite Hkey. split; [exact Hax|].
    destruct (ins (mk_ivec3 x y z)) eqn:E.
    + split; [exact E|]. split; [exact Hsolid|].
      rewrite (at_vec_get g' V') by exact Hp. f_equal. now rewrite Hmat.
    + split; [destruct (ins (upperEnd a (mk_ivec3 x y z))); congruence|].
      split; [exact Hsolid|].
      rewrite (at_vec_get g' V') by exact Hq. f_equal. now rewrite Hmat.
Qed.

(* ================================================================== *)
(** ** [fill]: the recorded offsets *)

Lemma offset_bounds (lo step r : Q) :
  ~ (step == 0)%Q -> betweenQ lo (lo + step)%Q r ->
  (0 <= (r - lo) / step)%Q /\ ((r - lo) / step <= 1)%Q /\
  (((r - lo) / step < 1)%Q <-> ~ (r == lo + step)%Q).
Proof.
  intros Hs Hb.
  assert (Ht : ((r - lo) / step * step == r - lo)%Q) by (field; exact Hs).
  set (t := ((r - lo) / step)%Q) in *.
  destruct (Q_dec step 0) as [[Hneg|Hpos]|Hz]; [| |contradiction].
  - destruct Hb as [[H1 H2]|[H1 H2]].
    + exfalso. lra.
    + repeat split; nra.
  - destruct Hb as [[H1 H2]|[H1 H2]].
    + repeat split; nra.
    + exfalso. lra.
Qed.

Lemma snap_between (lo hi v0 v1 : Q) : betweenQ lo hi (snap lo hi v0 v1).
Proof.
  unfold snap, betweenQ.
  destruct (Qlt_le_dec lo hi) as [L|L];
    destruct (Qeq_bool v1 0); try destruct (Qeq_bool v0 0); lra.
Qed.

Lemma snapFinder_between : finderBetween snapFinder.
Proof.
  intros a lo hi r (c1 & c2 & v1 & v2 & f & ->).
  destruct a; apply snap_between.
Qed.

(** A finder that keeps its contract on every call keeps it on the calls
    [fill] makes. *)
Lemma finderBetween_roots
    (localToGlobal : UniformGrid QOps -> dvec3 QOps -> dvec3 QOps)
    (g : UniformGrid QOps) (f : ScalarField QOps) (solver : ZeroFinder QOps) :
  finderBetween solver -> rootsBetween localToGlobal g f solver.
Proof.
  intros Hb a p _ _ _. apply (Hb a).
  unfold finderAnswer, edgeRoot, finderCall, upperBound, lowerBound.
  destruct a; cbn [vcoord]; do 5 eexists; reflexivity.
Qed.

Section Offsets.

Context {D : DoubleOps}.
Variable localToGlobal : UniformGrid D -> dvec3 D -> dvec3 D.
Variable g : UniformGrid D.
Variable f : ScalarField D.
Variable solver : ZeroFinder D.
Hypothesis Hvalid : valid_grid g.

(** What the scans store, for every arithmetic: each entry belongs to a
    lattice edge whose endpoint values disagree, and its offset is computed
    from the root of that edge's own finder call and the lower bound of
    that call. *)
Lemma fill_offset_eq (a : Axis) (e : EdgeEntry D) :
  In e (edgesOf a (fst (fill localToGlobal g f solver))) ->
  let p := edgeKey e in
  edgeInLattice a g p /\
  inside localToGlobal g f (ix p) (iy p) (iz p)
  <> inside localToGlobal g f (ix (upperEnd a p)) (iy (upperEnd a p))
       (iz (upperEnd a p)) /\
  e_offset e
  = ddiv (dsub (edgeRoot localToGlobal a g f solver p)
               (lowerBound localToGlobal a g p))
         (m_gridStep g).
Proof.
  intros He p.
  destruct (sample_grid_spec localToGlobal g f Hvalid) as (_ & _ & Hdone & _ & _).
  assert (Hs : In e (match a with
      | AxisX => scan_X localToGlobal g f solver
                   (vs_values (sample_grid localToGlobal g f))
                   (vs_mat (sample_grid localToGlobal g f))
      | AxisY => scan_Y localToGlobal g f solver
                   (vs_values (sample_grid localToGlobal g f))
                   (vs_mat (sample_grid localToGlobal g f))
      | AxisZ => scan_Z localToGlobal g f solver
                   (vs_values (sample_grid localToGlobal g f))
                   (vs_mat (sample_grid localToGlobal g f))
      end)) by (destruct a; exact He).
  apply (scan_In localToGlobal g f solver _ _ Hvalid) in Hs.
  destruct Hs as (x & y & z & Hin & Hc).
  destruct (crossing_In localToGlobal g f solver _ _ a x y z e Hc)
    as (Hne & Hkey & _ & _ & _ & Hoff).
  destruct (edge_ends_in_lattice g a _ Hin) as (Hp & Hq).
  destruct (Hdone _ _ _ Hp) as (E1 & _). destruct (Hdone _ _ _ Hq) as (E2 & _).
  unfold pointToIndex_v in Hne, Hoff. rewrite E1, E2 in Hne, Hoff.
  subst p. rewrite Hkey.
  split; [exact Hin|]. split; [exact Hne|exact Hoff].
Qed.

End Offsets.

Lemma stepGrid64_valid : valid_grid stepGrid64.
Proof.
  constructor; cbn [stepGrid64 m_size m_halfSize m_mat].
  - lia.
  - lia.
  - exists 1. split; [lia|reflexivity].
  - reflexivity.
  - reflexivity.
Qed.

(** C6, as the code has it.  [fill] stores the offset unclamped: for every
    arithmetic, each recorded offset is [(root - lower) / gridStep], where
    [lower] is the coordinate of the entry's own lower endpoint, which is
    the first bound of the finder call [fill] makes for that edge, and
    [root] is the answer to that call.  In exact arithmetic, with a
    non-zero grid step and roots that lie between the bounds of their
    calls, ends included, the offset lies in the closed interval [0, 1] and
    is below 1 exactly when the root is not the upper bound.  In binary64
    even that bound is lost to rounding: on the grid of size 2 at
    [(0.3, 0, 0)] with step [0.1], a root equal to the upper bound of its
    call is stored as an offset above 1. *)
Theorem fill_offsets :
  (forall (D : DoubleOps)
          (localToGlobal : UniformGrid D -> dvec3 D -> dvec3 D)
          (g : UniformGrid D) (f : ScalarField D) (solver : ZeroFinder D),
     valid_grid g ->
     forall (a : Axis) (e : EdgeEntry D),
       In e (edgesOf a (fst (fill localToGlobal g f solver))) ->
       e_offset e
       = ddiv (dsub (edgeRoot localToGlobal a g f solver (edgeKey e))
                    (lowerBound localToGlobal a g (edgeKey e)))
              (m_gridStep g)) /\
  (forall (localToGlobal : UniformGrid QOps -> dvec3 QOps -> dvec3 QOps)
          (g : UniformGrid QOps) (f : ScalarField QOps) (solver : ZeroFinder QOps),
     valid_grid g ->
     ~ (m_gridStep g == 0)%Q ->
     rootsBetween localToGlobal g f solver ->
     forall (a : Axis) (e : EdgeEntry QOps),
       In e (edgesOf a (fst (fill localToGlobal g f solver))) ->
       (0 <= e_offset e)%Q /\ (e_offset e <= 1)%Q /\
       ((e_offset e < 1)%Q <->
        ~ (edgeRoot localToGlobal a g f solver (edgeKey e)
           == upperBound localToGlobal a g (edgeKey e))%Q)) /\
  (valid_grid stepGrid64 /\
   exists e : EdgeEntry F64Ops,
     In e (edgesOf AxisX (fst (fill localToGlobal_std stepGrid64 stepField64
                                      snapFinder64))) /\
     offsetAboveOne64 e = true).
Proof.
  split; [|split].
  - intros D localToGlobal g f solver V a e He.
    now destruct (fill_offset_eq localToGlobal g f solver V a e He) as (_ & _ & E).
  - intros localToGlobal g f solver V Hstep Hroots a e He.
    destruct (fill_offset_eq localToGlobal g f solver V a e He)
      as (Hin & Hne & Hoff).
    change (@ddiv QOps) with Qdiv in Hoff. change (@dsub QOps) with Qminus in Hoff.
    rewrite Hoff. unfold upperBound. change (@dadd QOps) with Qplus.
    apply offset_bounds; [exact Hstep|].
    apply (Hroots a (edgeKey e)); [|now apply isEdgeInGrid_of_range|exact Hne].
    exact (edge_negatable g V a _ Hin).
  - split; [exact stepGrid64_valid|].
    apply existsb_exists. vm_compute. reflexivity.
Qed.

(* ================================================================== *)
(** ** The concrete grid *)

Lemma demoGrid_valid (D : DoubleOps) : valid_grid (demoGrid D).
Proof.
  constructor; cbn [demoGrid m_size m_halfSize m_mat].
  - lia.
  - lia.
  - exists 1. split; [lia|reflexivity].
  - reflexivity.
  - reflexivity.
Defined.

Example demoGrid_constructed :
  UniformGrid_new (D := QOps) 2 (mk_dvec3 (D := QOps) (inject_Z 0) (inject_Z 0) (inject_Z 0))
                  (inject_Z 1)
  = inr (demoGrid QOps).
Proof. reflexivity. Qed.

(** C6 as stated fails.  On the grid of size 2 with the half space
    [x >= 0], the upper endpoint of every edge from [x = -1] to [x = 0] has
    value exactly zero, so it counts as inside and the zero lies on it: the
    finder stays within its bounds and the recorded offset is 1. *)
Lemma fill_offsets_counterexample :
  valid_grid (demoGrid QOps) /\
  finderBetween snapFinder /\
  exists e : EdgeEntry QOps,
    In e (edgesOf AxisX (fst (fill localToGlobal_std (demoGrid QOps)
                                   (slabField QOps) snapFinder))) /\
    ~ (e_offset e < 1)%Q.
Proof.
  split; [apply demoGrid_valid|]. split; [apply snapFinder_between|].
  exists (mk_edge (D := QOps) (-1) (-1) (-1)
            (mk_dvec3 (D := QOps) (inject_Z (-1)) (inject_Z 0) (inject_Z 0))
            (inject_Z 1) 0 false Stone).
  split.
  - vm_compute. left. reflexivity.
  - cbn [e_offset]. unfold Qlt. simpl. lia.
Qed.

(** The same input in binary64: the recorded offset is [1.0]. *)
Example fill_offsets_binary64 :
  map (fun e : EdgeEntry F64Ops => PrimFloat.ltb (e_offset e) 1%float)
      (edgesOf AxisX (fst (fill localToGlobal_std (demoGrid F64Ops)
                                (slabField F64Ops) snapFinder64)))
  = repeat false 9.
Proof. vm_compute. reflexivity. Qed.

(* ================================================================== *)
(** ** The theorems at the concrete grid *)

Lemma UniformGrid_new_spec_witness :
  0 <= 2 < U32_MOD /\
  exists g : UniformGrid QOps,
    UniformGrid_new 2 (mk_dvec3 (D := QOps) (inject_Z 0) (inject_Z 0) (inject_Z 0)) (inject_Z 1)
    = inr g /\
    m_size g = 2 /\ m_halfSize g = 1 /\
    Z.of_nat (List.length (m_mat g)) = 27.
Proof.
  assert (H : 0 <= 2 < U32_MOD) by (unfold U32_MOD; lia).
  split; [exact H|].
  destruct (UniformGrid_new_spec (D := QOps) 2
              (mk_dvec3 (D := QOps) (inject_Z 0) (inject_Z 0) (inject_Z 0)) (inject_Z 1) H)
    as (_ & _ & _ & _ & _ & Hok).
  apply Hok; [exists 1; split; [lia|reflexivity]|lia].
Defined.

Lemma pointToIndex_bijection_witness :
  valid_grid (demoGrid QOps) /\
  pointToIndex (demoGrid QOps) 1 (-1) 0 = 7 /\
  indexToPoint (demoGrid QOps) (pointToIndex (demoGrid QOps) 1 (-1) 0)
  = mk_ivec3 1 (-1) 0.
Proof.
  split; [apply demoGrid_valid|].
  destruct (pointToIndex_bijection (demoGrid QOps) (demoGrid_valid QOps))
    as (H & _ & _).
  destruct (H 1 (-1) 0) as (E & _ & R).
  - cbn [demoGrid m_halfSize]. lia.
  - split; [exact E|exact R].
Defined.

Lemma at_within_bounds_witness :
  valid_grid (demoGrid QOps) /\
  negatable3 1 (-1) 0 = true /\
  isVertexInGrid (demoGrid QOps) 1 (-1) 0 = true /\
  (exists m, at_ (demoGrid QOps) 1 (-1) 0 = Ok m) /\
  isVertexInGrid (demoGrid QOps) INT32_MIN 0 0 = true /\
  pointToIndex (demoGrid QOps) INT32_MIN 0 0 = 2147483661 /\
  (m_size (demoGrid QOps) + 1) ^ 3 = 27 /\
  at_ (demoGrid QOps) INT32_MIN 0 0 = OutOfBounds.
Proof.
  split; [apply demoGrid_valid|]. split; [reflexivity|]. split; [reflexivity|].
  destruct (at_within_bounds (demoGrid QOps) (demoGrid_valid QOps))
    as (H & _ & Hmin & _ & Hat).
  split.
  - destruct (H 1 (-1) 0 eq_refl eq_refl) as (_ & _ & m & Hm & _).
    exists m. exact Hm.
  - split; [exact Hmin|]. split; [reflexivity|]. split; [reflexivity|exact Hat].
Defined.

Lemma adjacentVerticesForCell_spec_witness :
  valid_grid (demoGrid QOps) /\
  isCellInGrid (demoGrid QOps) (mk_ivec3 0 0 0) = true /\
  NoDup (adjacentVerticesForCell (demoGrid QOps)
           (pointToIndex_v (demoGrid QOps) (mk_ivec3 0 0 0))) /\
  exists mats,
    materialsOfCell (demoGrid QOps) (pointToIndex_v (demoGrid QOps) (mk_ivec3 0 0 0))
    = Ok mats.
Proof.
  split; [apply demoGrid_valid|]. split; [reflexivity|].
  destruct (adjacentVerticesForCell_spec (demoGrid QOps) (mk_ivec3 0 0 0)
              (demoGrid_valid QOps) eq_refl)
    as (_ & _ & Hnd & _ & mats & Hm & _).
  split; [exact Hnd|]. exists mats. exact Hm.
Defined.

Lemma adjacentCellsForEdge_spec_witness :
  valid_grid (demoGrid QOps) /\
  (m_size (demoGrid QOps) + 1) ^ 3 <= 4294967295 /\
  negatable_v (mk_ivec3 (-1) (-1) 0) = true /\
  isEdgeInGrid AxisX (demoGrid QOps) (mk_ivec3 (-1) (-1) 0) = true /\
  List.length (adjacentCellsForEdge 4294967295 AxisX (demoGrid QOps)
                 (mk_ivec3 (-1) (-1) 0)) = 4%nat /\
  isEdgeInGrid AxisX (demoGrid QOps) (mk_ivec3 0 INT32_MIN 0) = true /\
  adjacentCellsForEdge 4294967295 AxisX (demoGrid QOps) (mk_ivec3 0 INT32_MIN 0)
  = [2147483651; 2147483660; 2147483661; 2147483652].
Proof.
  split; [apply demoGrid_valid|].
  assert (Hk : (m_size (demoGrid QOps) + 1) ^ 3 <= 4294967295)
    by (cbn [demoGrid m_size]; lia).
  split; [exact Hk|]. split; [reflexivity|]. split; [reflexivity|].
  pose proof (adjacentCellsForEdge_spec 4294967295 (demoGrid QOps)
                (demoGrid_valid QOps) Hk) as H.
  cbv zeta in H. destruct H as (H & Hin & _ & Hcells & _).
  split.
  - destruct (H AxisX (mk_ivec3 (-1) (-1) 0) eq_refl eq_refl) as (Hlen & _).
    exact Hlen.
  - split; [exact Hin|]. rewrite Hcells. reflexivity.
Defined.

Lemma fill_materials_witness :
  valid_grid (demoGrid QOps) /\
  at_ (fst (fill localToGlobal_std (demoGrid QOps) (slabField QOps) snapFinder))
      0 0 0 = Ok Stone /\
  at_ (fst (fill localToGlobal_std (demoGrid QOps) (slabField QOps) snapFinder))
      (-1) 0 0 = Ok Empty.
Proof.
  split; [apply demoGrid_valid|].
  pose proof (fill_materials localToGlobal_std (demoGrid QOps) (slabField QOps)
                snapFinder (demoGrid_valid QOps)) as H.
  cbv zeta in H. destruct H as (H & _).
  split.
  - pose proof (H 0 0 0 eq_refl eq_refl) as H0. cbv zeta in H0.
    destruct H0 as (_ & _ & Hat). exact Hat.
  - pose proof (H (-1) 0 0 eq_refl eq_refl) as H0. cbv zeta in H0.
    destruct H0 as (_ & _ & Hat). exact Hat.
Defined.

Lemma fill_crossings_witness :
  valid_grid (demoGrid QOps) /\
  exists e : EdgeEntry QOps,
    In e (edgesOf AxisX (fst (fill localToGlobal_std (demoGrid QOps)
                                   (slabField QOps) snapFinder))) /\
    edgeKey e = mk_ivec3 (-1) 0 0.
Proof.
  split; [apply demoGrid_valid|].
  pose proof (fill_crossings localToGlobal_std (demoGrid QOps) (slabField QOps)
                snapFinder (demoGrid_valid QOps) AxisX) as H.
  cbv zeta in H. destruct H as (H & _).
  refine (proj2 (H (mk_ivec3 (-1) 0 0)) (conj eq_refl (conj eq_refl _))).
  vm_compute. discriminate.
Defined.

Lemma fill_offsets_witness :
  valid_grid (demoGrid QOps) /\
  ~ (m_gridStep (demoGrid QOps) == 0)%Q /\
  rootsBetween localToGlobal_std (demoGrid QOps) (slabField QOps) snapFinder /\
  forall e : EdgeEntry QOps,
    In e (edgesOf AxisX (fst (fill localToGlobal_std (demoGrid QOps)
                                   (slabField QOps) snapFinder))) ->
    (0 <= e_offset e)%Q /\ (e_offset e <= 1)%Q.
Proof.
  split; [apply demoGrid_valid|].
  assert (Hs : ~ (m_gridStep (demoGrid QOps) == 0)%Q)
    by (cbn [demoGrid m_gridStep]; unfold Qeq; simpl; lia).
  split; [exact Hs|].
  pose proof (finderBetween_roots localToGlobal_std (demoGrid QOps)
                (slabField QOps) snapFinder snapFinder_between) as Hr.
  split; [exact Hr|].
  intros e He.
  destruct (proj1 (proj2 fill_offsets) localToGlobal_std (demoGrid QOps)
              (slabField QOps) snapFinder (demoGrid_valid QOps) Hs Hr AxisX e He)
    as (H0 & H1 & _).
  split; [exact H0|exact H1].
Defined.

(* ================================================================== *)
(** ** Membership and border queries *)

Section Topology.

Context {D : DoubleOps}.
Variable g : UniformGrid D.

Let h := m_halfSize g.

(** [isFaceInGrid<axis>]: a [glm::abs] test along the normal and two range
    tests across it. *)
Lemma isFaceInGrid_abs (a : Axis) (p : ivec3) :
  isFaceInGrid a g p = true <->
  match a with
  | AxisX => glm_abs (ix p) <= h /\ - h <= iy p < h /\ - h <= iz p < h
  | AxisY => glm_abs (iy p) <= h /\ - h <= ix p < h /\ - h <= iz p < h
  | AxisZ => glm_abs (iz p) <= h /\ - h <= ix p < h /\ - h <= iy p < h
  end.
Proof.
  destruct a; cbn [isFaceInGrid];
    [unfold isFaceInGrid_0|unfold isFaceInGrid_1|unfold isFaceInGrid_2]; fold h.
  - destruct (Z.gtb_spec (glm_abs (ix p)) h); [split; [discriminate|lia]|].
    destruct (Z.ltb_spec (iy p) (- h)), (Z.geb_spec (iy p) h); simpl;
      try (split; [discriminate|lia]).
    destruct (Z.ltb_spec (iz p) (- h)), (Z.geb_spec (iz p) h); simpl;
      try (split; [discriminate|lia]).
    split; [lia|reflexivity].
  - destruct (Z.gtb_spec (glm_abs (iy p)) h); [split; [discriminate|lia]|].
    destruct (Z.ltb_spec (ix p) (- h)), (Z.geb_spec (ix p) h); simpl;
      try (split; [discriminate|lia]).
    destruct (Z.ltb_spec (iz p) (- h)), (Z.geb_spec (iz p) h); simpl;
      try (split; [discriminate|lia]).
    split; [lia|reflexivity].
  - destruct (Z.gtb_spec (glm_abs (iz p)) h); [split; [discriminate|lia]|].
    destruct (Z.ltb_spec (ix p) (- h)), (Z.geb_spec (ix p) h); simpl;
      try (split; [discriminate|lia]).
    destruct (Z.ltb_spec (iy p) (- h)), (Z.geb_spec (iy p) h); simpl;
      try (split; [discriminate|lia]).
    split; [lia|reflexivity].
Qed.

Lemma isFaceInGrid_of_range (a : Axis) (p : ivec3) :
  match a with
  | AxisX => - h <= ix p <= h /\ - h <= iy p < h /\ - h <= iz p < h
  | AxisY => - h <= ix p < h /\ - h <= iy p <= h /\ - h <= iz p < h
  | AxisZ => - h <= ix p < h /\ - h <= iy p < h /\ - h <= iz p <= h
  end ->
  isFaceInGrid a g p = true.
Proof.
  intros H. apply isFaceInGrid_abs.
  destruct a; destruct H as (Hx & Hy & Hz);
    (split; [apply glm_abs_le_range; lia|lia]).
Qed.

(** When the coordinate along the normal is not [INT32_MIN],
    [isFaceInGrid<axis>] is membership in the lattice of faces. *)
Lemma isFaceInGrid_iff (a : Axis) (p : ivec3) :
  negatable (coordOf a p) = true ->
  (isFaceInGrid a g p = true <->
   match a with
   | AxisX => - h <= ix p <= h /\ - h <= iy p < h /\ - h <= iz p < h
   | AxisY => - h <= ix p < h /\ - h <= iy p <= h /\ - h <= iz p < h
   | AxisZ => - h <= ix p < h /\ - h <= iy p < h /\ - h <= iz p <= h
   end).
Proof.
  intros Hn. split; [|apply isFaceInGrid_of_range].
  intros H. apply isFaceInGrid_abs in H.
  destruct a; cbn [coordOf] in Hn; destruct H as (H1 & H2 & H3);
    apply (glm_abs_le_exact h _ Hn) in H1; lia.
Qed.

Lemma isCellInGrid_false_iff (c : ivec3) :
  isCellInGrid g c = false <->
  ~ (- h <= ix c < h /\ - h <= iy c < h /\ - h <= iz c < h).
Proof.
  unfold h. rewrite <- (isCellInGrid_iff g c). destruct (isCellInGrid g c); split;
    congruence.
Qed.

Lemma isVertexInGrid_false_iff (x y z : Z) :
  negatable3 x y z = true ->
  (isVertexInGrid g x y z = false <->
   ~ (- h <= x <= h /\ - h <= y <= h /\ - h <= z <= h)).
Proof.
  intros Hn. unfold h. rewrite <- (isVertexInGrid_iff g x y z Hn).
  destruct (isVertexInGrid g x y z); split;
    congruence.
Qed.

Lemma isVertexOnBorder_iff (x y z : Z) :
  isVertexOnBorder g x y z = true <->
  glm_abs x = h \/ glm_abs y = h \/ glm_abs z = h.
Proof.
  unfold isVertexOnBorder. fold h.
  destruct (Z.eqb_spec (glm_abs x) h); [split; [lia|reflexivity]|].
  destruct (Z.eqb_spec (glm_abs y) h); [split; [lia|reflexivity]|].
  destruct (Z.eqb_spec (glm_abs z) h); [split; [lia|reflexivity]|].
  split; [discriminate|lia].
Qed.

Lemma isCellOnBorder_iff (c : ivec3) :
  isCellOnBorder g c = true <->
  ix c = - h \/ iy c = - h \/ iz c = - h \/
  ix c = h - 1 \/ iy c = h - 1 \/ iz c = h - 1.
Proof.
  unfold isCellOnBorder. fold h.
  destruct (Z.eqb_spec (ix c) (- h)), (Z.eqb_spec (iy c) (- h)),
    (Z.eqb_spec (iz c) (- h)); simpl; try (split; [lia|reflexivity]).
  destruct (Z.eqb_spec (ix c) (h - 1)), (Z.eqb_spec (iy c) (h - 1)),
    (Z.eqb_spec (iz c) (h - 1)); simpl; try (split; [lia|reflexivity]).
  split; [discriminate|lia].
Qed.

Lemma isEdgeOnBorder_iff (a : Axis) (e : ivec3) :
  isEdgeOnBorder a g e = true <->
  match a with
  | AxisX => glm_abs (iy e) = h \/ glm_abs (iz e) = h
  | AxisY => glm_abs (ix e) = h \/ glm_abs (iz e) = h
  | AxisZ => glm_abs (ix e) = h \/ glm_abs (iy e) = h
  end.
Proof.
  destruct a; cbn [isEdgeOnBorder];
    [unfold isEdgeOnBorder_0|unfold isEdgeOnBorder_1|unfold isEdgeOnBorder_2];
    fold h;
    repeat match goal with
           | |- context [Z.eqb ?u ?v] => destruct (Z.eqb_spec u v)
           end; split; try discriminate; try reflexivity; lia.
Qed.

Lemma isFaceOnBorder_iff (a : Axis) (p : ivec3) :
  isFaceOnBorder a g p = true <-> glm_abs (coordOf a p) = h.
Proof.
  destruct a; cbn [isFaceOnBorder coordOf];
    [unfold isFaceOnBorder_0|unfold isFaceOnBorder_1|unfold isFaceOnBorder_2];
    fold h;
    match goal with
    | |- context [Z.eqb ?u ?v] => destruct (Z.eqb_spec u v)
    end; split; try discriminate; try reflexivity; lia.
Qed.

End Topology.

(** The membership and border tests at [INT32_MIN], on the grid of size 2:
    [glm::abs] stays negative there, so the vertex, the face and the edge
    below are accepted and none of them is reported on the border, although
    the next vertex is rejected and no cell around them is in the grid. *)
Example tests_at_int_min :
  let g := demoGrid QOps in
  (isVertexInGrid g INT32_MIN 0 0 = true /\
   isVertexOnBorder g INT32_MIN 0 0 = false /\
   isVertexInGrid g (INT32_MIN + 1) 0 0 = false) /\
  (isFaceInGrid AxisX g (mk_ivec3 INT32_MIN 0 0) = true /\
   isFaceOnBorder AxisX g (mk_ivec3 INT32_MIN 0 0) = false /\
   isCellInGrid g (mk_ivec3 INT32_MIN 0 0) = false /\
   isCellInGrid g (shiftAxis AxisX (-1) (mk_ivec3 INT32_MIN 0 0)) = false) /\
  (isEdgeInGrid AxisX g (mk_ivec3 0 INT32_MIN 0) = true /\
   isEdgeOnBorder AxisX g (mk_ivec3 0 INT32_MIN 0) = false /\
   forallb (fun c => negb (isCellInGrid g c))
           (edgeNeighbours AxisX (mk_ivec3 0 INT32_MIN 0)) = true).
Proof. repeat split; reflexivity. Qed.

(** Everything on the boundary of an in-grid cell is in the grid: its eight
    corner vertices, its twelve edges and its six faces. *)
Theorem cell_boundary_in_grid {D : DoubleOps} (g : UniformGrid D) (c : ivec3) :
  isCellInGrid g c = true ->
  Forall (fun p => isVertexInGrid g (ix p) (iy p) (iz p) = true) (cellCorners c) /\
  Forall (fun ae => isEdgeInGrid (fst ae) g (snd ae) = true) (cellEdges c) /\
  Forall (fun ap => isFaceInGrid (fst ap) g (snd ap) = true) (cellFaces c).
Proof.
  intros Hc. split; [now apply cellCorners_in_grid|].
  apply (isCellInGrid_iff g) in Hc. destruct c as [x y z]. cbn [ix iy iz] in Hc.
  split.
  - unfold cellEdges.
    repeat (apply Forall_cons;
            [cbn [fst snd]; apply isEdgeInGrid_of_range; unfold edgeInLattice;
             cbn [shiftAxis ix iy iz]; lia|]).
    apply Forall_nil.
  - unfold cellFaces.
    repeat (apply Forall_cons;
            [cbn [fst snd]; apply isFaceInGrid_of_range;
             cbn [shiftAxis ix iy iz]; lia|]).
    apply Forall_nil.
Qed.

(** The four edges around an in-grid face are in the grid, and both ends of
    an in-grid edge are in-grid vertices. *)
Theorem face_edge_boundary_in_grid {D : DoubleOps} (g : UniformGrid D)
    (a : Axis) (p : ivec3) :
  (isFaceInGrid a g p = true ->
   Forall (fun be => isEdgeInGrid (fst be) g (snd be) = true) (faceEdges a p)) /\
  (isEdgeInGrid a g p = true ->
   isVertexInGrid g (ix p) (iy p) (iz p) = true /\
   isVertexInGrid g (ix (upperEnd a p)) (iy (upperEnd a p)) (iz (upperEnd a p))
   = true).
Proof.
  split; [|apply edge_ends_in_grid].
  intros Hf. apply isFaceInGrid_abs in Hf. destruct p as [x y z].
  destruct a; cbn [ix iy iz] in Hf; destruct Hf as (H1 & H2 & H3);
    unfold faceEdges;
    repeat (apply Forall_cons;
            [cbn [fst snd]; apply isEdgeInGrid_abs;
             cbn [shiftAxis ix iy iz];
             (split; [lia|split]);
             first [assumption|apply glm_abs_le_range; lia]|]);
    apply Forall_nil.
Qed.

(** The border test on vertices, away from [INT32_MIN]: an in-grid vertex
    is on the border exactly when one of its six axis neighbours is outside
    the grid.  ([tests_at_int_min] shows what the hypothesis leaves
    out.) *)
Theorem isVertexOnBorder_spec {D : DoubleOps} (g : UniformGrid D) (x y z : Z) :
  valid_grid g ->
  negatable3 x y z = true ->
  isVertexInGrid g x y z = true ->
  (isVertexOnBorder g x y z = true <->
   exists q, In q (axisNeighbours (mk_ivec3 x y z)) /\
             isVertexInGrid g (ix q) (iy q) (iz q) = false).
Proof.
  intros V Hn Hin. apply (isVertexInGrid_iff g _ _ _ Hn) in Hin.
  rewrite isVertexOnBorder_iff.
  apply negatable3_iff in Hn. destruct Hn as (Nx & Ny & Nz).
  apply negatable_iff in Nx, Ny, Nz.
  rewrite !glm_abs_exact by assumption.
  assert (Hq : forall q, In q (axisNeighbours (mk_ivec3 x y z)) ->
                 negatable3 (ix q) (iy q) (iz q) = true).
  { intros q Hq. unfold axisNeighbours in Hq. cbn [shiftAxis ix iy iz In] in Hq.
    apply (lattice_negatable g V).
    all: destruct Hq as [<-|[<-|[<-|[<-|[<-|[<-|[]]]]]]]; cbn [ix iy iz]; lia. }
  split.
  - intros Hb.
    assert (Hc : x = - m_halfSize g \/ x = m_halfSize g \/
                 y = - m_halfSize g \/ y = m_halfSize g \/
                 z = - m_halfSize g \/ z = m_halfSize g) by lia.
    unfold axisNeighbours in *. cbn [shiftAxis ix iy iz] in *.
    destruct Hc as [E|[E|[E|[E|[E|E]]]]];
      [exists (mk_ivec3 (x + -1) y z)|exists (mk_ivec3 (x + 1) y z)
      |exists (mk_ivec3 x (y + -1) z)|exists (mk_ivec3 x (y + 1) z)
      |exists (mk_ivec3 x y (z + -1))|exists (mk_ivec3 x y (z + 1))];
      (split; [cbn [In]; tauto|]);
      (apply isVertexInGrid_false_iff;
       [apply Hq; cbn [In]; tauto|cbn [ix iy iz]; lia]).
  - intros (q & Hqin & Hout).
    apply (isVertexInGrid_false_iff g _ _ _ (Hq q Hqin)) in Hout.
    unfold axisNeighbours in Hqin. cbn [shiftAxis ix iy iz In] in Hqin.
    destruct Hqin as [<-|[<-|[<-|[<-|[<-|[<-|[]]]]]]]; cbn [ix iy iz] in Hout; lia.
Qed.

(** An in-grid cell is on the border exactly when one of the six cells that
    share a face with it is outside the grid. *)
Theorem isCellOnBorder_spec {D : DoubleOps} (g : UniformGrid D) (c : ivec3) :
  isCellInGrid g c = true ->
  (isCellOnBorder g c = true <->
   exists q, In q (axisNeighbours c) /\ isCellInGrid g q = false).
Proof.
  intros Hin. apply (isCellInGrid_iff g) in Hin.
  rewrite isCellOnBorder_iff. destruct c as [x y z]. cbn [ix iy iz] in *. split.
  - intros Hc. unfold axisNeighbours. cbn [shiftAxis ix iy iz].
    destruct Hc as [E|[E|[E|[E|[E|E]]]]];
      [exists (mk_ivec3 (x + -1) y z)|exists (mk_ivec3 x (y + -1) z)
      |exists (mk_ivec3 x y (z + -1))|exists (mk_ivec3 (x + 1) y z)
      |exists (mk_ivec3 x (y + 1) z)|exists (mk_ivec3 x y (z + 1))];
      (split; [cbn [In]; tauto|]);
      apply isCellInGrid_false_iff; cbn [ix iy iz]; lia.
  - intros (q & Hq & Hout). apply isCellInGrid_false_iff in Hout.
    unfold axisNeighbours in Hq. cbn [shiftAxis ix iy iz In] in Hq.
    destruct Hq as [<-|[<-|[<-|[<-|[<-|[<-|[]]]]]]]; cbn [ix iy iz] in Hout; lia.
Qed.

(** The border test on faces, when the coordinate along the normal is not
    [INT32_MIN]: an in-grid face is on the border exactly when one of the
    two cells it separates is outside the grid; the other one is always
    inside.  ([tests_at_int_min] shows what the hypothesis leaves out.) *)
Theorem isFaceOnBorder_spec {D : DoubleOps} (g : UniformGrid D)
    (a : Axis) (p : ivec3) :
  negatable (coordOf a p) = true ->
  isFaceInGrid a g p = true ->
  (isFaceOnBorder a g p = true <->
   isCellInGrid g p = false \/ isCellInGrid g (shiftAxis a (-1) p) = false) /\
  (isCellInGrid g p = true \/ isCellInGrid g (shiftAxis a (-1) p) = true).
Proof.
  intros Hn Hf. apply (isFaceInGrid_iff g a p Hn) in Hf.
  rewrite isFaceOnBorder_iff, (glm_abs_exact _ Hn),
    !isCellInGrid_false_iff, !(isCellInGrid_iff g).
  destruct p as [x y z].
  destruct a; cbn [shiftAxis coordOf ix iy iz] in *; lia.
Qed.

(* ================================================================== *)
(** ** Adjacency across queries *)

Section Adjacency.

Context {D : DoubleOps}.
Variable kBadIndex : Z.
Variable g : UniformGrid D.
Hypothesis Hvalid : valid_grid g.
Hypothesis HkBad : (m_size g + 1) ^ 3 <= kBadIndex.

Lemma adjacentCellsForEdge_eq (a : Axis) (e : ivec3) :
  edgeInLattice a g e ->
  adjacentCellsForEdge kBadIndex a g e
  = map (neighbourIndex kBadIndex g) (edgeNeighbours a e).
Proof.
  intros Hin. destruct a; cbn [adjacentCellsForEdge] in *.
  - now apply adjacentCellsForEdge_0_eq.
  - now apply adjacentCellsForEdge_1_eq.
  - now apply adjacentCellsForEdge_2_eq.
Qed.

Lemma sentinel_in_cells (a : Axis) (e : ivec3) :
  edgeInLattice a g e ->
  (In kBadIndex (adjacentCellsForEdge kBadIndex a g e) <->
   Exists (fun c => isCellInGrid g c = false) (edgeNeighbours a e)).
Proof.
  intros Hin. rewrite (adjacentCellsForEdge_eq a e Hin).
  rewrite in_map_iff, Exists_exists. split.
  - intros (c & Ec & Hc). exists c. split; [exact Hc|].
    now apply (neighbourIndex_sentinel kBadIndex g Hvalid c HkBad).
  - intros (c & Hc & Hout). exists c. split; [|exact Hc].
    now apply (neighbourIndex_sentinel kBadIndex g Hvalid c HkBad).
Qed.

Lemma border_edge_neighbour_out (a : Axis) (e : ivec3) :
  edgeInLattice a g e ->
  (isEdgeOnBorder a g e = true <->
   Exists (fun c => isCellInGrid g c = false) (edgeNeighbours a e)).
Proof.
  intros Hin. pose proof (edge_negatable g Hvalid a e Hin) as Hn.
  apply negatable3_iff in Hn. destruct Hn as (Nx & Ny & Nz).
  apply negatable_iff in Nx, Ny, Nz.
  rewrite (isEdgeOnBorder_iff g). destruct e as [x y z].
  destruct a; unfold edgeInLattice in Hin; unfold edgeNeighbours;
    cbn [ix iy iz] in *;
    rewrite !glm_abs_exact by assumption;
    rewrite !Exists_cons, Exists_nil, !(isCellInGrid_false_iff g);
    cbn [ix iy iz]; lia.
Qed.

Lemma cellHasEdge_corners (a : Axis) (c e : ivec3) :
  cellHasEdge a c e ->
  In e (cellCorners c) /\ In (upperEnd a e) (cellCorners c).
Proof.
  destruct c as [cx cy cz], e as [x y z].
  destruct a; unfold cellHasEdge, cellCorners, upperEnd; cbn [ix iy iz In];
    intros (-> & [->| ->] & [->| ->]); split; tauto.
Qed.

Lemma cellHasEdge_in_lattice (a : Axis) (c e : ivec3) :
  isCellInGrid g c = true -> cellHasEdge a c e -> edgeInLattice a g e.
Proof.
  intros Hc He. apply (isCellInGrid_iff g) in Hc.
  destruct a; unfold cellHasEdge in He; unfold edgeInLattice; lia.
Qed.

Lemma u32_sub_mod_l (a b : Z) :
  u32_sub (a mod U32_MOD) b = (a - b) mod U32_MOD.
Proof. unfold u32_sub, u32. apply Zminus_mod_idemp_l. Qed.

Lemma u32_add_mod_l (a b : Z) :
  u32_add (a mod U32_MOD) b = (a + b) mod U32_MOD.
Proof. unfold u32_add, u32. apply Zplus_mod_idemp_l. Qed.

(** An entry of [adjacentCellsForEdge] that is not the sentinel is one of
    the four index differences the function starts from, whatever the
    position of the edge. *)
Lemma adjacentCellsForEdge_slots (a : Axis) (e : ivec3) (idx : Z) :
  In idx (adjacentCellsForEdge kBadIndex a g e) ->
  idx <> kBadIndex ->
  let i := pointToIndex_v g e in
  let n := u32_add (m_size g) 1 in
  let nn := u32_mul n n in
  In idx match a with
         | AxisX => [u32_sub (u32_sub i nn) 1; u32_sub i 1; i; u32_sub i nn]
         | AxisY => [u32_sub (u32_sub i n) 1; u32_sub i n; i; u32_sub i 1]
         | AxisZ => [u32_sub (u32_sub i n) nn; u32_sub i nn; i; u32_sub i n]
         end.
Proof.
  intros Hin Hne i n nn.
  destruct a; cbn [adjacentCellsForEdge] in Hin;
    [unfold adjacentCellsForEdge_0 in Hin
    |unfold adjacentCellsForEdge_1 in Hin
    |unfold adjacentCellsForEdge_2 in Hin];
    fold i n nn in Hin;
    repeat match type of Hin with
           | context [Z.eqb ?u ?v] => destruct (Z.eqb u v)
           end;
    cbn [repeat array_set nth In] in Hin |- *;
    destruct Hin as [H|[H|[H|[H|[]]]]]; try congruence; tauto.
Qed.

(** The cell at each of those index differences lists the index of the
    edge's lower endpoint and the index of its upper endpoint among its
    vertices: the sums of [adjacentVerticesForCell] undo the differences
    modulo [2^32]. *)
Lemma slot_vertices (a : Axis) (e : ivec3) (idx : Z) :
  let i := pointToIndex_v g e in
  let n := u32_add (m_size g) 1 in
  let nn := u32_mul n n in
  In idx match a with
         | AxisX => [u32_sub (u32_sub i nn) 1; u32_sub i 1; i; u32_sub i nn]
         | AxisY => [u32_sub (u32_sub i n) 1; u32_sub i n; i; u32_sub i 1]
         | AxisZ => [u32_sub (u32_sub i n) nn; u32_sub i nn; i; u32_sub i n]
         end ->
  In (pointToIndex_v g e) (adjacentVerticesForCell g idx) /\
  In (pointToIndex_v g (upperEnd a e)) (adjacentVerticesForCell g idx).
Proof.
  intros i n nn Hin. subst i n nn.
  unfold adjacentVerticesForCell, pointToIndex_v in *.
  rewrite (u32_NN g Hvalid), (u32_N g Hvalid) in *.
  rewrite !(pointToIndex_mod g Hvalid) in *.
  cbn [repeat array_set].
  destruct a; cbn [upperEnd ix iy iz In] in *;
    destruct Hin as [<-|[<-|[<-|[<-|[]]]]];
    repeat rewrite ?u32_sub_mod_l, ?u32_add_mod_l;
    split;
    repeat (first [left; apply (f_equal (fun t => t mod U32_MOD)); ring
                  |right]).
Qed.

End Adjacency.

(** The border test on edges, away from [INT32_MIN]: an in-grid edge is on
    the border exactly when [adjacentCellsForEdge] reports a missing cell;
    for an edge that is not on the border the four entries are the indices
    of its four in-grid cells.  ([tests_at_int_min] shows what the
    hypothesis leaves out.) *)
Theorem isEdgeOnBorder_spec {D : DoubleOps} (kBadIndex : Z) (g : UniformGrid D)
    (a : Axis) (e : ivec3) :
  valid_grid g ->
  (m_size g + 1) ^ 3 <= kBadIndex ->
  negatable_v e = true ->
  isEdgeInGrid a g e = true ->
  (isEdgeOnBorder a g e = true <->
   In kBadIndex (adjacentCellsForEdge kBadIndex a g e)) /\
  (isEdgeOnBorder a g e = false ->
   Forall (fun c => isCellInGrid g c = true) (edgeNeighbours a e) /\
   adjacentCellsForEdge kBadIndex a g e
   = map (pointToIndex_v g) (edgeNeighbours a e)).
Proof.
  intros V Hk Hn Hin. apply (isEdgeInGrid_iff g a e Hn) in Hin.
  pose proof (border_edge_neighbour_out g V a e Hin) as Hb.
  pose proof (sentinel_in_cells kBadIndex g V Hk a e Hin) as Hs.
  split; [now rewrite Hb, Hs|].
  intros Hf.
  assert (Hall : Forall (fun c => isCellInGrid g c = true) (edgeNeighbours a e)).
  { apply Forall_forall. intros c Hc.
    destruct (isCellInGrid g c) eqn:E; [reflexivity|exfalso].
    assert (Hex : Exists (fun c => isCellInGrid g c = false) (edgeNeighbours a e))
      by (apply Exists_exists; now exists c).
    apply Hb in Hex. congruence. }
  split; [exact Hall|].
  rewrite (adjacentCellsForEdge_eq kBadIndex g V a e Hin).
  apply map_ext_in. intros c Hc. rewrite Forall_forall in Hall.
  unfold neighbourIndex. now rewrite (Hall c Hc).
Qed.

(** The two adjacency queries agree.  Every cell index that
    [adjacentCellsForEdge] returns for an in-grid edge lists both ends of
    the edge among its [adjacentVerticesForCell]; and every in-grid cell
    that has the edge on its boundary is among the cells returned. *)
Theorem adjacency_consistent {D : DoubleOps} (kBadIndex : Z) (g : UniformGrid D)
    (a : Axis) (e : ivec3) :
  valid_grid g ->
  (m_size g + 1) ^ 3 <= kBadIndex ->
  isEdgeInGrid a g e = true ->
  (forall idx, In idx (adjacentCellsForEdge kBadIndex a g e) ->
     idx <> kBadIndex ->
     In (pointToIndex_v g e) (adjacentVerticesForCell g idx) /\
     In (pointToIndex_v g (upperEnd a e)) (adjacentVerticesForCell g idx)) /\
  (forall c, isCellInGrid g c = true -> cellHasEdge a c e ->
     In (pointToIndex_v g c) (adjacentCellsForEdge kBadIndex a g e)).
Proof.
  intros V Hk Hin. split.
  - intros idx Hidx Hne. apply (slot_vertices g V a e idx).
    exact (adjacentCellsForEdge_slots kBadIndex g a e idx Hidx Hne).
  - intros c Hcin Hc.
    pose proof (cellHasEdge_in_lattice g a c e Hcin Hc) as Hl.
    rewrite (adjacentCellsForEdge_eq kBadIndex g V a e Hl).
    apply in_map_iff. exists c. split.
    + unfold neighbourIndex. now rewrite Hcin.
    + now apply edgeNeighbours_complete.
Qed.

(** [indexToPoint] decodes an index to an in-grid vertex exactly when the
    index is below [(size+1)^3], the bound its assertion checks. *)
Theorem indexToPoint_in_grid_iff {D : DoubleOps} (g : UniformGrid D) (idx : Z) :
  valid_grid g ->
  0 <= idx < U32_MOD ->
  let p := indexToPoint g idx in
  isVertexInGrid g (ix p) (iy p) (iz p) = true <-> idx < (m_size g + 1) ^ 3.
Proof.
  intros V Hidx p.
  replace ((m_size g + 1) ^ 3)
    with ((m_size g + 1) * (m_size g + 1) * (m_size g + 1)) by ring.
  destruct (valid_dims g V) as (_ & Hh & HN).
  set (N := m_size g + 1) in *. set (h := m_halfSize g) in *.
  split.
  - intros Hin. destruct (Z_lt_dec idx (N * N * N)) as [L|L]; [exact L|exfalso].
    apply (isVertexInGrid_abs g) in Hin. destruct Hin as (_ & Hy & _).
    subst p. unfold indexToPoint in Hy. rewrite (u32_N g V) in Hy.
    fold N h in Hy. cbn [iy] in Hy.
    assert (H1 : N * N <= idx / N)
      by (apply Z.div_le_lower_bound; lia).
    assert (H2 : N <= idx / N / N)
      by (apply Z.div_le_lower_bound; lia).
    assert (H3 : idx / N / N < 2 ^ 31).
    { apply Z.div_lt_upper_bound; [lia|].
      apply Z.div_lt_upper_bound; [lia|]. unfold U32_MOD in Hidx. lia. }
    rewrite i32_of_u32_small in Hy by lia.
    apply glm_abs_le_exact in Hy; [lia|].
    apply (range_negatable h); lia.
  - intros L. apply (isVertexInGrid_of_range g).
    apply (pointToIndex_indexToPoint g V idx). fold N. lia.
Qed.

(* ================================================================== *)
(** ** [fill] as a whole *)

Lemma map_Some_inj {A : Type} (l1 l2 : list A) :
  map Some l1 = map Some l2 -> l1 = l2.
Proof.
  revert l2. induction l1 as [|a l1 IH]; intros [|b l2] E; simpl in E;
    try discriminate; [reflexivity|].
  injection E as -> E. f_equal. now apply IH.
Qed.

Section FillWhole.

Context {D : DoubleOps}.
Variable localToGlobal : UniformGrid D -> dvec3 D -> dvec3 D.
Variable g : UniformGrid D.
Variable f : ScalarField D.
Variable solver : ZeroFinder D.
Hypothesis Hvalid : valid_grid g.

Let g' := fst (fill localToGlobal g f solver).

Lemma fill_edges_In (a : Axis) (e : EdgeEntry D) :
  In e (edgesOf a g') <->
  exists x y z,
    edgeInLattice a g (mk_ivec3 x y z) /\
    In e (crossing localToGlobal a g f solver
            (vs_values (sample_grid localToGlobal g f))
            (vs_mat (sample_grid localToGlobal g f)) x y z).
Proof.
  rewrite <- (scan_In localToGlobal g f solver _ _ Hvalid a e).
  destruct a; reflexivity.
Qed.

Lemma sampled_inside (p : ivec3) :
  inLattice g (ix p) (iy p) (iz p) ->
  d_le0 (vec_get (vs_values (sample_grid localToGlobal g f))
                 (pointToIndex_v g p) (d_of_int D 0))
  = inside localToGlobal g f (ix p) (iy p) (iz p).
Proof.
  intros Hp.
  destruct (sample_grid_spec localToGlobal g f Hvalid) as (_ & _ & Hdone & _).
  destruct (Hdone _ _ _ Hp) as (Hv & _).
  unfold pointToIndex_v. now rewrite Hv.
Qed.

Lemma stored_material (p : ivec3) :
  inLattice g (ix p) (iy p) (iz p) ->
  vec_get (m_mat g') (pointToIndex_v g p) Empty = materialAt localToGlobal g f p /\
  nth_error (m_mat g') (Z.to_nat (pointToIndex_v g p))
  = Some (materialAt localToGlobal g f p) /\
  at_v g' p = Ok (materialAt localToGlobal g f p).
Proof.
  intros Hp.
  destruct (sample_grid_spec localToGlobal g f Hvalid) as (_ & _ & Hdone & _).
  destruct (Hdone _ _ _ Hp) as (_ & Hm).
  pose proof (fill_valid localToGlobal g f solver Hvalid) as V'. fold g' in V'.
  assert (E : vec_get (m_mat g') (pointToIndex_v g p) Empty
              = materialAt localToGlobal g f p) by exact Hm.
  destruct (read_mat_vertex g' V' (ix p) (iy p) (iz p) Hp) as (m & _ & Hn).
  assert (Em : m = materialAt localToGlobal g f p).
  { rewrite <- E. unfold vec_get, pointToIndex_v.
    symmetry. apply (nth_error_nth _ _ _ Hn). }
  subst m. split; [exact E|]. split; [exact Hn|].
  unfold at_v. rewrite (at_vec_get g' V') by exact Hp. f_equal. exact E.
Qed.

Lemma gridVertices_In (p : ivec3) :
  In p (gridVertices g) <-> inLattice g (ix p) (iy p) (iz p).
Proof.
  unfold gridVertices. rewrite (dataSize_eq g Hvalid), in_map_iff.
  destruct (valid_dims g Hvalid) as (_ & Hh & HN).
  set (N := m_size g + 1) in *.
  assert (HN3 : 0 <= N * N * N) by nia.
  unfold inLattice. split.
  - intros (j & <- & Hj). apply in_zrange in Hj.
    apply (pointToIndex_indexToPoint g Hvalid j). fold N. lia.
  - intros (Hx & Hy & Hz). exists (pointToIndex g (ix p) (iy p) (iz p)). split.
    + rewrite (indexToPoint_pointToIndex g Hvalid) by assumption. now destruct p.
    + apply in_zrange.
      pose proof (pointToIndex_range g Hvalid _ _ _ Hx Hy Hz) as R. fold N in R. lia.
Qed.

Lemma gridVertices_NoDup : NoDup (gridVertices g).
Proof.
  unfold gridVertices. rewrite (dataSize_eq g Hvalid).
  destruct (valid_dims g Hvalid) as (_ & Hh & HN).
  set (N := m_size g + 1) in *.
  assert (HN3 : 0 <= N * N * N) by nia.
  apply NoDup_map_NoDup_ForallPairs; [|apply NoDup_zrange].
  intros i j Hi Hj E. apply in_zrange in Hi. apply in_zrange in Hj.
  destruct (pointToIndex_indexToPoint g Hvalid i) as (_ & Ri); [fold N; lia|].
  destruct (pointToIndex_indexToPoint g Hvalid j) as (_ & Rj); [fold N; lia|].
  rewrite <- Ri, <- Rj, E. reflexivity.
Qed.

End FillWhole.

(** The material pass in closed form.  After [fill] the material array
    holds, vertex by vertex in index order, [Empty] for a value [> 0] and
    what [f.material] returned otherwise; [f.material] is called exactly
    once for each vertex whose value is not [> 0], in index order, and for
    nothing else.  The vertices listed are exactly the lattice vertices,
    each once: the coordinates that [isVertexInGrid] accepts and that have
    no component [INT32_MIN]. *)
Theorem fill_vertex_by_vertex {D : DoubleOps}
    (localToGlobal : UniformGrid D -> dvec3 D -> dvec3 D)
    (g : UniformGrid D) (f : ScalarField D) (solver : ZeroFinder D) :
  valid_grid g ->
  m_mat (fst (fill localToGlobal g f solver))
  = map (materialAt localToGlobal g f) (gridVertices g) /\
  snd (fill localToGlobal g f solver)
  = flat_map (materialCalls localToGlobal g f) (gridVertices g) /\
  NoDup (gridVertices g) /\
  (forall p, In p (gridVertices g) <->
             (negatable_v p = true /\
              isVertexInGrid g (ix p) (iy p) (iz p) = true)).
Proof.
  intros V.
  destruct (sample_grid_closed localToGlobal g f V) as (_ & Em & Et).
  split; [exact Em|]. split; [exact Et|].
  split; [now apply gridVertices_NoDup|]. intros p.
  rewrite (gridVertices_In g V). split.
  - intros Hr. split; [|now apply isVertexInGrid_of_range].
    destruct Hr as (Hx & Hy & Hz).
    apply (lattice_negatable g V); lia.
  - intros (Hn & Hin). now apply (isVertexInGrid_iff g _ _ _ Hn).
Qed.

(** [fill] rebuilds everything: what it returns does not depend on the
    previous contents of the material array or of the edge lists.  Two
    valid grids with the same size, origin and step give the same grid and
    the same [f.material] calls; in particular filling a grid again gives
    what filling it the first time would have given. *)
Theorem fill_forgets_contents {D : DoubleOps}
    (localToGlobal : UniformGrid D -> dvec3 D -> dvec3 D)
    (g1 g2 : UniformGrid D) (f : ScalarField D) (solver : ZeroFinder D) :
  valid_grid g1 -> valid_grid g2 ->
  m_size g1 = m_size g2 ->
  m_globalPos g1 = m_globalPos g2 ->
  m_gridStep g1 = m_gridStep g2 ->
  localToGlobal g1 = localToGlobal g2 ->
  fill localToGlobal g1 f solver = fill localToGlobal g2 f solver.
Proof.
  intros V1 V2 Hs Hp Hst HL.
  assert (Hh : m_halfSize g1 = m_halfSize g2).
  { destruct V1 as [_ _ _ H1 _], V2 as [_ _ _ H2 _]. now rewrite H1, H2, Hs. }
  destruct (sample_grid_closed localToGlobal g1 f V1) as (Ev1 & Em1 & Et1).
  destruct (sample_grid_closed localToGlobal g2 f V2) as (Ev2 & Em2 & Et2).
  assert (EG : gridVertices g1 = gridVertices g2).
  { unfold gridVertices, dataSize, indexToPoint. now rewrite Hs, Hh. }
  assert (EP : samplePos localToGlobal g1 = samplePos localToGlobal g2).
  { unfold samplePos. now rewrite Hh, Hst, HL. }
  assert (Ev : vs_values (sample_grid localToGlobal g1 f)
               = vs_values (sample_grid localToGlobal g2 f)).
  { rewrite Ev1, Ev2, EG. unfold sampleValue. now rewrite EP. }
  assert (Em : vs_mat (sample_grid localToGlobal g1 f)
               = vs_mat (sample_grid localToGlobal g2 f)).
  { rewrite Em1, Em2, EG. unfold materialAt, sampleValue. now rewrite EP. }
  assert (Et : vs_trace (sample_grid localToGlobal g1 f)
               = vs_trace (sample_grid localToGlobal g2 f)).
  { rewrite Et1, Et2, EG. unfold materialCalls, sampleValue. now rewrite EP. }
  unfold fill. rewrite Ev, Em, Et.
  unfold scan_X, scan_Y, scan_Z, scan_edge_X, scan_edge_Y, scan_edge_Z.
  now rewrite Hs, Hh, Hp, Hst, HL.
Qed.

(** After [fill], [materialsOfCell] on an in-grid cell returns the
    materials [fill] computed for its eight corners, in corner order. *)
Theorem materialsOfCell_after_fill {D : DoubleOps}
    (localToGlobal : UniformGrid D -> dvec3 D -> dvec3 D)
    (g : UniformGrid D) (f : ScalarField D) (solver : ZeroFinder D) (c : ivec3) :
  valid_grid g ->
  isCellInGrid g c = true ->
  let g' := fst (fill localToGlobal g f solver) in
  materialsOfCell g' (pointToIndex_v g' c)
  = Ok (map (materialAt localToGlobal g f) (cellCorners c)).
Proof.
  intros V Hc g'.
  pose proof (fill_valid localToGlobal g f solver V) as V'. fold g' in V'.
  pose proof (cellCorners_in_range g c Hc) as Hall.
  destruct (read_all_vertices g' V' (cellCorners c) Hall) as (ms & Er & Ems).
  assert (E : ms = map (materialAt localToGlobal g f) (cellCorners c)).
  { apply map_Some_inj. rewrite Ems, map_map. apply map_ext_in.
    intros p Hp. rewrite Forall_forall in Hall.
    now destruct (stored_material localToGlobal g f solver V p (Hall p Hp))
      as (_ & Hn & _). }
  subst ms.
  pose proof (adjacentVerticesForCell_corners g' V' c Hc) as Ea.
  unfold materialsOfCell. rewrite <- Er, <- Ea.
  unfold adjacentVerticesForCell. reflexivity.
Qed.

(** Each edge list holds at most as many entries as the grid has edges
    along that axis, [size * (size+1)^2]. *)
Theorem fill_edge_count {D : DoubleOps}
    (localToGlobal : UniformGrid D -> dvec3 D -> dvec3 D)
    (g : UniformGrid D) (f : ScalarField D) (solver : ZeroFinder D) (a : Axis) :
  valid_grid g ->
  Z.of_nat (List.length (edgesOf a (fst (fill localToGlobal g f solver))))
  <= m_size g * (m_size g + 1) * (m_size g + 1).
Proof.
  intros V.
  pose proof (scan_length_le localToGlobal g f solver
                (vs_values (sample_grid localToGlobal g f))
                (vs_mat (sample_grid localToGlobal g f)) V a) as H.
  destruct a; exact H.
Qed.

(** A lattice vertex whose sampled value is NaN gets the material
    [f.material] returns for it, as a solid vertex does, yet the edge scans
    count it as outside. *)
Theorem fill_nan_vertex {D : DoubleOps}
    (localToGlobal : UniformGrid D -> dvec3 D -> dvec3 D)
    (g : UniformGrid D) (f : ScalarField D) (solver : ZeroFinder D) (p : ivec3) :
  valid_grid g ->
  negatable_v p = true ->
  isVertexInGrid g (ix p) (iy p) (iz p) = true ->
  dcmp0 (sampleValue localToGlobal g f (ix p) (iy p) (iz p)) = FNotComparable ->
  let pos := samplePos localToGlobal g (ix p) (iy p) (iz p) in
  let v := sampleValue localToGlobal g f (ix p) (iy p) (iz p) in
  at_v (fst (fill localToGlobal g f solver)) p = Ok (sf_material f pos v) /\
  In (pos, v) (snd (fill localToGlobal g f solver)) /\
  inside localToGlobal g f (ix p) (iy p) (iz p) = false.
Proof.
  intros V Hneg Hp Hnan pos v.
  apply (isVertexInGrid_iff g _ _ _ Hneg) in Hp.
  assert (Hgt : d_gt0 v = false) by (unfold d_gt0; subst v; now rewrite Hnan).
  destruct (stored_material localToGlobal g f solver V p Hp) as (_ & _ & Hat).
  destruct (sample_grid_spec localToGlobal g f V) as (_ & _ & _ & _ & Hcall).
  split; [|split].
  - rewrite Hat. unfold materialAt. fold v pos. now rewrite Hgt.
  - apply Hcall; assumption.
  - unfold inside, d_le0. fold v. subst v. now rewrite Hnan.
Qed.

(** When no lattice vertex samples to NaN and [f.material] never returns
    [Empty], the edge lists agree with the material array: a lattice edge
    has an entry exactly when one of its two endpoints stores [Empty] and
    the other does not.  The material of an entry is never [Empty],
    whatever the samples. *)
Theorem fill_edges_match_materials {D : DoubleOps}
    (localToGlobal : UniformGrid D -> dvec3 D -> dvec3 D)
    (g : UniformGrid D) (f : ScalarField D) (solver : ZeroFinder D) :
  valid_grid g ->
  (forall pos v, sf_material f pos v <> Empty) ->
  let g' := fst (fill localToGlobal g f solver) in
  (forall a e, In e (edgesOf a g') -> e_mat e <> Empty) /\
  ((forall x y z,
      negatable3 x y z = true -> isVertexInGrid g x y z = true ->
      dcmp0 (sampleValue localToGlobal g f x y z) <> FNotComparable) ->
   forall a p,
     negatable_v p = true -> isEdgeInGrid a g p = true ->
     ((exists e, In e (edgesOf a g') /\ edgeKey e = p) <->
      (at_v g' p = Ok Empty <-> at_v g' (upperEnd a p) <> Ok Empty))).
Proof.
  intros V Hmat g'.
  assert (Hstored : forall p, inLattice g (ix p) (iy p) (iz p) ->
            at_v g' p = Ok (materialAt localToGlobal g f p) /\
            vec_get (m_mat g') (pointToIndex_v g p) Empty
            = materialAt localToGlobal g f p).
  { intros p Hp.
    destruct (stored_material localToGlobal g f solver V p Hp) as (E & _ & Hat).
    split; [exact Hat|exact E]. }
  assert (Hempty : forall p,
            materialAt localToGlobal g f p = Empty <->
            d_gt0 (sampleValue localToGlobal g f (ix p) (iy p) (iz p)) = true).
  { intros p. unfold materialAt.
    destruct (d_gt0 (sampleValue localToGlobal g f (ix p) (iy p) (iz p)));
      split; try reflexivity; try discriminate.
    intros E. now apply Hmat in E. }
  split.
  - intros a e He. apply (fill_edges_In localToGlobal g f solver V) in He.
    destruct He as (x & y & z & Hin & Hc).
    destruct (crossing_In localToGlobal g f solver _ _ a x y z e Hc)
      as (Hne & _ & _ & _ & Hm & _).
    destruct (edge_ends_in_lattice g a _ Hin) as (Hp & Hq).
    set (P := mk_ivec3 x y z) in *. set (Q := upperEnd a P) in *.
    pose proof (sampled_inside localToGlobal g f V P Hp) as E1.
    pose proof (sampled_inside localToGlobal g f V Q Hq) as E2.
    rewrite E1 in Hm. rewrite E1, E2 in Hne.
    destruct (Hstored _ Hp) as (_ & Ep). destruct (Hstored _ Hq) as (_ & Eq).
    change (vs_mat (sample_grid localToGlobal g f)) with (m_mat g') in Hm.
    rewrite Ep, Eq in Hm.
    assert (Hsolid : forall w,
              inside localToGlobal g f (ix w) (iy w) (iz w) = true ->
              materialAt localToGlobal g f w <> Empty).
    { intros w Hw E. apply Hempty in E. apply d_le0_not_gt0 in Hw. congruence. }
    rewrite Hm.
    destruct (inside localToGlobal g f (ix P) (iy P) (iz P)) eqn:Ei;
      [now apply Hsolid|].
    apply Hsolid.
    destruct (inside localToGlobal g f (ix Q) (iy Q) (iz Q)); congruence.
  - intros Hnan a p Hneg Hin.
    apply (isEdgeInGrid_iff g a p Hneg) in Hin.
    destruct (edge_ends_in_lattice g a _ Hin) as (Hp & Hq).
    assert (Hsign : forall w, inLattice g (ix w) (iy w) (iz w) ->
              (at_v g' w = Ok Empty <->
               inside localToGlobal g f (ix w) (iy w) (iz w) = false)).
    { intros w Hw. destruct (Hstored w Hw) as (-> & _).
      assert (Hwn : negatable3 (ix w) (iy w) (iz w) = true)
        by (destruct Hw as (? & ? & ?); apply (lattice_negatable g V); lia).
      specialize (Hnan _ _ _ Hwn (isVertexInGrid_of_range g _ _ _ Hw)).
      specialize (Hempty w).
      unfold inside, d_le0. unfold d_gt0 in Hempty.
      destruct (dcmp0 (sampleValue localToGlobal g f (ix w) (iy w) (iz w)));
        try contradiction; split; intros E; try reflexivity; try discriminate;
        try (injection E as E; apply Hempty in E; discriminate);
        f_equal; now apply Hempty. }
    rewrite (Hsign p Hp), (Hsign _ Hq).
    assert (Hiff : (exists e, In e (edgesOf a g') /\ edgeKey e = p) <->
              inside localToGlobal g f (ix p) (iy p) (iz p)
              <> inside localToGlobal g f (ix (upperEnd a p)) (iy (upperEnd a p))
                   (iz (upperEnd a p))).
    { pose proof (sampled_inside localToGlobal g f V p Hp) as E1.
      pose proof (sampled_inside localToGlobal g f V (upperEnd a p) Hq) as E2.
      split.
      - intros (e & He & Hk).
        apply (fill_edges_In localToGlobal g f solver V) in He.
        destruct He as (x & y & z & _ & Hc).
        destruct (crossing_In localToGlobal g f solver _ _ a x y z e Hc)
          as (Hne & Hkey & _).
        rewrite Hkey in Hk. subst p. rewrite E1, E2 in Hne. exact Hne.
      - intros Hne. rewrite <- E1, <- E2 in Hne. destruct p as [x y z].
        destruct (crossing_exists localToGlobal g f solver _
                    (vs_mat (sample_grid localToGlobal g f)) a x y z Hne)
          as (e & He).
        exists e. split.
        + apply (fill_edges_In localToGlobal g f solver V).
          exists x, y, z. split; assumption.
        + now destruct (crossing_In localToGlobal g f solver _ _ a x y z e He)
            as (_ & Hkey & _). }
    rewrite Hiff.
    destruct (inside localToGlobal g f (ix p) (iy p) (iz p)),
      (inside localToGlobal g f (ix (upperEnd a p)) (iy (upperEnd a p))
         (iz (upperEnd a p))); intuition congruence.
Qed.

(* ================================================================== *)
(** ** The bounding box of a mesh *)

Lemma Qltb_lt (a b : Q) : Qltb a b = true <-> (a < b)%Q.
Proof.
  unfold Qltb. rewrite negb_true_iff. split.
  - intros H. apply Qnot_le_lt. intros L. apply Qle_bool_iff in L. congruence.
  - intros H. destruct (Qle_bool b a) eqn:E; [|reflexivity].
    apply Qle_bool_iff in E. exfalso. exact (Qlt_not_le _ _ H E).
Qed.

Lemma Qltb_ge (a b : Q) : Qltb a b = false <-> (b <= a)%Q.
Proof.
  unfold Qltb. rewrite negb_false_iff. apply Qle_bool_iff.
Qed.

Lemma runMin_spec (xs : list Q) : forall m0,
  (runMin m0 xs <= m0)%Q /\
  (forall x, In x xs -> (runMin m0 xs <= x)%Q) /\
  (runMin m0 xs = m0 \/ In (runMin m0 xs) xs).
Proof.
  induction xs as [|x xs IH]; intros m0; cbn [runMin fold_left In].
  - split; [apply Qle_refl|]. split; [intros ? []|now left].
  - fold (runMin (if Qltb x m0 then x else m0) xs).
    destruct (IH (if Qltb x m0 then x else m0)) as (Hle & Hall & Hat).
    destruct (Qltb x m0) eqn:E.
    + apply Qltb_lt in E. split; [lra|]. split.
      * intros y [<-|Hy]; [exact Hle|now apply Hall].
      * destruct Hat as [->|Hat]; right; [now left|now right].
    + apply Qltb_ge in E. split; [exact Hle|]. split.
      * intros y [<-|Hy]; [lra|now apply Hall].
      * destruct Hat as [Hat|Hat]; [now left|right; now right].
Qed.

Lemma runMax_spec (xs : list Q) : forall m0,
  (m0 <= runMax m0 xs)%Q /\
  (forall x, In x xs -> (x <= runMax m0 xs)%Q) /\
  (runMax m0 xs = m0 \/ In (runMax m0 xs) xs) /\
  ((forall x, In x xs -> (x <= m0)%Q) -> runMax m0 xs = m0).
Proof.
  induction xs as [|x xs IH]; intros m0; cbn [runMax fold_left In].
  - split; [apply Qle_refl|]. split; [intros ? []|]. split; [now left|reflexivity].
  - fold (runMax (if Qltb m0 x then x else m0) xs).
    destruct (IH (if Qltb m0 x then x else m0)) as (Hle & Hall & Hat & Hfl).
    destruct (Qltb m0 x) eqn:E.
    + apply Qltb_lt in E. split; [lra|]. split; [|split].
      * intros y [<-|Hy]; [exact Hle|now apply Hall].
      * destruct Hat as [->|Hat]; right; [now left|now right].
      * intros Hb. exfalso. specialize (Hb x (or_introl eq_refl)). lra.
    + apply Qltb_ge in E. split; [exact Hle|]. split; [|split].
      * intros y [<-|Hy]; [lra|now apply Hall].
      * destruct Hat as [Hat|Hat]; [now left|right; now right].
      * intros Hb. apply Hfl. intros y Hy. apply Hb. now right.
Qed.

Lemma fold_bounds_proj (vs : list (dvec3 QOps)) : forall b,
  let r := fold_left bounds_step vs b in
  b_minX r = runMin (b_minX b) (map vx vs) /\
  b_maxX r = runMax (b_maxX b) (map vx vs) /\
  b_minY r = runMin (b_minY b) (map vy vs) /\
  b_maxY r = runMax (b_maxY b) (map vy vs) /\
  b_minZ r = runMin (b_minZ b) (map vz vs) /\
  b_maxZ r = runMax (b_maxZ b) (map vz vs).
Proof.
  induction vs as [|v vs IH]; intros b; cbn [fold_left map].
  - repeat split.
  - exact (IH (bounds_step b v)).
Qed.

Lemma FLT_MIN_pos : (0 < FLT_MIN)%Q.
Proof. reflexivity. Qed.

(** The box computed by [fillOctree] contains every vertex of the mesh. *)
Theorem meshBounds_contains (vertices : list (dvec3 QOps)) (v : dvec3 QOps) :
  In v vertices ->
  let b := meshBounds vertices in
  (b_minX b <= vx v)%Q /\ (vx v <= b_maxX b)%Q /\
  (b_minY b <= vy v)%Q /\ (vy v <= b_maxY b)%Q /\
  (b_minZ b <= vz v)%Q /\ (vz v <= b_maxZ b)%Q.
Proof.
  intros Hv b.
  destruct (fold_bounds_proj vertices
              (mk_bounds FLT_MAX FLT_MIN FLT_MAX FLT_MIN FLT_MAX FLT_MIN))
    as (E1 & E2 & E3 & E4 & E5 & E6).
  fold (meshBounds vertices) in E1, E2, E3, E4, E5, E6. fold b in E1, E2, E3, E4, E5, E6.
  rewrite E1, E2, E3, E4, E5, E6. cbn [b_minX b_maxX b_minY b_maxY b_minZ b_maxZ].
  repeat split;
    first [ apply (runMin_spec _ FLT_MAX) | apply (runMax_spec _ FLT_MIN) ];
    now apply in_map.
Qed.

(** The lower corner of the box is tight and the upper corner is not.  For
    a mesh with a vertex and no coordinate above [FLT_MAX], each minimum is
    the coordinate of some vertex.  Each maximum starts from [FLT_MIN], the
    smallest positive [float], so it is never below it: when no vertex has
    an x coordinate above [FLT_MIN], as for a mesh in the half space
    [x <= 0], [maxX] is [FLT_MIN] and not the largest x coordinate. *)
Theorem meshBounds_corners (vertices : list (dvec3 QOps)) :
  vertices <> [] ->
  (forall v, In v vertices ->
     (vx v <= FLT_MAX)%Q /\ (vy v <= FLT_MAX)%Q /\ (vz v <= FLT_MAX)%Q) ->
  let b := meshBounds vertices in
  ((exists v, In v vertices /\ (b_minX b == vx v)%Q) /\
   (exists v, In v vertices /\ (b_minY b == vy v)%Q) /\
   (exists v, In v vertices /\ (b_minZ b == vz v)%Q)) /\
  ((FLT_MIN <= b_maxX b)%Q /\ (FLT_MIN <= b_maxY b)%Q /\ (FLT_MIN <= b_maxZ b)%Q) /\
  ((forall v, In v vertices -> (vx v <= FLT_MIN)%Q) -> b_maxX b = FLT_MIN) /\
  ((forall v, In v vertices -> (vy v <= FLT_MIN)%Q) -> b_maxY b = FLT_MIN) /\
  ((forall v, In v vertices -> (vz v <= FLT_MIN)%Q) -> b_maxZ b = FLT_MIN).
Proof.
  intros Hne Hfin b.
  destruct (fold_bounds_proj vertices
              (mk_bounds FLT_MAX FLT_MIN FLT_MAX FLT_MIN FLT_MAX FLT_MIN))
    as (E1 & E2 & E3 & E4 & E5 & E6).
  fold (meshBounds vertices) in E1, E2, E3, E4, E5, E6. fold b in E1, E2, E3, E4, E5, E6.
  cbn [b_minX b_maxX b_minY b_maxY b_minZ b_maxZ] in E1, E2, E3, E4, E5, E6.
  assert (Hmin : forall (pr : dvec3 QOps -> Q),
            (forall v, In v vertices -> (pr v <= FLT_MAX)%Q) ->
            exists v, In v vertices /\ (runMin FLT_MAX (map pr vertices) == pr v)%Q).
  { intros pr Hb.
    destruct (runMin_spec (map pr vertices) FLT_MAX) as (_ & Hall & [Hat|Hat]).
    - destruct vertices as [|v0 vs]; [contradiction|].
      exists v0. split; [now left|].
      apply Qle_antisym.
      + apply Hall. now left.
      + rewrite Hat. apply Hb. now left.
    - apply in_map_iff in Hat. destruct Hat as (v & Ev & Hv).
      exists v. split; [exact Hv|]. now rewrite Ev. }
  assert (Hmax : forall (pr : dvec3 QOps -> Q),
            (forall v, In v vertices -> (pr v <= FLT_MIN)%Q) ->
            runMax FLT_MIN (map pr vertices) = FLT_MIN).
  { intros pr Hb. apply (runMax_spec (map pr vertices) FLT_MIN).
    intros x Hx. apply in_map_iff in Hx. destruct Hx as (v & <- & Hv). now apply Hb. }
  rewrite E1, E2, E3, E4, E5, E6.
  split; [|split; [|split; [|split]]].
  - split; [|split]; apply Hmin; intros v Hv; now apply Hfin.
  - split; [|split]; exact (proj1 (runMax_spec _ FLT_MIN)).
  - apply (Hmax vx).
  - apply (Hmax vy).
  - apply (Hmax vz).
Qed.

(* ================================================================== *)
(** ** The gradient of a mesh field, in exact arithmetic *)

(** [MeshField::grad] takes its differences backwards, the value at
    [p - h] minus the value at [p + h]: in exact arithmetic, for an affine
    value function [a . p + c] and a non-zero [h], it returns [- a]. *)
Theorem meshGrad_affine (ax ay az c h x y z : Q) :
  ~ (h == 0)%Q ->
  let value := fun px py pz : Q => (ax * px + ay * py + az * pz + c)%Q in
  let gr := meshGrad (D := QOps) value h x y z in
  (vx gr == - ax)%Q /\ (vy gr == - ay)%Q /\ (vz gr == - az)%Q.
Proof.
  intros Hh value gr. subst gr value. unfold meshGrad.
  cbn [vx vy vz dadd dsub ddiv d_of_int QOps].
  repeat split; field; exact Hh.
Qed.

(* ================================================================== *)
(** ** Order of the recorded entries *)

(** Each edge list is in increasing order of the index of the lower
    endpoint of its entries, the order of the material array. *)
Theorem fill_edges_sorted {D : DoubleOps}
    (localToGlobal : UniformGrid D -> dvec3 D -> dvec3 D)
    (g : UniformGrid D) (f : ScalarField D) (solver : ZeroFinder D) (a : Axis) :
  valid_grid g ->
  StronglySorted Z.lt
    (map (fun e => pointToIndex_v g (edgeKey e))
         (edgesOf a (fst (fill localToGlobal g f solver)))).
Proof.
  intros V.
  pose proof (scan_sorted localToGlobal g f solver
                (vs_values (sample_grid localToGlobal g f))
                (vs_mat (sample_grid localToGlobal g f)) V a) as H.
  destruct a; exact H.
Qed.

(* ================================================================== *)
(** ** [pointToIndex] without its assertion *)

(** In a build that drops [assert], [pointToIndex] accepts any coordinates:
    as long as the signed sums stay in the [int32_t] range, the result is
    the closed formula reduced modulo [2^32].  A vertex one step past the
    upper x border is therefore not rejected but aliased to the first
    vertex of the next row, [(-halfSize, y + 1, z)]. *)
Theorem pointToIndex_out_of_range {D : DoubleOps} (g : UniformGrid D) (x y z : Z) :
  valid_grid g ->
  - 2 ^ 30 <= x <= 2 ^ 30 -> - 2 ^ 30 <= y <= 2 ^ 30 -> - 2 ^ 30 <= z <= 2 ^ 30 ->
  let h := m_halfSize g in
  let N := m_size g + 1 in
  pointToIndex g x y z = (((y + h) * N + (x + h)) * N + (z + h)) mod U32_MOD /\
  (x = h + 1 -> - h <= y < h -> - h <= z <= h ->
   isVertexInGrid g x y z = false /\
   pointToIndex g x y z = pointToIndex g (- h) (y + 1) z).
Proof.
  intros V Hx Hy Hz h N.
  assert (HM : U32_MOD <> 0) by (unfold U32_MOD; lia).
  assert (E : pointToIndex g x y z
              = (((y + h) * N + (x + h)) * N + (z + h)) mod U32_MOD)
    by apply (pointToIndex_mod g V).
  split; [exact E|].
  intros -> Hy' Hz'. split.
  - destruct (isVertexInGrid g (h + 1) y z) eqn:Ein; [|reflexivity].
    apply (isVertexInGrid_abs g) in Ein. fold h in Ein.
    destruct Ein as (Ex & _). destruct (valid_dims g V) as (_ & Hh & _).
    fold h in Hh. apply glm_abs_le_exact in Ex; [lia|].
    apply (range_negatable 0); lia.
  - rewrite E. rewrite (pointToIndex_closed g V) by (fold h; lia). fold h N.
    destruct (valid_dims g V) as (_ & Hh & HN). fold h N in Hh, HN.
    replace (((y + h) * N + (h + 1 + h)) * N + (z + h))
      with (((y + 1 + h) * N + (- h + h)) * N + (z + h)) by (rewrite HN; ring).
    apply Z.mod_small.
    pose proof (index_bound N (y + 1 + h) (- h + h) (z + h)
                  ltac:(lia) ltac:(lia) ltac:(lia)) as B.
    pose proof (cube_lt_u32 g V) as HU. fold N in HU. lia.
Qed.

(* ================================================================== *)
(** ** The further theorems at the concrete inputs *)

Lemma cell_boundary_in_grid_witness :
  isCellInGrid (demoGrid QOps) (mk_ivec3 0 (-1) 0) = true /\
  Forall (fun ae => isEdgeInGrid (fst ae) (demoGrid QOps) (snd ae) = true)
         (cellEdges (mk_ivec3 0 (-1) 0)).
Proof.
  split; [reflexivity|].
  exact (proj1 (proj2 (cell_boundary_in_grid (demoGrid QOps) (mk_ivec3 0 (-1) 0)
                         eq_refl))).
Defined.

Lemma isVertexOnBorder_spec_witness :
  valid_grid (demoGrid QOps) /\
  negatable3 1 0 0 = true /\
  isVertexInGrid (demoGrid QOps) 1 0 0 = true /\
  exists q, In q (axisNeighbours (mk_ivec3 1 0 0)) /\
            isVertexInGrid (demoGrid QOps) (ix q) (iy q) (iz q) = false.
Proof.
  split; [apply demoGrid_valid|]. split; [reflexivity|]. split; [reflexivity|].
  exact (proj1 (isVertexOnBorder_spec (demoGrid QOps) 1 0 0
                  (demoGrid_valid QOps) eq_refl eq_refl) eq_refl).
Defined.

Lemma isCellOnBorder_spec_witness :
  isCellInGrid (demoGrid QOps) (mk_ivec3 0 0 0) = true /\
  exists q, In q (axisNeighbours (mk_ivec3 0 0 0)) /\
            isCellInGrid (demoGrid QOps) q = false.
Proof.
  split; [reflexivity|].
  exact (proj1 (isCellOnBorder_spec (demoGrid QOps) (mk_ivec3 0 0 0) eq_refl)
               eq_refl).
Defined.

Lemma isFaceOnBorder_spec_witness :
  negatable (coordOf AxisX (mk_ivec3 1 0 0)) = true /\
  isFaceInGrid AxisX (demoGrid QOps) (mk_ivec3 1 0 0) = true /\
  (isCellInGrid (demoGrid QOps) (mk_ivec3 1 0 0) = false \/
   isCellInGrid (demoGrid QOps) (shiftAxis AxisX (-1) (mk_ivec3 1 0 0)) = false).
Proof.
  split; [reflexivity|]. split; [reflexivity|].
  exact (proj1 (proj1 (isFaceOnBorder_spec (demoGrid QOps) AxisX (mk_ivec3 1 0 0)
                         eq_refl eq_refl)) eq_refl).
Defined.

Lemma isEdgeOnBorder_spec_witness :
  valid_grid (demoGrid QOps) /\
  (m_size (demoGrid QOps) + 1) ^ 3 <= 4294967295 /\
  negatable_v (mk_ivec3 0 0 0) = true /\
  isEdgeInGrid AxisX (demoGrid QOps) (mk_ivec3 0 0 0) = true /\
  adjacentCellsForEdge 4294967295 AxisX (demoGrid QOps) (mk_ivec3 0 0 0)
  = map (pointToIndex_v (demoGrid QOps)) (edgeNeighbours AxisX (mk_ivec3 0 0 0)).
Proof.
  split; [apply demoGrid_valid|].
  assert (Hk : (m_size (demoGrid QOps) + 1) ^ 3 <= 4294967295)
    by (cbn [demoGrid m_size]; lia).
  split; [exact Hk|]. split; [reflexivity|]. split; [reflexivity|].
  exact (proj2 (proj2 (isEdgeOnBorder_spec 4294967295 (demoGrid QOps) AxisX
                         (mk_ivec3 0 0 0) (demoGrid_valid QOps) Hk eq_refl
                         eq_refl)
                      eq_refl)).
Defined.

Lemma adjacency_consistent_witness :
  valid_grid (demoGrid QOps) /\
  (m_size (demoGrid QOps) + 1) ^ 3 <= 4294967295 /\
  isEdgeInGrid AxisZ (demoGrid QOps) (mk_ivec3 0 0 0) = true /\
  In (pointToIndex_v (demoGrid QOps) (mk_ivec3 (-1) 0 0))
     (adjacentCellsForEdge 4294967295 AxisZ (demoGrid QOps) (mk_ivec3 0 0 0)).
Proof.
  split; [apply demoGrid_valid|].
  assert (Hk : (m_size (demoGrid QOps) + 1) ^ 3 <= 4294967295)
    by (cbn [demoGrid m_size]; lia).
  split; [exact Hk|]. split; [reflexivity|].
  apply (proj2 (adjacency_consistent 4294967295 (demoGrid QOps) AxisZ
                  (mk_ivec3 0 0 0) (demoGrid_valid QOps) Hk eq_refl)
               (mk_ivec3 (-1) 0 0) eq_refl).
  cbn [cellHasEdge ix iy iz]. lia.
Defined.

Lemma indexToPoint_in_grid_iff_witness :
  valid_grid (demoGrid QOps) /\
  0 <= 27 < U32_MOD /\
  isVertexInGrid (demoGrid QOps)
    (ix (indexToPoint (demoGrid QOps) 27)) (iy (indexToPoint (demoGrid QOps) 27))
    (iz (indexToPoint (demoGrid QOps) 27)) <> true.
Proof.
  split; [apply demoGrid_valid|].
  assert (H : 0 <= 27 < U32_MOD) by (unfold U32_MOD; lia).
  split; [exact H|]. intros Hin.
  apply (indexToPoint_in_grid_iff (demoGrid QOps) 27 (demoGrid_valid QOps) H) in Hin.
  cbn [demoGrid m_size] in Hin. lia.
Defined.

Lemma fill_vertex_by_vertex_witness :
  valid_grid (demoGrid QOps) /\
  snd (fill localToGlobal_std (demoGrid QOps) (slabField QOps) snapFinder)
  = flat_map (materialCalls localToGlobal_std (demoGrid QOps) (slabField QOps))
             (gridVertices (demoGrid QOps)).
Proof.
  split; [apply demoGrid_valid|].
  exact (proj1 (proj2 (fill_vertex_by_vertex localToGlobal_std (demoGrid QOps)
                         (slabField QOps) snapFinder (demoGrid_valid QOps)))).
Defined.

Lemma fill_forgets_contents_witness :
  let g1 := fst (fill localToGlobal_std (demoGrid QOps) (slabField QOps)
                      snapFinder) in
  valid_grid g1 /\ valid_grid (demoGrid QOps) /\
  m_size g1 = m_size (demoGrid QOps) /\
  m_globalPos g1 = m_globalPos (demoGrid QOps) /\
  m_gridStep g1 = m_gridStep (demoGrid QOps) /\
  localToGlobal_std g1 = localToGlobal_std (demoGrid QOps) /\
  fill localToGlobal_std g1 (slabField QOps) snapFinder
  = fill localToGlobal_std (demoGrid QOps) (slabField QOps) snapFinder.
Proof.
  intros g1.
  assert (V1 : valid_grid g1)
    by exact (fill_valid localToGlobal_std (demoGrid QOps) (slabField QOps)
                snapFinder (demoGrid_valid QOps)).
  assert (HL : localToGlobal_std g1 = localToGlobal_std (demoGrid QOps))
    by (unfold localToGlobal_std, g1, fill;
        cbn [fst m_globalPos m_gridStep]; reflexivity).
  assert (Hs : m_size g1 = m_size (demoGrid QOps))
    by (unfold g1, fill; cbn [fst m_size]; reflexivity).
  assert (Hp : m_globalPos g1 = m_globalPos (demoGrid QOps))
    by (unfold g1, fill; cbn [fst m_globalPos]; reflexivity).
  assert (Hst : m_gridStep g1 = m_gridStep (demoGrid QOps))
    by (unfold g1, fill; cbn [fst m_gridStep]; reflexivity).
  split; [exact V1|]. split; [apply demoGrid_valid|].
  split; [exact Hs|]. split; [exact Hp|]. split; [exact Hst|]. split; [exact HL|].
  exact (fill_forgets_contents localToGlobal_std g1 (demoGrid QOps) (slabField QOps)
           snapFinder V1 (demoGrid_valid QOps) Hs Hp Hst HL).
Defined.

Lemma materialsOfCell_after_fill_witness :
  valid_grid (demoGrid QOps) /\
  isCellInGrid (demoGrid QOps) (mk_ivec3 (-1) 0 0) = true /\
  let g' := fst (fill localToGlobal_std (demoGrid QOps) (slabField QOps)
                      snapFinder) in
  materialsOfCell g' (pointToIndex_v g' (mk_ivec3 (-1) 0 0))
  = Ok (map (materialAt localToGlobal_std (demoGrid QOps) (slabField QOps))
            (cellCorners (mk_ivec3 (-1) 0 0))).
Proof.
  split; [apply demoGrid_valid|]. split; [reflexivity|].
  exact (materialsOfCell_after_fill localToGlobal_std (demoGrid QOps)
           (slabField QOps) snapFinder (mk_ivec3 (-1) 0 0)
           (demoGrid_valid QOps) eq_refl).
Defined.

Lemma fill_edge_count_witness :
  valid_grid (demoGrid QOps) /\
  Z.of_nat (List.length (edgesOf AxisX
              (fst (fill localToGlobal_std (demoGrid QOps) (slabField QOps)
                         snapFinder))))
  <= m_size (demoGrid QOps) * (m_size (demoGrid QOps) + 1)
     * (m_size (demoGrid QOps) + 1).
Proof.
  split; [apply demoGrid_valid|].
  exact (fill_edge_count localToGlobal_std (demoGrid QOps) (slabField QOps)
           snapFinder AxisX (demoGrid_valid QOps)).
Defined.

Lemma fill_edges_sorted_witness :
  valid_grid (demoGrid QOps) /\
  StronglySorted Z.lt
    (map (fun e => pointToIndex_v (demoGrid QOps) (edgeKey e))
         (edgesOf AxisX
            (fst (fill localToGlobal_std (demoGrid QOps) (slabField QOps)
                       snapFinder)))).
Proof.
  split; [apply demoGrid_valid|].
  exact (fill_edges_sorted localToGlobal_std (demoGrid QOps) (slabField QOps)
           snapFinder AxisX (demoGrid_valid QOps)).
Defined.

Lemma fill_nan_vertex_witness :
  valid_grid (demoGrid F64Ops) /\
  negatable_v (mk_ivec3 0 0 0) = true /\
  isVertexInGrid (demoGrid F64Ops) 0 0 0 = true /\
  dcmp0 (sampleValue localToGlobal_std (demoGrid F64Ops) nanField 0 0 0)
  = FNotComparable /\
  at_v (fst (fill localToGlobal_std (demoGrid F64Ops) nanField snapFinder64))
       (mk_ivec3 0 0 0) = Ok Stone /\
  inside localToGlobal_std (demoGrid F64Ops) nanField 0 0 0 = false.
Proof.
  split; [apply demoGrid_valid|]. split; [reflexivity|]. split; [reflexivity|].
  assert (Hn : dcmp0 (sampleValue localToGlobal_std (demoGrid F64Ops) nanField 0 0 0)
               = FNotComparable) by (vm_compute; reflexivity).
  split; [exact Hn|].
  pose proof (fill_nan_vertex localToGlobal_std (demoGrid F64Ops) nanField
                snapFinder64 (mk_ivec3 0 0 0) (demoGrid_valid F64Ops) eq_refl
                eq_refl Hn)
    as H.
  cbv zeta in H. destruct H as (H1 & _ & H3). split; [exact H1|exact H3].
Defined.

Lemma fill_edges_match_materials_witness :
  valid_grid (demoGrid QOps) /\
  (forall pos v, sf_material (slabField QOps) pos v <> Empty) /\
  forall a e,
    In e (edgesOf a (fst (fill localToGlobal_std (demoGrid QOps) (slabField QOps)
                               snapFinder))) ->
    e_mat e <> Empty.
Proof.
  split; [apply demoGrid_valid|].
  assert (Hm : forall pos v, sf_material (slabField QOps) pos v <> Empty)
    by (intros pos v; cbn [slabField sf_material]; discriminate).
  split; [exact Hm|].
  exact (proj1 (fill_edges_match_materials localToGlobal_std (demoGrid QOps)
                  (slabField QOps) snapFinder (demoGrid_valid QOps) Hm)).
Defined.

Lemma meshBounds_contains_witness :
  In (mk_dvec3 (D := QOps) (inject_Z (-1)) (inject_Z 3) (inject_Z 5)) demoMesh /\
  (b_minX (meshBounds demoMesh) <= inject_Z (-1))%Q /\
  (inject_Z (-1) <= b_maxX (meshBounds demoMesh))%Q.
Proof.
  assert (Hin : In (mk_dvec3 (D := QOps) (inject_Z (-1)) (inject_Z 3) (inject_Z 5))
                   demoMesh) by (right; left; reflexivity).
  split; [exact Hin|].
  pose proof (meshBounds_contains demoMesh _ Hin) as H. cbv zeta in H.
  destruct H as (H1 & H2 & _). split; [exact H1|exact H2].
Defined.

Lemma meshBounds_corners_witness :
  demoMesh <> [] /\
  (forall v, In v demoMesh ->
     (vx v <= FLT_MAX)%Q /\ (vy v <= FLT_MAX)%Q /\ (vz v <= FLT_MAX)%Q) /\
  (forall v, In v demoMesh -> (vx v <= FLT_MIN)%Q) /\
  b_maxX (meshBounds demoMesh) = FLT_MIN.
Proof.
  assert (Hne : demoMesh <> []) by discriminate.
  assert (Hfin : forall v, In v demoMesh ->
            (vx v <= FLT_MAX)%Q /\ (vy v <= FLT_MAX)%Q /\ (vz v <= FLT_MAX)%Q).
  { intros v [<-|[<-|[]]]; cbn [vx vy vz]; repeat split; vm_compute; discriminate. }
  assert (Hneg : forall v, In v demoMesh -> (vx v <= FLT_MIN)%Q).
  { intros v [<-|[<-|[]]]; cbn [vx]; vm_compute; discriminate. }
  split; [exact Hne|]. split; [exact Hfin|]. split; [exact Hneg|].
  pose proof (meshBounds_corners demoMesh Hne Hfin) as H. cbv zeta in H.
  destruct H as (_ & _ & Hx & _). exact (Hx Hneg).
Defined.

Lemma meshGrad_affine_witness :
  ~ (1 == 0)%Q /\
  (vx (meshGrad (D := QOps)
         (fun px py pz : Q => (2 * px + 3 * py + 5 * pz + 7)%Q) 1 0 0 0) == - (2))%Q.
Proof.
  assert (Hh : ~ (1 == 0)%Q) by (unfold Qeq; simpl; lia).
  split; [exact Hh|].
  pose proof (meshGrad_affine 2 3 5 7 1 0 0 0 Hh) as H. cbv zeta in H.
  exact (proj1 H).
Defined.

Lemma pointToIndex_out_of_range_witness :
  valid_grid (demoGrid QOps) /\
  (- 2 ^ 30 <= 2 <= 2 ^ 30 /\ - 2 ^ 30 <= 0 <= 2 ^ 30 /\ - 2 ^ 30 <= 1 <= 2 ^ 30) /\
  pointToIndex (demoGrid QOps) 2 0 1 = pointToIndex (demoGrid QOps) (-1) 1 1.
Proof.
  split; [apply demoGrid_valid|].
  assert (H1 : - 2 ^ 30 <= 2 <= 2 ^ 30) by lia.
  assert (H2 : - 2 ^ 30 <= 0 <= 2 ^ 30) by lia.
  assert (H3 : - 2 ^ 30 <= 1 <= 2 ^ 30) by lia.
  split; [repeat split; lia|].
  pose proof (pointToIndex_out_of_range (demoGrid QOps) 2 0 1
                (demoGrid_valid QOps) H1 H2 H3) as H.
  cbv zeta in H. destruct H as (_ & H).
  refine (proj2 (H eq_refl _ _)); cbn [demoGrid m_halfSize]; lia.
Defined.
